(** * EM_classification: operation-probability model, likelihood matrix,
      EM estimator and abundance reducer

    A shallow embedding of [EM_classification.py].

    Conventions of the embedding.
    - Python [int] is [Z]; Python [float] is idealised as a real number
      ([R]): [math.log] is [ln] on the positive reals and raises outside
      of them, [math.e ** x] is [exp x], [/] raises on a zero divisor.
      Rounding, overflow and NaN are outside the model. Two places where
      the source in double precision leaves the idealised run: the total
      of an iteration can round below the previous one, and the strict
      test [log_likelihood_diff < 0] then raises; and a responsibility
      below the smallest positive double becomes 0.0, so that an
      abundance can be stored as 0. What is proved of the outcome of a
      run (it returns, it does not raise, its abundances are positive) is
      proved of the idealised run.
    - A Python [dict] is an insertion-ordered association list whose keys
      are distinct ([dict_wf]); assignment replaces in place or appends.
    - An exception is a value of [exn] carried by the [result] monad.
    - [-math.inf] as the initial objective is [None] in [option R]. *)

From Stdlib Require Import List String ZArith Reals Lia Lra Bool.
From Stdlib Require Import Permutation.
Import ListNotations.

Local Open Scope string_scope.
Local Open Scope list_scope.

(** ** Exceptions and the error monad *)

Inductive exn : Type :=
| ZeroDivisionError
| KeyError
| TypeError
| ValueError_math_domain
| ValueError_empty_max
| ValueError_f_sum
| ValueError_decreased.

Inductive result (A : Type) : Type :=
| Ok (a : A)
| Err (e : exn).

Arguments Ok {A} a.
Arguments Err {A} e.

Definition bind {A B : Type} (m : result A) (k : A -> result B) : result B :=
  match m with
  | Ok a => k a
  | Err e => Err e
  end.

Notation "x <- m ;; k" := (bind m (fun x => k))
  (at level 61, m at next level, right associativity).
Notation "' p <- m ;; k" := (bind m (fun x => match x with p => k end))
  (at level 61, p pattern, m at next level, right associativity).

Fixpoint mapM {A B : Type} (g : A -> result B) (l : list A) : result (list B) :=
  match l with
  | [] => Ok []
  | a :: l' =>
      b <- g a ;;
      bs <- mapM g l' ;;
      Ok (b :: bs)
  end.

(** ** Insertion-ordered dictionaries *)

Class KeyEq (K : Type) := key_eq_dec : forall x y : K, {x = y} + {x <> y}.

#[export] Instance string_KeyEq : KeyEq string := string_dec.

#[export] Instance pair_KeyEq {A B : Type} `{KeyEq A} `{KeyEq B} : KeyEq (A * B).
Proof.
  intros [a b] [a' b'].
  destruct (key_eq_dec a a') as [Ha | Ha]; [| right; congruence].
  destruct (key_eq_dec b b') as [Hb | Hb]; [| right; congruence].
  left; congruence.
Defined.

Section Dict.
Context {K V : Type} `{KeyEq K}.

Definition dict := list (K * V).

Definition keys (d : dict) : list K := map fst d.
Definition values (d : dict) : list V := map snd d.

(** [d.get(k)]; [d[k]] is [getitem]. *)
Fixpoint dict_get (d : dict) (k : K) : option V :=
  match d with
  | [] => None
  | (k', v) :: d' => if key_eq_dec k k' then Some v else dict_get d' k
  end.

(** [k in d] *)
Definition dict_mem (d : dict) (k : K) : bool :=
  match dict_get d k with Some _ => true | None => false end.

Definition getitem (d : dict) (k : K) : result V :=
  match dict_get d k with Some v => Ok v | None => Err KeyError end.

(** [d[k] = v] *)
Fixpoint dict_set (d : dict) (k : K) (v : V) : dict :=
  match d with
  | [] => [(k, v)]
  | (k', v') :: d' =>
      if key_eq_dec k k' then (k', v) :: d' else (k', v') :: dict_set d' k v
  end.

(** [d.pop(k)], without the popped value *)
Fixpoint dict_remove (d : dict) (k : K) : dict :=
  match d with
  | [] => []
  | (k', v') :: d' =>
      if key_eq_dec k k' then d' else (k', v') :: dict_remove d' k
  end.

Definition dict_wf (d : dict) : Prop := NoDup (keys d).
End Dict.

Arguments dict K V : clear implicits.

(** [dict(zip(ks, vs))] *)
Definition dict_of_zip {K V : Type} `{KeyEq K} (ks : list K) (vs : list V) : dict K V :=
  fold_left (fun d kv => dict_set d (fst kv) (snd kv)) (combine ks vs) [].

(** [dict.fromkeys(ks, v)] *)
Definition dict_fromkeys {K V : Type} `{KeyEq K} (ks : list K) (v : V) : dict K V :=
  fold_left (fun d k => dict_set d k v) ks [].

(** ** EditOperationTallyConverter: [get_align_stats] *)

Definition cigar_headers : list string :=
  ["M"; "I"; "D"; "N"; "S"; "H"; "P"; "="; "X"; "B"; "NM"].

Definition get_align_stats (cigar_stats : list Z) : result (dict string Z) :=
  let char_align_stats := dict_of_zip cigar_headers cigar_stats in
  nm <- getitem char_align_stats "NM" ;;
  let char_align_stats := dict_remove char_align_stats "NM" in
  i <- getitem char_align_stats "I" ;;
  d <- getitem char_align_stats "D" ;;
  let char_align_stats := dict_set char_align_stats "X" (nm - i - d)%Z in
  m <- getitem char_align_stats "M" ;;
  x <- getitem char_align_stats "X" ;;
  let char_align_stats := dict_set char_align_stats "M" (m - x)%Z in
  h <- getitem char_align_stats "H" ;;
  s <- getitem char_align_stats "S" ;;
  let char_align_stats := dict_set char_align_stats "C" (h + s)%Z in
  Ok char_align_stats.

(** ** Alignment records *)

(** One record of [samfile.fetch()]; [cigar_stats] is
    [read.get_cigar_stats()[0]]. *)
Record alignment : Type := {
  query_name : string;
  reference_name : option string;
  is_secondary : bool;
  is_supplementary : bool;
  cigar_stats : list Z
}.

(** ** Numeric primitives *)

Local Open Scope R_scope.

Definition Rltb (x y : R) : bool := if Rlt_dec x y then true else false.
Definition Rleb (x y : R) : bool := if Rle_dec x y then true else false.
Definition Reqb (x y : R) : bool := if Req_dec_T x y then true else false.

(** [sum(xs)]: left fold from the integer 0 *)
Definition py_sum (xs : list R) : R := fold_left Rplus xs 0.
Definition py_sumZ (xs : list Z) : Z := fold_left Z.add xs 0%Z.

(** [max(xs)] *)
Definition py_max (xs : list R) : result R :=
  match xs with
  | [] => Err ValueError_empty_max
  | x :: xs' => Ok (fold_left Rmax xs' x)
  end.

(** [math.log(x)] *)
Definition math_log (x : R) : result R :=
  if Rlt_dec 0 x then Ok (ln x) else Err ValueError_math_domain.

Definition math_e : R := exp 1.

(** [math.e ** x] *)
Definition math_e_pow (x : R) : R := Rpower math_e x.

(** [x / y] on floats *)
Definition float_div (x y : R) : result R :=
  if Req_dec_T y 0 then Err ZeroDivisionError else Ok (x / y).

(** [a / b] on integers (true division) *)
Definition true_div (a b : Z) : result R :=
  if Z.eq_dec b 0 then Err ZeroDivisionError else Ok (IZR a / IZR b).

(** ** OperationProbabilityModel: [get_char_align_probabilites] *)

(** [c[k]] on a [Counter]: a missing key counts 0 *)
Definition counter_get (c : dict string Z) (k : string) : Z :=
  match dict_get c k with Some v => v | None => 0%Z end.

(** [Counter(a) + Counter(b)] of [collections]: the counts of [a] are added
    to those of [b] and kept when the sum is positive, then the positive
    counts of the keys that only [b] has are appended. *)
Definition counter_add (a b : dict string Z) : dict string Z :=
  let result :=
    fold_left
      (fun res ec =>
         let newcount := (snd ec + counter_get b (fst ec))%Z in
         if (0 <? newcount)%Z then dict_set res (fst ec) newcount else res)
      a [] in
  fold_left
    (fun res ec =>
       if negb (dict_mem a (fst ec)) && (0 <? snd ec)%Z
       then dict_set res (fst ec) (snd ec) else res)
    b result.

Definition is_primary (read : alignment) : bool :=
  negb (is_secondary read) && negb (is_supplementary read).

Fixpoint char_align_stats_primary (reads : list alignment) (acc : dict string Z)
  : result (dict string Z) :=
  match reads with
  | [] => Ok acc
  | read :: rest =>
      if is_primary read then
        read_align_stats <- get_align_stats (cigar_stats read) ;;
        char_align_stats_primary rest (counter_add acc read_align_stats)
      else char_align_stats_primary rest acc
  end.

Definition normalize_counts (c : dict string Z) : result (dict string R) :=
  let n_char := py_sumZ (values c) in
  mapM (fun cv => q <- true_div (snd cv) n_char ;; Ok (fst cv, q)) c.

Definition get_char_align_probabilites (samfile : list alignment)
  : result (dict string R) :=
  c <- char_align_stats_primary samfile [] ;;
  normalize_counts c.

(** ** LikelihoodMatrixBuilder: [compute_log_L_rgs], [log_L_rgs_dict] *)

Definition scored_chars : list string := ["M"; "X"; "I"; "D"; "C"].

(** The loop of [compute_log_L_rgs]; [Ok None] is the Python [return None]. *)
Fixpoint compute_log_L_rgs_from (p_char : dict string R) (stats : dict string Z)
    (chars : list string) (value : R) : result (option R) :=
  match chars with
  | [] => Ok (Some value)
  | char :: rest =>
      if negb (dict_mem p_char char) then
        n <- getitem stats char ;;
        if (0 <? n)%Z then Ok None
        else compute_log_L_rgs_from p_char stats rest value
      else
        p <- getitem p_char char ;;
        lg <- math_log p ;;
        n <- getitem stats char ;;
        compute_log_L_rgs_from p_char stats rest (value + lg * IZR n)
  end.

Definition compute_log_L_rgs (p_char : dict string R) (stats : dict string Z)
  : result (option R) :=
  compute_log_L_rgs_from p_char stats scored_chars 0.

(** [stored < val]; comparing a number with [None] raises [TypeError]. *)
Definition py_lt_opt (stored : R) (val : option R) : result bool :=
  match val with
  | Some v => Ok (Rltb stored v)
  | None => Err TypeError
  end.

Definition is_not_None {A : Type} (o : option A) : bool :=
  match o with Some _ => true | None => false end.

(** The condition of the [if] that guards the assignment:
    [(key not in log_L_rgs or log_L_rgs[key] < val) and val != None]. *)
Definition assign_guard (log_L_rgs : dict (string * string) R)
    (key : string * string) (val : option R) : result bool :=
  c <- (if negb (dict_mem log_L_rgs key) then Ok true
        else stored <- getitem log_L_rgs key ;; py_lt_opt stored val) ;;
  Ok (c && is_not_None val).

Definition log_L_rgs_step (p_char : dict string R)
    (log_L_rgs : dict (string * string) R) (a : alignment)
  : result (dict (string * string) R) :=
  match reference_name a with
  | None => Ok log_L_rgs
  | Some ref =>
      stats <- get_align_stats (cigar_stats a) ;;
      val <- compute_log_L_rgs p_char stats ;;
      g <- assign_guard log_L_rgs (query_name a, ref) val ;;
      match val with
      | Some v => if g then Ok (dict_set log_L_rgs (query_name a, ref) v)
                  else Ok log_L_rgs
      | None => Ok log_L_rgs
      end
  end.

Fixpoint log_L_rgs_from (p_char : dict string R) (samfile : list alignment)
    (log_L_rgs : dict (string * string) R) : result (dict (string * string) R) :=
  match samfile with
  | [] => Ok log_L_rgs
  | a :: rest =>
      m <- log_L_rgs_step p_char log_L_rgs a ;;
      log_L_rgs_from p_char rest m
  end.

Definition log_L_rgs_dict (samfile : list alignment) (p_char : dict string R)
  : result (dict (string * string) R) :=
  log_L_rgs_from p_char samfile [].

(** ** [unflatten] of a dictionary keyed by pairs *)

(** [flatten_dict.unflatten] on keys that are 2-tuples: the entries are
    visited in order and [d[(a, b)] = v] becomes [result[a][b] = v], the
    inner dictionary being created at the first entry of [a]. *)
Section Unflatten.
Context {A B V : Type} `{KeyEq A} `{KeyEq B}.

Definition nested_set (d : dict A (dict B V)) (a : A) (b : B) (v : V)
  : dict A (dict B V) :=
  match dict_get d a with
  | Some inner => dict_set d a (dict_set inner b v)
  | None => dict_set d a [(b, v)]
  end.

Definition unflatten (d : dict (A * B) V) : dict A (dict B V) :=
  fold_left (fun acc kv => nested_set acc (fst (fst kv)) (snd (fst kv)) (snd kv))
    d [].
End Unflatten.

(** ** EMEstimator: [EM_iterations] *)

Definition matrix := dict (string * string) R.
Definition abundance := dict string R.

(** The loop that fills [log_L_rns]. *)
Fixpoint log_L_rns_from (log_L_rgs : matrix) (f : abundance)
    (ks : list (string * string)) (log_L_rns : matrix) : result matrix :=
  match ks with
  | [] => Ok log_L_rns
  | (r, s) :: rest =>
      match dict_get f s with
      | Some fs =>
          if negb (Reqb fs 0) then
            l <- getitem log_L_rgs (r, s) ;;
            lg <- math_log fs ;;
            log_L_rns_from log_L_rgs f rest (dict_set log_L_rns (r, s) (l + lg))
          else log_L_rns_from log_L_rgs f rest log_L_rns
      | None => log_L_rns_from log_L_rgs f rest log_L_rns
      end
  end.

(** One pass of the loop body up to the update of [f]: the new abundance
    vector and the new total log-likelihood. *)
Definition EM_update (log_L_rgs : matrix) (f : abundance) : result (abundance * R) :=
  log_L_rns <- log_L_rns_from log_L_rgs f (keys log_L_rgs) [] ;;
  log_c <- mapM (fun rm => m <- py_max (values (snd rm)) ;; Ok (fst rm, - m))
                (unflatten log_L_rns) ;;
  L_rns_c <- mapM (fun kv => c <- getitem log_c (fst (fst kv)) ;;
                             Ok (fst kv, math_e_pow (snd kv + c)))
                  log_L_rns ;;
  let L_r_c := map (fun rm => (fst rm, py_sum (values (snd rm))))
                   (unflatten L_rns_c) in
  L_sgr_flat <- mapM (fun kv => w <- getitem L_r_c (fst (fst kv)) ;;
                                q <- float_div (snd kv) w ;;
                                Ok ((snd (fst kv), fst (fst kv)), q))
                     L_rns_c ;;
  let L_sgr := unflatten L_sgr_flat in
  let n_reads := List.length L_r_c in
  log_L_r <- mapM (fun rv => lg <- math_log (snd rv) ;;
                             c <- getitem log_c (fst rv) ;;
                             Ok (fst rv, lg - c))
                  L_r_c ;;
  let total_log_likelihood := py_sum (values log_L_r) in
  f' <- mapM (fun sm => q <- float_div (py_sum (values (snd sm))) (INR n_reads) ;;
                        Ok (fst sm, q))
             L_sgr ;;
  Ok (f', total_log_likelihood).

(** Loop state: [f], [total_log_likelihood] ([None] is [-math.inf]) and the
    totals printed so far, one per iteration. *)
Record EM_state : Type := {
  st_f : abundance;
  st_total : option R;
  st_out : list R
}.

(** [total - prev < c]; with [prev = -inf] the difference is [+inf]. *)
Definition diff_lt (total : R) (prev : option R) (c : R) : bool :=
  match prev with
  | None => false
  | Some p => Rltb (total - p) c
  end.

Definition f_sum_ok (f_sum : R) : bool :=
  Rleb (999 / 1000) f_sum && Rleb f_sum (10001 / 10000).

Inductive step : Type :=
| Continue (st : EM_state)
| Return (f : abundance) (out : list R)
| Raise (e : exn).

Definition EM_iteration (log_L_rgs : matrix) (st : EM_state) : step :=
  match EM_update log_L_rgs (st_f st) with
  | Err e => Raise e
  | Ok (f, total_log_likelihood) =>
      let prev_log_likelihood := st_total st in
      let out := (st_out st ++ [total_log_likelihood])%list in
      let f_sum := py_sum (values f) in
      if negb (f_sum_ok f_sum) then Raise ValueError_f_sum
      else if diff_lt total_log_likelihood prev_log_likelihood 0
      then Raise ValueError_decreased
      else if diff_lt total_log_likelihood prev_log_likelihood (1 / 100)
      then Return f out
      else Continue {| st_f := f; st_total := Some total_log_likelihood;
                       st_out := out |}
  end.

Inductive outcome : Type :=
| Returned (f : abundance) (out : list R)
| Raised (e : exn)
| Running (st : EM_state).

(** [while True] run for at most [fuel] iterations. *)
Fixpoint EM_loop (fuel : nat) (log_L_rgs : matrix) (st : EM_state) : outcome :=
  match fuel with
  | O => Running st
  | S fuel' =>
      match EM_iteration log_L_rgs st with
      | Continue st' => EM_loop fuel' log_L_rgs st'
      | Return f out => Returned f out
      | Raise e => Raised e
      end
  end.

Definition EM_init (db_ids : list string) : result EM_state :=
  let n_db := List.length db_ids in
  u <- true_div 1 (Z.of_nat n_db) ;;
  Ok {| st_f := dict_fromkeys db_ids u; st_total := None; st_out := [] |}.

Definition EM_iterations (fuel : nat) (log_L_rgs : matrix) (db_ids : list string)
  : outcome :=
  match EM_init db_ids with
  | Err e => Raised e
  | Ok st => EM_loop fuel log_L_rgs st
  end.

(** Loop-head states of a run. *)
Inductive EM_reach (log_L_rgs : matrix) (db_ids : list string) : EM_state -> Prop :=
| reach_init : forall st, EM_init db_ids = Ok st -> EM_reach log_L_rgs db_ids st
| reach_step : forall st st',
    EM_reach log_L_rgs db_ids st ->
    EM_iteration log_L_rgs st = Continue st' ->
    EM_reach log_L_rgs db_ids st'.

(** ** AbundanceReducer: [f_reduce] *)

Definition f_reduce (f : abundance) (threshold : R) : result abundance :=
  let f_dropped := filter (fun kv => Rltb threshold (snd kv)) f in
  let f_total := py_sum (values f_dropped) in
  mapM (fun kv => q <- float_div (snd kv) f_total ;; Ok (fst kv, q)) f_dropped.

(** ** Specification-level notions for the probability model *)

(** The categories of a converted tally. *)
Definition categories : list string :=
  ["M"; "I"; "D"; "N"; "S"; "H"; "P"; "="; "X"; "B"; "C"].

(** The converted tally of a record (empty when the conversion raises). *)
Definition tally_of (a : alignment) : dict string Z :=
  match get_align_stats (cigar_stats a) with
  | Ok st => st
  | Err _ => []
  end.

(** Sum of one category over the primary alignments. *)
Definition category_sum (k : string) (samfile : list alignment) : Z :=
  fold_right
    (fun a acc => if is_primary a then (counter_get (tally_of a) k + acc)%Z else acc)
    0%Z samfile.

(** Sum over all categories. *)
Definition total_sum (samfile : list alignment) : Z :=
  fold_right (fun k acc => (category_sum k samfile + acc)%Z) 0%Z categories.

(** Every primary record has a tally of at least 11 counts. *)
Definition well_shaped (samfile : list alignment) : Prop :=
  forall a, In a samfile -> is_primary a = true ->
            (11 <= List.length (cigar_stats a))%nat.

(** Every primary record converts to non-negative counts. *)
Definition nonneg_tallies (samfile : list alignment) : Prop :=
  forall a, In a samfile -> is_primary a = true ->
            Forall (fun v => (0 <= v)%Z) (values (tally_of a)).

(** Every stored count is positive. *)
Definition positive_counts (c : dict string Z) : Prop :=
  forall k v, dict_get c k = Some v -> (0 < v)%Z.

(** The comprehension [{char: val/n_char ...}] on positive counts. *)
Definition probabilities_of (c : dict string Z) : dict string R :=
  map (fun cv => (fst cv, IZR (snd cv) / IZR (py_sumZ (values c)))) c.


(** ** Sample inputs *)

Definition primary_record (q ref : string) (tally : list Z) : alignment :=
  {| query_name := q; reference_name := Some ref;
     is_secondary := false; is_supplementary := false; cigar_stats := tally |}.

Definition secondary_record (q ref : string) (tally : list Z) : alignment :=
  {| query_name := q; reference_name := Some ref;
     is_secondary := true; is_supplementary := false; cigar_stats := tally |}.

(** An unmapped read: no reference, an all-zero tally, no flag set. *)
Definition unmapped_record (q : string) : alignment :=
  {| query_name := q; reference_name := None;
     is_secondary := false; is_supplementary := false;
     cigar_stats := [0; 0; 0; 0; 0; 0; 0; 0; 0; 0; 0]%Z |}.

(** A file with secondary alignments only. *)
Definition sam_no_primary : list alignment :=
  [secondary_record "r1" "A" [10; 0; 0; 0; 0; 0; 0; 0; 0; 0; 0]%Z].

(** The tally of the conversion example, as the only record of a file. *)
Definition sam_one_primary : list alignment :=
  [primary_record "r1" "A" [90; 2; 1; 0; 5; 0; 0; 0; 0; 0; 5]%Z].

(** A file with unmapped reads only. *)
Definition sam_unmapped : list alignment := [unmapped_record "r1"].

(** Two primary alignments; the first carries no edit distance although it
    has two inserted bases, so that its substitution count is -2. *)
Definition sam_negative_substitution : list alignment :=
  [primary_record "r1" "A" [10; 2; 0; 0; 0; 0; 0; 0; 0; 0; 0]%Z;
   primary_record "r2" "A" [10; 0; 0; 0; 0; 0; 0; 0; 0; 0; 3]%Z].


(** ** Specification-level notions for the reducer *)

(** The entries strictly above the threshold, in order. *)
Definition kept (f : abundance) (threshold : R) : abundance :=
  filter (fun kv => Rltb threshold (snd kv)) f.

(** [{s: f_s / sum of kept}] over the kept entries. *)
Definition renormalized (f : abundance) (threshold : R) : abundance :=
  map (fun kv => (fst kv, snd kv / py_sum (values (kept f threshold))))
      (kept f threshold).

Definition f_all_small : abundance := [("A", 5 / 100000); ("B", 2 / 100000)].
Definition f_mixed : abundance := [("A", 7 / 10); ("B", 3 / 10); ("C", 5 / 100000)].


(** ** Specification-level notions for the likelihood matrix *)

(** The score of a record under a model: [Ok None] when unscorable. *)
Definition score (p_char : dict string R) (a : alignment) : result (option R) :=
  stats <- get_align_stats (cigar_stats a) ;;
  compute_log_L_rgs p_char stats.

(** The scores of the scorable records of one (read, reference) pair, in
    input order. *)
Fixpoint scores_of (p_char : dict string R) (key : string * string)
    (samfile : list alignment) : list R :=
  match samfile with
  | [] => []
  | a :: rest =>
      match reference_name a, score p_char a with
      | Some ref, Ok (Some v) =>
          if key_eq_dec (query_name a, ref) key
          then v :: scores_of p_char key rest
          else scores_of p_char key rest
      | _, _ => scores_of p_char key rest
      end
  end.

(** The stored score after a sequence of scores of one pair. *)
Definition best (stored : option R) (vs : list R) : option R :=
  fold_left (fun acc v => Some (match acc with None => v | Some s => Rmax s v end))
    vs stored.

(** Every stored probability is positive. *)
Definition positive_model (p_char : dict string R) : Prop :=
  forall k p, dict_get p_char k = Some p -> 0 < p.

(** A record with a positive count in a scored category that the model
    lacks. *)
Definition unscorable (p_char : dict string R) (a : alignment) : Prop :=
  exists char, In char scored_chars /\ dict_mem p_char char = false /\
               (0 < counter_get (tally_of a) char)%Z.

(** A model in which a match has probability exp(-1/10). *)
Definition p_match_only : dict string R := [("M", exp (- (1 / 10)))].

Definition sam_same_pair : list alignment :=
  [primary_record "r1" "A" [32; 0; 0; 0; 0; 0; 0; 0; 0; 0; 0]%Z;
   secondary_record "r1" "A" [29; 0; 0; 0; 0; 0; 0; 0; 0; 0; 0]%Z].

(** A model without substitutions, and a record whose substitution count
    is -2. *)
Definition p_match_insertion : dict string R := [("M", 12 / 14); ("I", 2 / 14)].

Definition sam_negative_absent : list alignment :=
  [primary_record "r1" "A" [10; 2; 0; 0; 0; 0; 0; 0; 0; 0; 0]%Z].

(** A scorable record followed by an unscorable record of the same pair
    (an insertion, which the model lacks). *)
Definition sam_unscorable_after : list alignment :=
  [primary_record "r1" "A" [32; 0; 0; 0; 0; 0; 0; 0; 0; 0; 0]%Z;
   secondary_record "r1" "A" [29; 2; 0; 0; 0; 0; 0; 0; 0; 0; 2]%Z].

(** The same two records in the other order. *)
Definition sam_unscorable_before : list alignment :=
  [secondary_record "r1" "A" [29; 2; 0; 0; 0; 0; 0; 0; 0; 0; 2]%Z;
   primary_record "r1" "A" [32; 0; 0; 0; 0; 0; 0; 0; 0; 0; 0]%Z].


(** ** Grouping, flat view of the EM iteration *)

Section Grouping.
Context {A : Type} `{KeyEq A}.

Definition key_eqb (x y : A) : bool := if key_eq_dec x y then true else false.

(** The distinct elements of a list in order of first occurrence: the
    order in which a dictionary gets its keys. *)
Definition distinct (l : list A) : list A :=
  fold_left (fun acc x => if in_dec key_eq_dec x acc then acc else acc ++ [x]) l [].

(** The elements with a given key. *)
Definition select {X : Type} (key : X -> A) (a : A) (l : list X) : list X :=
  filter (fun x => key_eqb (key x) a) l.
End Grouping.

Definition read_of (kv : string * string * R) : string := fst (fst kv).
Definition ref_of (kv : string * string * R) : string := snd (fst kv).

(** The inner dictionary of a first key component in [unflatten d]. *)
Definition group {A B V : Type} `{KeyEq A} (d : dict (A * B) V) (a : A) : dict B V :=
  map (fun kv => (snd (fst kv), snd kv)) (select (fun kv => fst (fst kv)) a d).

(** [f[s]] as a function, 0 outside of the keys. *)
Definition abundance_of (f : abundance) (s : string) : R :=
  match dict_get f s with Some v => v | None => 0 end.

(** The entries which pass the test [s in f and f[s] != 0]. *)
Definition active (f : abundance) (kv : string * string * R) : bool :=
  match dict_get f (ref_of kv) with
  | Some fs => negb (Reqb fs 0)
  | None => false
  end.

Section FlatIteration.
(** [J] stands for [log_L_rns]. *)
Variable J : matrix.

Definition reads : list string := distinct (map read_of J).
Definition refs : list string := distinct (map ref_of J).

Definition group_max (r : string) : R :=
  match values (group J r) with
  | [] => 0
  | x :: xs => fold_left Rmax xs x
  end.

(** [log_c[r]] *)
Definition c_of (r : string) : R := - group_max r.

(** [L_rns_c[(r,s)]] *)
Definition w_of (kv : string * string * R) : R := exp (snd kv + c_of (read_of kv)).

(** [L_r_c[r]] *)
Definition W_of (r : string) : R := py_sum (map w_of (select read_of r J)).

(** [L_sgr[s][r]] *)
Definition resp_of (kv : string * string * R) : R := w_of kv / W_of (read_of kv).

Definition f_next : abundance :=
  map (fun s => (s, py_sum (map resp_of (select ref_of s J))
                    / INR (List.length reads)))
      refs.

Definition total_of : R :=
  py_sum (map (fun r => ln (W_of r) - c_of r) reads).
End FlatIteration.

(** [log_L_rns] for a matrix and an abundance vector that is positive
    where it is used. *)
Definition joint (log_L_rgs : matrix) (f : abundance) : matrix :=
  map (fun kv => (fst kv, snd kv + ln (abundance_of f (ref_of kv))))
      (filter (active f) log_L_rgs).

Definition positive_abundance (f : abundance) : Prop :=
  forall s v, dict_get f s = Some v -> 0 < v.


(** ** Specification-level notions for a run *)

(** Some entry of the matrix refers to the database universe. *)
Definition has_db_entry (m : matrix) (db_ids : list string) : Prop :=
  exists kv, In kv m /\ In (ref_of kv) db_ids.

(** The abundance vector is positive, within the universe, and holds every
    reference of the universe that the matrix mentions. *)
Definition covers (m : matrix) (db_ids : list string) (f : abundance) : Prop :=
  positive_abundance f /\
  (forall s, In s (keys f) -> In s db_ids) /\
  (forall kv, In kv m -> In (ref_of kv) db_ids -> In (ref_of kv) (keys f)).

(** Every entry of the matrix has the same reference. *)
Definition single_reference (m : matrix) (s0 : string) : Prop :=
  forall kv, In kv m -> ref_of kv = s0.

Definition matrix_one_read : matrix := [(("r1", "A"), -1)].


(** ** The mixture likelihood behind the iteration *)

(** The entries of the matrix whose reference is in the universe. *)
Definition base (m : matrix) (db_ids : list string) : matrix :=
  filter (fun kv => if in_dec string_dec (ref_of kv) db_ids then true else false) m.

Section Likelihood.
(** [B] holds the entries [((r, s), log L(r|s))] in use, [phi] the
    abundances. *)
Variable B : matrix.
Variable phi : string -> R.

(** L(r|s) f(s) *)
Definition joint_weight (kv : string * string * R) : R :=
  exp (snd kv) * phi (ref_of kv).

(** The likelihood of read r: the sum over s of L(r|s) f(s). *)
Definition read_likelihood (r : string) : R :=
  py_sum (map joint_weight (select read_of r B)).

(** The total log-likelihood. *)
Definition objective : R :=
  py_sum (map (fun r => ln (read_likelihood r)) (reads B)).

(** P(s|r) *)
Definition posterior (kv : string * string * R) : R :=
  joint_weight kv / read_likelihood (read_of kv).

(** The updated abundance of s. *)
Definition em_map (s : string) : R :=
  py_sum (map posterior (select ref_of s B)) / INR (List.length (reads B)).
End Likelihood.


(** The abundances of the references in use sum to at most 1. *)
Definition mass_le (m : matrix) (db_ids : list string) (f : abundance) : Prop :=
  py_sum (map (abundance_of f) (refs (base m db_ids))) <= 1.

(** A state whose objective is finite follows an update. *)
Definition follows_update (m : matrix) (db_ids : list string) (st : EM_state) : Prop :=
  forall prev, st_total st = Some prev ->
  exists f_prev,
    covers m db_ids f_prev /\ mass_le m db_ids f_prev /\ base m db_ids <> [] /\
    st_f st = f_next (joint m f_prev) /\ prev = total_of (joint m f_prev).


(** The run on [matrix_one_read] and the universe ["A"]: its first
    abundance vector, its first total and the state after one iteration. *)
Definition one_read_f0 : abundance :=
  dict_fromkeys ["A"] (1 / INR (List.length ["A"])).

Definition one_read_t1 : R := total_of (joint matrix_one_read one_read_f0).

Definition one_read_t2 : R := total_of (joint matrix_one_read [("A", 1)]).

Definition one_read_st1 : EM_state :=
  {| st_f := [("A", 1)]; st_total := Some one_read_t1; st_out := [one_read_t1] |}.

(** A state that claims a previous objective above the one to come. *)
Definition one_read_decreasing : EM_state :=
  {| st_f := [("A", 1)]; st_total := Some (one_read_t2 + 1); st_out := [] |}.


(** A model of matches only, built from one primary alignment, and a
    secondary alignment with five reference-skip positions. *)
Definition p_all_match : dict string R := [("M", 10 / 10)].

Definition sam_ref_skip : list alignment :=
  [primary_record "r1" "A" [10; 0; 0; 0; 0; 0; 0; 0; 0; 0; 0]%Z;
   secondary_record "r1" "B" [10; 0; 0; 5; 0; 0; 0; 0; 0; 0; 0]%Z].


(** ** Taxonomy: [lineage_dict_from_tid] and the aggregation of
       [f_to_lineage_df] *)

#[export] Instance Z_KeyEq : KeyEq Z := Z.eq_dec.

(** [nodes_df]: the data frame of nodes.dmp indexed by [tax_id], one row
    per identifier, as a dictionary from [tax_id] to
    [(parent_tax_id, rank)]; [names_df]: the scientific names indexed by
    [tax_id], as a dictionary to [name_txt]. [df.loc[tid]] is a lookup that
    raises [KeyError]. *)
Definition nodes_df := dict string (string * string).
Definition names_df := dict string string.

Inductive lineage_outcome : Type :=
| LineageReturned (lineage_dict : dict string string)
| LineageRaised (e : exn)
| LineageRunning.

(** The loop [while (rank != 'superkingdom')], for at most [fuel]
    iterations; [rank] starts as [None]. *)
Fixpoint lineage_loop (fuel : nat) (nodes : nodes_df) (names : names_df)
    (tid : string) (rank : option string) (lineage_dict : dict string string)
  : lineage_outcome :=
  if match rank with
     | Some r => if string_dec r "superkingdom" then true else false
     | None => false
     end
  then LineageReturned lineage_dict
  else
    match fuel with
    | O => LineageRunning
    | S fuel' =>
        match getitem nodes tid with
        | Err e => LineageRaised e
        | Ok row =>
            let rank := snd row in
            match getitem names tid with
            | Err e => LineageRaised e
            | Ok name_txt =>
                lineage_loop fuel' nodes names (fst row) (Some rank)
                  (dict_set lineage_dict rank name_txt)
            end
        end
    end.

Definition lineage_dict_from_tid (fuel : nat) (tid : string) (nodes : nodes_df)
    (names : names_df) : lineage_outcome :=
  lineage_loop fuel nodes names tid None [].

(** The loop [f_tax[seq2taxid[seqid]] += v] of [f_to_lineage_df]. *)
Fixpoint f_tax_add (seq2taxid : dict string Z) (items : abundance)
    (f_tax : dict Z R) : result (dict Z R) :=
  match items with
  | [] => Ok f_tax
  | (seqid, v) :: rest =>
      t <- getitem seq2taxid seqid ;;
      cur <- getitem f_tax t ;;
      f_tax_add seq2taxid rest (dict_set f_tax t (cur + v))
  end.

(** The abundance per taxonomic identifier computed by [f_to_lineage_df]
    before it builds its data frame:
    [tax_ids = [seq2taxid[seqid] for seqid in f.keys()]],
    [f_tax = dict.fromkeys(tax_ids, 0)] and the loop above. *)
Definition f_tax_of (seq2taxid : dict string Z) (f : abundance) : result (dict Z R) :=
  tax_ids <- mapM (getitem seq2taxid) (keys f) ;;
  f_tax_add seq2taxid f (dict_fromkeys tax_ids 0).

(** ** The script of [main] *)

Inductive script_outcome : Type :=
| Done (f f_dropped : abundance)
| Failed (e : exn)
| Unfinished.

(** [p_char], [log_L_rgs], [f] and [f_dropped] of [main], from the records
    of the alignment file and the identifiers of the database. *)
Definition script (fuel : nat) (samfile : list alignment) (db_ids : list string)
  : script_outcome :=
  match get_char_align_probabilites samfile with
  | Err e => Failed e
  | Ok p_char =>
      match log_L_rgs_dict samfile p_char with
      | Err e => Failed e
      | Ok log_L_rgs =>
          match EM_iterations fuel log_L_rgs db_ids with
          | Raised e => Failed e
          | Running _ => Unfinished
          | Returned f _ =>
              match f_reduce f (1 / 10000) with
              | Err e => Failed e
              | Ok f_dropped => Done f f_dropped
              end
          end
      end
  end.


(** ** Specification-level notions for the further properties *)

(** The log-likelihood of a tally under a model: the sum, over the given
    categories that the model holds, of count times log probability. *)
Definition log_likelihood (p_char : dict string R) (stats : dict string Z)
    (chars : list string) : R :=
  py_sum (map (fun c => match dict_get p_char c with
                        | Some pc => ln pc * IZR (counter_get stats c)
                        | None => 0
                        end) chars).

(** Every stored probability lies in (0, 1]. *)
Definition probability_model (p_char : dict string R) : Prop :=
  forall k p, dict_get p_char k = Some p -> 0 < p <= 1.

(** Every mapped record converts to non-negative counts. *)
Definition nonneg_mapped (samfile : list alignment) : Prop :=
  forall a ref, In a samfile -> reference_name a = Some ref ->
                Forall (fun v => (0 <= v)%Z) (values (tally_of a)).

(** Every mapped record has a score or is unscorable: scoring it does not
    raise. *)
Definition scores_defined (p_char : dict string R) (samfile : list alignment) : Prop :=
  forall a ref, In a samfile -> reference_name a = Some ref ->
                exists o, score p_char a = Ok o.

(** An unscorable record comes after a scorable record of its pair. *)
Definition unscorable_after_scorable (p_char : dict string R)
    (samfile : list alignment) : Prop :=
  exists before a after ref,
    samfile = before ++ a :: after /\
    reference_name a = Some ref /\ score p_char a = Ok None /\
    scores_of p_char (query_name a, ref) before <> [].


(** Consecutive totals differ by at least [c]. *)
Fixpoint gains_ge (c : R) (l : list R) : Prop :=
  match l with
  | x :: tl =>
      match tl with
      | y :: _ => c <= y - x /\ gains_ge c tl
      | [] => True
      end
  | [] => True
  end.

(** The last printed total, if any. *)
Fixpoint last_total (out : list R) : option R :=
  match out with
  | [] => None
  | x :: tl =>
      match tl with
      | [] => Some x
      | _ :: _ => last_total tl
      end
  end.

(** One read aligned to a reference of the universe and to one outside. *)
Definition matrix_two_refs : matrix := [(("r1", "A"), -1); (("r1", "Z"), -2)].


(** The conditions for the script of [main] to reach its estimator with
    a usable matrix: the model is built, every mapped record has 11
    counts or more, no unscorable record follows a scorable one of its
    pair, and some scorable record is mapped to a reference of the
    database. *)
Definition script_conditions (samfile : list alignment) (db_ids : list string) : Prop :=
  exists p,
    get_char_align_probabilites samfile = Ok p /\
    (forall a ref, In a samfile -> reference_name a = Some ref ->
                   (11 <= List.length (cigar_stats a))%nat) /\
    ~ unscorable_after_scorable p samfile /\
    exists a ref v, In a samfile /\ reference_name a = Some ref /\
                    score p a = Ok (Some v) /\ In ref db_ids.

(** A mapped record counts at least one base in a scored category. *)
Definition has_scored_base (a : alignment) : Prop :=
  exists char, In char scored_chars /\ (0 < counter_get (tally_of a) char)%Z.


(** ** Specification-level notions for the taxonomy *)

(** [seq2taxid[seqid]] as a function, 0 outside of the keys. *)
Definition taxid_of (seq2taxid : dict string Z) (seqid : string) : Z :=
  match dict_get seq2taxid seqid with Some t => t | None => 0%Z end.

(** The abundance of the sequences of one taxonomic identifier. *)
Definition tax_abundance (seq2taxid : dict string Z) (f : abundance) (t : Z) : R :=
  py_sum (map snd (filter (fun kv => Z.eqb (taxid_of seq2taxid (fst kv)) t) f)).

(** The nodes from [tid] up to the first one of rank superkingdom, as the
    list of their (rank, name), every node being in both data frames. *)
Inductive lineage_path (nodes : nodes_df) (names : names_df)
  : string -> list (string * string) -> Prop :=
| path_top : forall tid parent name_txt,
    dict_get nodes tid = Some (parent, "superkingdom") ->
    dict_get names tid = Some name_txt ->
    lineage_path nodes names tid [("superkingdom", name_txt)]
| path_up : forall tid parent rank name_txt above,
    dict_get nodes tid = Some (parent, rank) ->
    rank <> "superkingdom" ->
    dict_get names tid = Some name_txt ->
    lineage_path nodes names parent above ->
    lineage_path nodes names tid ((rank, name_txt) :: above).

(** Three sequences, two of one taxon. *)
Definition seq2taxid_sample : dict string Z := [("A", 1%Z); ("B", 1%Z); ("C", 2%Z)].

(** A species under a genus under a superkingdom, and the root of the
    taxonomy, which is its own parent. *)
Definition nodes_sample : nodes_df :=
  [("562", ("561", "species")); ("561", ("2", "genus"));
   ("2", ("131567", "superkingdom")); ("1", ("1", "no rank"))].

Definition names_sample : names_df :=
  [("562", "Escherichia coli"); ("561", "Escherichia"); ("2", "Bacteria");
   ("1", "root")].


(** The model built from a file whose primary records hold 32 matches and
    nothing else. *)
Definition p_32_matches : dict string R := [("M", 32 / 32)].


(** * Properties *)


(** ** Dictionaries *)

Section DictFacts.
Context {K V : Type} `{KeyEq K}.
Implicit Types (d : dict K V) (k : K) (v : V).

Lemma dict_get_None d k : dict_get d k = None <-> ~ In k (keys d).
Proof.
  induction d as [| [k' v'] d IH]; simpl.
  - tauto.
  - destruct (key_eq_dec k k') as [-> | Hne].
    + split; [discriminate | intros Hn; exfalso; apply Hn; now left].
    + rewrite IH. split; intros Hn; [intros [E | Hin] |]; try congruence; tauto.
Qed.

Lemma dict_get_Some_In d k v : dict_get d k = Some v -> In (k, v) d.
Proof.
  induction d as [| [k' v'] d IH]; simpl; [discriminate |].
  destruct (key_eq_dec k k') as [-> | Hne].
  - intros [= ->]. now left.
  - intros Hg. right. now apply IH.
Qed.

Lemma dict_get_In d k v : dict_wf d -> In (k, v) d -> dict_get d k = Some v.
Proof.
  unfold dict_wf.
  induction d as [| [k' v'] d IH]; simpl; [tauto |].
  intros Hnd [E | Hin].
  - injection E as -> ->. destruct (key_eq_dec k k); congruence.
  - inversion Hnd as [| ? ? Hnotin Hnd']; subst.
    destruct (key_eq_dec k k') as [-> | Hne]; [| now apply IH].
    exfalso. apply Hnotin. change k' with (fst (k', v)). now apply in_map.
Qed.

Lemma dict_mem_true d k : dict_mem d k = true <-> In k (keys d).
Proof.
  unfold dict_mem. destruct (dict_get d k) as [v |] eqn:E.
  - split; [intros _ | reflexivity].
    apply dict_get_Some_In in E. change k with (fst (k, v)). now apply in_map.
  - apply dict_get_None in E. split; [discriminate | tauto].
Qed.

Lemma dict_mem_false d k : dict_mem d k = false <-> ~ In k (keys d).
Proof.
  rewrite <- dict_mem_true. destruct (dict_mem d k); split; congruence.
Qed.

Lemma dict_get_set_same d k v : dict_get (dict_set d k v) k = Some v.
Proof.
  induction d as [| [k' v'] d IH]; simpl.
  - destruct (key_eq_dec k k); congruence.
  - destruct (key_eq_dec k k') as [-> | Hne]; simpl.
    + destruct (key_eq_dec k' k'); congruence.
    + destruct (key_eq_dec k k'); congruence.
Qed.

Lemma dict_get_set_other d k k' v :
  k <> k' -> dict_get (dict_set d k v) k' = dict_get d k'.
Proof.
  intros Hne.
  induction d as [| [k0 v0] d IH]; simpl.
  - destruct (key_eq_dec k' k); congruence.
  - destruct (key_eq_dec k k0) as [-> | Hne0]; simpl.
    + destruct (key_eq_dec k' k0); congruence.
    + destruct (key_eq_dec k' k0); congruence.
Qed.

Lemma dict_set_absent d k v : dict_get d k = None -> dict_set d k v = d ++ [(k, v)].
Proof.
  induction d as [| [k' v'] d IH]; simpl; [reflexivity |].
  destruct (key_eq_dec k k'); [discriminate |].
  intros Hg. now rewrite IH.
Qed.

Lemma keys_dict_set_present d k v : In k (keys d) -> keys (dict_set d k v) = keys d.
Proof.
  induction d as [| [k' v'] d IH]; simpl; [tauto |].
  intros Hin. destruct (key_eq_dec k k') as [-> | Hne]; simpl; [reflexivity |].
  f_equal. apply IH. destruct Hin; congruence.
Qed.

Lemma in_keys_dict_set d k v k' :
  In k' (keys (dict_set d k v)) <-> k' = k \/ In k' (keys d).
Proof.
  destruct (dict_get d k) as [v0 |] eqn:E.
  - assert (Hin : In k (keys d)).
    { apply dict_get_Some_In in E. change k with (fst (k, v0)). now apply in_map. }
    rewrite keys_dict_set_present by assumption.
    split; [tauto | intros [-> | ?]; assumption].
  - rewrite dict_set_absent by assumption.
    unfold keys. rewrite map_app, in_app_iff. simpl.
    split; [intros [? | [? | []]] | intros [? | ?]]; auto.
Qed.

Lemma dict_wf_nil : dict_wf (@nil (K * V)).
Proof. constructor. Qed.

Lemma dict_wf_set d k v : dict_wf d -> dict_wf (dict_set d k v).
Proof.
  unfold dict_wf.
  destruct (dict_get d k) as [v0 |] eqn:E.
  - apply dict_get_Some_In in E.
    rewrite keys_dict_set_present; [tauto |].
    change k with (fst (k, v0)). now apply in_map.
  - rewrite dict_set_absent by assumption.
    intros Hnd. unfold keys. rewrite map_app. simpl.
    apply NoDup_app; [assumption | repeat constructor; simpl; tauto |].
    intros x Hx [<- | []]. apply dict_get_None in E. contradiction.
Qed.
End DictFacts.

(** ** Tally conversion *)

(** C9. For every raw tally of 11 counts in canonical order the converter
    returns substitution = edit_distance - insertion - deletion,
    match' = match - substitution, clip = hard_clip + soft_clip, with
    insertion and deletion unchanged; the tally [90,2,1,0,5,0,0,0,0,0,5]
    gives substitution 2, match' 88 and clip 5. *)
Theorem get_align_stats_derived :
  (forall m i d n s h p e x b nm : Z,
      exists st,
        get_align_stats [m; i; d; n; s; h; p; e; x; b; nm] = Ok st /\
        dict_get st "X" = Some (nm - i - d)%Z /\
        dict_get st "M" = Some (m - (nm - i - d))%Z /\
        dict_get st "C" = Some (s + h)%Z /\
        dict_get st "I" = Some i /\
        dict_get st "D" = Some d /\
        dict_get st "NM" = None) /\
  (exists st,
      get_align_stats [90; 2; 1; 0; 5; 0; 0; 0; 0; 0; 5]%Z = Ok st /\
      dict_get st "X" = Some 2%Z /\
      dict_get st "M" = Some 88%Z /\
      dict_get st "C" = Some 5%Z).
Proof.
  split.
  - intros m i d n s h p e x b nm.
    eexists. split; [reflexivity |].
    cbn. repeat split; try reflexivity.
    f_equal. lia.
  - eexists. split; [reflexivity |]. cbn. repeat split.
Qed.

Lemma get_align_stats_long (m i d n s h p e x b nm : Z) (rest : list Z) :
  get_align_stats (m :: i :: d :: n :: s :: h :: p :: e :: x :: b :: nm :: rest) =
  Ok [("M", (m - (nm - i - d))%Z); ("I", i); ("D", d); ("N", n); ("S", s);
      ("H", h); ("P", p); ("=", e); ("X", (nm - i - d)%Z); ("B", b);
      ("C", (h + s)%Z)].
Proof. reflexivity. Qed.

Lemma get_align_stats_shape (l : list Z) :
  (11 <= List.length l)%nat ->
  exists m i d n s h p e x b c,
    get_align_stats l =
    Ok [("M", m); ("I", i); ("D", d); ("N", n); ("S", s);
        ("H", h); ("P", p); ("=", e); ("X", x); ("B", b); ("C", c)].
Proof.
  intros Hlen.
  do 11 (destruct l as [| ? l]; [simpl in Hlen; lia |]).
  rewrite get_align_stats_long. repeat eexists.
Qed.

Lemma get_align_stats_short (l : list Z) :
  (List.length l < 11)%nat -> get_align_stats l = Err KeyError.
Proof.
  intros Hlen.
  do 11 (destruct l as [| ? l]; [reflexivity |]).
  simpl in Hlen. lia.
Qed.

(** ** Monadic maps and sums *)

Lemma mapM_ok {A B : Type} (g : A -> result B) (h : A -> B) (l : list A) :
  (forall a, In a l -> g a = Ok (h a)) -> mapM g l = Ok (map h l).
Proof.
  induction l as [| a l IH]; simpl; intros Hg; [reflexivity |].
  rewrite Hg by now left. simpl. rewrite IH by (intros; apply Hg; now right).
  reflexivity.
Qed.

Lemma py_sumZ_from (l : list Z) (a : Z) :
  fold_left Z.add l a = (a + py_sumZ l)%Z.
Proof.
  unfold py_sumZ. revert a.
  induction l as [| x l IH]; intros a; simpl; [lia |].
  rewrite IH, (IH x). lia.
Qed.

Lemma py_sumZ_cons (x : Z) (l : list Z) : py_sumZ (x :: l) = (x + py_sumZ l)%Z.
Proof. unfold py_sumZ at 1. simpl. now rewrite py_sumZ_from. Qed.

Lemma py_sum_from (l : list R) (a : R) : fold_left Rplus l a = a + py_sum l.
Proof.
  unfold py_sum. revert a.
  induction l as [| x l IH]; intros a; simpl; [lra |].
  rewrite IH, (IH (0 + x)). lra.
Qed.

Lemma py_sum_nil : py_sum [] = 0.
Proof. reflexivity. Qed.

Lemma py_sum_cons (x : R) (l : list R) : py_sum (x :: l) = x + py_sum l.
Proof. unfold py_sum at 1. simpl. rewrite py_sum_from. lra. Qed.

Lemma py_sum_app (l1 l2 : list R) : py_sum (l1 ++ l2) = py_sum l1 + py_sum l2.
Proof.
  induction l1 as [| x l1 IH]; simpl.
  - rewrite py_sum_nil. lra.
  - rewrite !py_sum_cons, IH. lra.
Qed.


Lemma py_sum_map_plus {X : Type} (u v : X -> R) (l : list X) :
  py_sum (map (fun x => u x + v x) l) = py_sum (map u l) + py_sum (map v l).
Proof.
  induction l as [| x l IH]; simpl.
  - rewrite py_sum_nil. lra.
  - rewrite !py_sum_cons, IH. lra.
Qed.

Lemma py_sum_map_ext {X : Type} (u v : X -> R) (l : list X) :
  (forall x, In x l -> u x = v x) -> py_sum (map u l) = py_sum (map v l).
Proof. intros Huv. f_equal. now apply map_ext_in. Qed.

Lemma py_sum_map_scal {X : Type} (u : X -> R) (c : R) (l : list X) :
  py_sum (map (fun x => u x * c) l) = py_sum (map u l) * c.
Proof.
  induction l as [| x l IH]; simpl.
  - rewrite py_sum_nil. lra.
  - rewrite !py_sum_cons, IH. lra.
Qed.

Lemma py_sum_map_const {X : Type} (c : R) (l : list X) :
  py_sum (map (fun _ => c) l) = INR (List.length l) * c.
Proof.
  induction l as [| x l IH].
  - simpl. rewrite py_sum_nil. lra.
  - cbn [map]. rewrite py_sum_cons, IH.
    change (List.length (x :: l)) with (S (List.length l)). rewrite S_INR. lra.
Qed.

Lemma py_sum_map_le {X : Type} (u v : X -> R) (l : list X) :
  (forall x, In x l -> u x <= v x) -> py_sum (map u l) <= py_sum (map v l).
Proof.
  induction l as [| x l IH]; intros Huv; simpl.
  - rewrite py_sum_nil. lra.
  - rewrite !py_sum_cons.
    specialize (Huv x (or_introl eq_refl)) as Hx.
    specialize (IH (fun y Hy => Huv y (or_intror Hy))). lra.
Qed.

Lemma py_sum_map_nonneg {X : Type} (u : X -> R) (l : list X) :
  (forall x, In x l -> 0 <= u x) -> 0 <= py_sum (map u l).
Proof.
  intros Hu.
  replace 0 with (py_sum (map (fun _ : X => 0) l)) at 1
    by (rewrite py_sum_map_const; lra).
  now apply py_sum_map_le.
Qed.

Lemma py_sum_map_pos {X : Type} (u : X -> R) (l : list X) :
  l <> [] -> (forall x, In x l -> 0 < u x) -> 0 < py_sum (map u l).
Proof.
  intros Hne Hu. destruct l as [| x l]; [congruence |].
  simpl. rewrite py_sum_cons.
  specialize (Hu x (or_introl eq_refl)) as Hx.
  assert (0 <= py_sum (map u l)); [| lra].
  apply py_sum_map_nonneg. intros y Hy. apply Rlt_le, Hu. now right.
Qed.

(** ** The probability model *)

Section CounterFacts.
Local Open Scope Z_scope.
Implicit Types (a b c : dict string Z) (k : string).

Lemma counter_get_Some c k v : dict_get c k = Some v -> counter_get c k = v.
Proof. unfold counter_get. now intros ->. Qed.

Lemma counter_get_absent c k : ~ In k (keys c) -> counter_get c k = 0.
Proof. intros Hn. apply dict_get_None in Hn. unfold counter_get. now rewrite Hn. Qed.

(** First loop of [Counter.__add__]. *)
Lemma counter_add_loop1 b (l res : dict string Z) k :
  dict_wf l ->
  dict_get
    (fold_left
       (fun res ec =>
          let newcount := snd ec + counter_get b (fst ec) in
          if 0 <? newcount then dict_set res (fst ec) newcount else res)
       l res) k =
  match dict_get l k with
  | Some count =>
      if 0 <? count + counter_get b k then Some (count + counter_get b k)
      else dict_get res k
  | None => dict_get res k
  end.
Proof.
  unfold dict_wf. revert res.
  induction l as [| [e c] l IH]; intros res Hnd; simpl; [reflexivity |].
  inversion Hnd as [| ? ? Hnotin Hnd']; subst.
  rewrite IH by assumption.
  destruct (key_eq_dec k e) as [-> | Hne].
  - apply dict_get_None in Hnotin. rewrite Hnotin.
    destruct (0 <? c + counter_get b e); [apply dict_get_set_same | reflexivity].
  - destruct (0 <? c + counter_get b e);
      [rewrite dict_get_set_other by congruence |]; reflexivity.
Qed.

(** Second loop of [Counter.__add__]. *)
Lemma counter_add_loop2 a (l res : dict string Z) k :
  dict_wf l ->
  dict_get
    (fold_left
       (fun res ec =>
          if negb (dict_mem a (fst ec)) && (0 <? snd ec)
          then dict_set res (fst ec) (snd ec) else res)
       l res) k =
  match dict_get l k with
  | Some count =>
      if negb (dict_mem a k) && (0 <? count) then Some count else dict_get res k
  | None => dict_get res k
  end.
Proof.
  unfold dict_wf. revert res.
  induction l as [| [e c] l IH]; intros res Hnd; simpl; [reflexivity |].
  inversion Hnd as [| ? ? Hnotin Hnd']; subst.
  rewrite IH by assumption.
  destruct (key_eq_dec k e) as [-> | Hne].
  - apply dict_get_None in Hnotin. rewrite Hnotin.
    destruct (negb (dict_mem a e) && (0 <? c));
      [apply dict_get_set_same | reflexivity].
  - destruct (negb (dict_mem a e) && (0 <? c));
      [rewrite dict_get_set_other by congruence |]; reflexivity.
Qed.

Lemma fold_dict_set_wf {A : Type} (g : dict string Z -> A -> dict string Z)
    (l : list A) (res : dict string Z) :
  (forall r x, dict_wf r -> dict_wf (g r x)) ->
  dict_wf res -> dict_wf (fold_left g l res).
Proof.
  intros Hg. revert res.
  induction l as [| x l IH]; intros res Hres; simpl; auto.
Qed.

Lemma counter_add_wf a b : dict_wf (counter_add a b).
Proof.
  unfold counter_add.
  apply fold_dict_set_wf.
  - intros r x Hr. destruct (_ && _); [now apply dict_wf_set | assumption].
  - apply fold_dict_set_wf; [| apply dict_wf_nil].
    intros r x Hr. cbv zeta. destruct (_ <? _); [now apply dict_wf_set | assumption].
Qed.

(** [Counter] addition keeps exactly the keys whose summed count is
    positive. *)
Lemma counter_add_get a b k :
  dict_wf a -> dict_wf b ->
  dict_get (counter_add a b) k =
  if 0 <? counter_get a k + counter_get b k
  then Some (counter_get a k + counter_get b k) else None.
Proof.
  intros Ha Hb. unfold counter_add.
  rewrite counter_add_loop2, counter_add_loop1 by assumption.
  unfold counter_get, dict_mem.
  destruct (dict_get a k) as [ca |]; destruct (dict_get b k) as [cb |]; simpl;
    reflexivity.
Qed.

Lemma counter_add_get_max a b k :
  dict_wf a -> dict_wf b ->
  counter_get (counter_add a b) k = Z.max 0 (counter_get a k + counter_get b k).
Proof.
  intros Ha Hb. unfold counter_get at 1.
  rewrite counter_add_get by assumption.
  destruct (0 <? _) eqn:E; [apply Z.ltb_lt in E | apply Z.ltb_ge in E]; lia.
Qed.

Lemma counter_add_pos a b k v :
  dict_wf a -> dict_wf b -> dict_get (counter_add a b) k = Some v -> 0 < v.
Proof.
  intros Ha Hb. rewrite counter_add_get by assumption.
  destruct (0 <? _) eqn:E; [| discriminate].
  intros [= <-]. now apply Z.ltb_lt.
Qed.
End CounterFacts.

Lemma categories_NoDup : NoDup categories.
Proof.
  unfold categories.
  repeat (constructor; [simpl; intuition discriminate |]).
  constructor.
Qed.

Lemma tally_keys (l : list Z) (st : dict string Z) :
  get_align_stats l = Ok st -> keys st = categories.
Proof.
  destruct (le_lt_dec 11 (List.length l)) as [Hlen | Hlen].
  - destruct (get_align_stats_shape l Hlen)
      as (m & i & d & n & s & h & p & e & x & b & c & ->).
    now intros [= <-].
  - rewrite get_align_stats_short by assumption. discriminate.
Qed.

Lemma tally_wf (l : list Z) (st : dict string Z) :
  get_align_stats l = Ok st -> dict_wf st.
Proof.
  intros Hst. unfold dict_wf. rewrite (tally_keys _ _ Hst). apply categories_NoDup.
Qed.

Lemma tally_of_wf (a : alignment) : dict_wf (tally_of a).
Proof.
  unfold tally_of. destruct (get_align_stats (cigar_stats a)) eqn:E.
  - eapply tally_wf; eassumption.
  - apply dict_wf_nil.
Qed.

Lemma tally_of_keys (a : alignment) (k : string) :
  In k (keys (tally_of a)) -> In k categories.
Proof.
  unfold tally_of. destruct (get_align_stats (cigar_stats a)) eqn:E.
  - now rewrite (tally_keys _ _ E).
  - intros [].
Qed.

Section ModelFacts.
Local Open Scope Z_scope.

Lemma char_align_stats_primary_total (reads : list alignment) (acc : dict string Z) :
  well_shaped reads -> exists c, char_align_stats_primary reads acc = Ok c.
Proof.
  revert acc.
  induction reads as [| a reads IH]; intros acc Hws; simpl; [eauto |].
  assert (Hws' : well_shaped reads) by (intros x Hx; apply Hws; now right).
  destruct (is_primary a) eqn:Hp; [| now apply IH].
  destruct (get_align_stats_shape (cigar_stats a))
    as (m & i & d & n & s & h & p & e & x & b & c & ->).
  - apply Hws; [now left | assumption].
  - simpl. now apply IH.
Qed.

Lemma char_align_stats_primary_no_primary (reads : list alignment)
    (acc : dict string Z) :
  (forall a, In a reads -> is_primary a = false) ->
  char_align_stats_primary reads acc = Ok acc.
Proof.
  induction reads as [| a reads IH]; intros Hnp; simpl; [reflexivity |].
  rewrite (Hnp a) by now left. apply IH. intros x Hx. apply Hnp. now right.
Qed.

Lemma char_align_stats_primary_pos (reads : list alignment) (acc c : dict string Z) :
  dict_wf acc -> positive_counts acc ->
  char_align_stats_primary reads acc = Ok c ->
  dict_wf c /\ positive_counts c.
Proof.
  revert acc.
  induction reads as [| a reads IH]; intros acc Hwf Hpos; simpl.
  - intros [= <-]. now split.
  - destruct (is_primary a); [| now apply IH].
    destruct (get_align_stats (cigar_stats a)) as [st |] eqn:Hst; simpl;
      [| discriminate].
    apply IH.
    + apply counter_add_wf.
    + intros k v. apply counter_add_pos; [assumption |].
      eapply tally_wf; eassumption.
Qed.

Lemma tally_of_nonneg (reads : list alignment) (a : alignment) (k : string) :
  nonneg_tallies reads -> In a reads -> is_primary a = true ->
  0 <= counter_get (tally_of a) k.
Proof.
  intros Hnn Hin Hp. unfold counter_get.
  destruct (dict_get (tally_of a) k) as [v |] eqn:E; [| lia].
  specialize (Hnn a Hin Hp). rewrite Forall_forall in Hnn. apply Hnn.
  apply dict_get_Some_In in E. unfold values.
  change v with (snd (k, v)). now apply in_map.
Qed.

Lemma category_sum_nonneg (reads : list alignment) (k : string) :
  nonneg_tallies reads -> 0 <= category_sum k reads.
Proof.
  induction reads as [| a reads IH]; intros Hnn; simpl; [lia |].
  assert (Hnn' : nonneg_tallies reads) by (intros x Hx; apply Hnn; now right).
  specialize (IH Hnn').
  destruct (is_primary a) eqn:Hp; [| assumption].
  pose proof (tally_of_nonneg (a :: reads) a k Hnn (or_introl eq_refl) Hp). lia.
Qed.

(** On non-negative tallies the accumulated counter holds the category
    sums. *)
Lemma char_align_stats_primary_sum (reads : list alignment)
    (acc c : dict string Z) (k : string) :
  nonneg_tallies reads -> dict_wf acc -> 0 <= counter_get acc k ->
  char_align_stats_primary reads acc = Ok c ->
  counter_get c k = counter_get acc k + category_sum k reads.
Proof.
  revert acc.
  induction reads as [| a reads IH]; intros acc Hnn Hwf Hacc; simpl.
  - intros [= <-]. lia.
  - assert (Hnn' : nonneg_tallies reads) by (intros x Hx; apply Hnn; now right).
    destruct (is_primary a) eqn:Hp; [| now apply IH].
    pose proof (tally_of_nonneg (a :: reads) a k Hnn (or_introl eq_refl) Hp) as Hk.
    unfold tally_of in *.
    destruct (get_align_stats (cigar_stats a)) as [st |] eqn:Hst; simpl;
      [| discriminate].
    intros Hc.
    assert (Hst_wf : dict_wf st) by (eapply tally_wf; eassumption).
    rewrite (IH (counter_add acc st)); try assumption.
    + rewrite counter_add_get_max by assumption. lia.
    + apply counter_add_wf.
    + rewrite counter_add_get_max by assumption. lia.
Qed.

Lemma category_sum_outside (reads : list alignment) (k : string) :
  ~ In k categories -> category_sum k reads = 0.
Proof.
  intros Hk.
  induction reads as [| a reads IH]; simpl; [reflexivity |].
  destruct (is_primary a); [| assumption].
  rewrite counter_get_absent, IH; [reflexivity |].
  intros Hin. apply Hk. eapply tally_of_keys; eassumption.
Qed.

Lemma py_sumZ_pos (l : list Z) :
  l <> [] -> (forall v, In v l -> 0 < v) -> 0 < py_sumZ l.
Proof.
  intros Hne Hpos.
  assert (Hge : forall l', (forall v, In v l' -> 0 < v) -> 0 <= py_sumZ l').
  { induction l' as [| x l' IH]; intros Hp; [unfold py_sumZ; simpl; lia |].
    rewrite py_sumZ_cons.
    specialize (Hp x (or_introl eq_refl)) as Hx.
    specialize (IH (fun v Hv => Hp v (or_intror Hv))). lia. }
  destruct l as [| x l]; [congruence |].
  rewrite py_sumZ_cons.
  specialize (Hpos x (or_introl eq_refl)) as Hx.
  specialize (Hge l (fun v Hv => Hpos v (or_intror Hv))). lia.
Qed.

Lemma positive_counts_values (c : dict string Z) :
  dict_wf c -> positive_counts c -> forall v, In v (values c) -> 0 < v.
Proof.
  intros Hwf Hpos v Hv. unfold values in Hv.
  apply in_map_iff in Hv as ([k v'] & <- & Hin).
  apply (Hpos k). now apply dict_get_In.
Qed.
End ModelFacts.

Lemma normalize_counts_pos (c : dict string Z) :
  dict_wf c -> positive_counts c -> normalize_counts c = Ok (probabilities_of c).
Proof.
  intros Hwf Hpos. unfold normalize_counts, probabilities_of.
  apply mapM_ok. intros [k v] Hin. simpl.
  unfold true_div.
  destruct (Z.eq_dec (py_sumZ (values c)) 0) as [E | E]; [| reflexivity].
  exfalso.
  assert (0 < py_sumZ (values c))%Z; [| lia].
  apply py_sumZ_pos.
  - destruct c; [destruct Hin | discriminate].
  - now apply positive_counts_values.
Qed.

Lemma probabilities_of_get (c : dict string Z) (k : string) :
  dict_get (probabilities_of c) k =
  option_map (fun v => IZR v / IZR (py_sumZ (values c))) (dict_get c k).
Proof.
  unfold probabilities_of. generalize (py_sumZ (values c)) as n. intros n.
  induction c as [| [k' v'] c IH]; simpl; [reflexivity |].
  destruct (key_eq_dec k k'); [reflexivity | apply IH].
Qed.

Lemma probabilities_of_sum (c : dict string Z) :
  py_sumZ (values c) <> 0%Z -> py_sum (values (probabilities_of c)) = 1.
Proof.
  intros Hn. unfold probabilities_of.
  assert (Hgen : forall (n : Z) (l : dict string Z),
             py_sum (values (map (fun cv => (fst cv, IZR (snd cv) / IZR n)) l)) =
             IZR (py_sumZ (values l)) / IZR n).
  { intros n l. induction l as [| [k v] l IH]; simpl.
    - rewrite py_sum_nil. unfold py_sumZ. simpl. lra.
    - rewrite py_sum_cons, py_sumZ_cons, plus_IZR, IH. lra. }
  rewrite Hgen. apply Rinv_r. now apply not_0_IZR.
Qed.

Section CategorySums.
Local Open Scope Z_scope.

Lemma sum_over_ext (g g' : string -> Z) (ks : list string) :
  (forall k, In k ks -> g k = g' k) ->
  fold_right (fun k acc => g k + acc) 0 ks =
  fold_right (fun k acc => g' k + acc) 0 ks.
Proof.
  induction ks as [| k ks IH]; intros Hg; simpl; [reflexivity |].
  rewrite Hg by now left. rewrite IH; [reflexivity |].
  intros x Hx. apply Hg. now right.
Qed.

Lemma sum_over_override (g : string -> Z) (k0 : string) (v0 : Z) (ks : list string) :
  NoDup ks ->
  fold_right (fun k acc => (if key_eq_dec k k0 then v0 else g k) + acc) 0 ks =
  fold_right (fun k acc => g k + acc) 0 ks +
  (if in_dec string_dec k0 ks then v0 - g k0 else 0).
Proof.
  induction 1 as [| k ks Hnotin Hnd IH]; simpl; [reflexivity |].
  rewrite IH.
  destruct (key_eq_dec k k0) as [-> | Hne].
  - destruct (string_dec k0 k0); [| congruence].
    destruct (in_dec string_dec k0 ks); [contradiction | lia].
  - destruct (string_dec k k0); [congruence |].
    destruct (in_dec string_dec k0 ks); lia.
Qed.

Lemma counter_sum_keys (c : dict string Z) (ks : list string) :
  dict_wf c -> NoDup ks -> (forall k, In k (keys c) -> In k ks) ->
  fold_right (fun k acc => counter_get c k + acc) 0 ks = py_sumZ (values c).
Proof.
  intros Hwf Hnd. unfold dict_wf in Hwf.
  induction c as [| [k0 v0] c IH]; intros Hsub.
  - unfold py_sumZ. simpl. clear. induction ks; simpl; [reflexivity | assumption].
  - simpl in *. inversion Hwf as [| ? ? Hnotin Hwf']; subst.
    rewrite py_sumZ_cons, <- IH by auto.
    rewrite (sum_over_ext _ (fun k => if key_eq_dec k k0 then v0 else counter_get c k)).
    + rewrite sum_over_override by assumption.
      destruct (in_dec string_dec k0 ks) as [Hin | Hout].
      * rewrite (counter_get_absent c k0) by assumption. lia.
      * exfalso. apply Hout, Hsub. now left.
    + intros k _. unfold counter_get. simpl.
      destruct (key_eq_dec k k0); reflexivity.
Qed.
End CategorySums.

(** The model built from non-negative tallies stores, for each category
    of positive mass, its share of the total. *)
Lemma model_of_nonneg_tallies (samfile : list alignment) :
  well_shaped samfile -> nonneg_tallies samfile ->
  exists c,
    char_align_stats_primary samfile [] = Ok c /\
    dict_wf c /\ positive_counts c /\
    get_char_align_probabilites samfile = Ok (probabilities_of c) /\
    (forall k, counter_get c k = category_sum k samfile) /\
    py_sumZ (values c) = total_sum samfile.
Proof.
  intros Hws Hnn.
  destruct (char_align_stats_primary_total samfile [] Hws) as [c Hc].
  destruct (char_align_stats_primary_pos samfile [] c) as [Hwf Hpos];
    [apply dict_wf_nil | intros k v; discriminate | assumption |].
  assert (Hsum : forall k, counter_get c k = category_sum k samfile).
  { intros k.
    rewrite (char_align_stats_primary_sum samfile [] c k Hnn);
      [reflexivity | apply dict_wf_nil | unfold counter_get; simpl; lia | assumption]. }
  exists c. repeat split; try assumption.
  - unfold get_char_align_probabilites. rewrite Hc. simpl.
    now apply normalize_counts_pos.
  - unfold total_sum.
    rewrite <- (counter_sum_keys c categories Hwf categories_NoDup).
    + apply sum_over_ext. intros k _. apply Hsum.
    + intros k Hk.
      destruct (in_dec string_dec k categories) as [Hin | Hout]; [assumption |].
      exfalso.
      apply dict_mem_true in Hk. unfold dict_mem in Hk.
      destruct (dict_get c k) as [v |] eqn:E; [| discriminate].
      pose proof (Hpos k v E) as Hv.
      pose proof (Hsum k) as Hs.
      rewrite (counter_get_Some _ _ _ E), category_sum_outside in Hs by assumption.
      lia.
Qed.

(** A model is never built with a failure on tallies of 11 counts; its
    probabilities are positive and, unless it is empty, sum to 1. *)
Lemma model_always_built (samfile : list alignment) :
  well_shaped samfile ->
  exists c,
    char_align_stats_primary samfile [] = Ok c /\
    dict_wf c /\ positive_counts c /\
    get_char_align_probabilites samfile = Ok (probabilities_of c).
Proof.
  intros Hws.
  destruct (char_align_stats_primary_total samfile [] Hws) as [c Hc].
  destruct (char_align_stats_primary_pos samfile [] c) as [Hwf Hpos];
    [apply dict_wf_nil | intros k v; discriminate | assumption |].
  exists c. repeat split; try assumption.
  unfold get_char_align_probabilites. rewrite Hc. simpl.
  now apply normalize_counts_pos.
Qed.

(** C6 (as stated, refuted). A file without any primary alignment does not
    make the model builder fail: it returns the empty model. *)
Lemma model_without_primary_is_empty :
  (forall a, In a sam_no_primary -> is_primary a = false) /\
  get_char_align_probabilites sam_no_primary = Ok [].
Proof.
  split; [| reflexivity].
  intros a [<- | []]. reflexivity.
Qed.

(** C6 (amended). On records whose tallies have 11 counts the model
    builder never fails; when the input holds no primary alignment it
    returns the empty mapping. *)
Theorem get_char_align_probabilites_total (samfile : list alignment) :
  well_shaped samfile ->
  exists model,
    get_char_align_probabilites samfile = Ok model /\
    ((forall a, In a samfile -> is_primary a = false) -> model = []).
Proof.
  intros Hws.
  destruct (model_always_built samfile Hws) as (c & Hc & _ & _ & Hmodel).
  exists (probabilities_of c). split; [assumption |].
  intros Hnp.
  rewrite char_align_stats_primary_no_primary in Hc by assumption.
  now injection Hc as <-.
Qed.

Lemma get_char_align_probabilites_total_witness :
  exists model,
    get_char_align_probabilites sam_no_primary = Ok model /\
    ((forall a, In a sam_no_primary -> is_primary a = false) -> model = []).
Proof.
  apply (get_char_align_probabilites_total sam_no_primary).
  intros a [<- | []] Hp. simpl. lia.
Defined.

(** C8 (as stated, refuted). A corpus of unmapped reads is not empty, yet
    its model is empty and its probabilities sum to 0; and with a negative
    substitution count the stored probability of a category is not its
    category sum over the total sum. *)
Lemma model_counterexample :
  (sam_unmapped <> [] /\
   (forall a, In a sam_unmapped -> is_primary a = true) /\
   get_char_align_probabilites sam_unmapped = Ok [] /\
   py_sum (values (@nil (string * R))) <> 1) /\
  (exists model,
      get_char_align_probabilites sam_negative_substitution = Ok model /\
      dict_get model "X" = Some (3 / 24) /\
      category_sum "X" sam_negative_substitution = 1%Z /\
      total_sum sam_negative_substitution = 22%Z /\
      3 / 24 <> IZR 1 / IZR 22).
Proof.
  split.
  - repeat split.
    + discriminate.
    + intros a [<- | []]. reflexivity.
    + unfold py_sum. simpl. lra.
  - eexists. split; [reflexivity |].
    repeat split.
    lra.
Qed.

(** C8 (amended). For every corpus of primary-alignment tallies whose
    converted counts are non-negative and not all zero, the model maps each
    category of positive mass to category_sum / total_sum; every stored
    probability is strictly positive, the stored probabilities sum to 1 (so
    within 1e-9 of it), and categories of zero mass are absent. *)
Theorem model_probabilities (samfile : list alignment) :
  well_shaped samfile -> nonneg_tallies samfile -> (0 < total_sum samfile)%Z ->
  exists model,
    get_char_align_probabilites samfile = Ok model /\
    (forall k, (0 < category_sum k samfile)%Z ->
               dict_get model k =
               Some (IZR (category_sum k samfile) / IZR (total_sum samfile))) /\
    (forall k p, dict_get model k = Some p -> 0 < p) /\
    py_sum (values model) = 1 /\
    Rabs (py_sum (values model) - 1) <= 1 / 1000000000 /\
    (forall k, category_sum k samfile = 0%Z -> dict_get model k = None).
Proof.
  intros Hws Hnn Htot.
  destruct (model_of_nonneg_tallies samfile Hws Hnn)
    as (c & Hc & Hwf & Hpos & Hmodel & Hsum & Hn).
  assert (Hget : forall k, dict_get c k =
                           if (0 <? category_sum k samfile)%Z
                           then Some (category_sum k samfile) else None).
  { intros k. specialize (Hsum k). unfold counter_get in Hsum.
    destruct (dict_get c k) as [v |] eqn:E.
    - pose proof (Hpos k v E). subst v.
      destruct (0 <? category_sum k samfile)%Z eqn:El; [reflexivity |].
      apply Z.ltb_ge in El. lia.
    - rewrite <- Hsum. reflexivity. }
  assert (Hone : py_sum (values (probabilities_of c)) = 1).
  { apply probabilities_of_sum. lia. }
  exists (probabilities_of c). repeat split.
  - assumption.
  - intros k Hk. rewrite probabilities_of_get, Hget, Hn.
    apply Z.ltb_lt in Hk. now rewrite Hk.
  - intros k p. rewrite probabilities_of_get.
    destruct (dict_get c k) as [v |] eqn:E; simpl; [| discriminate].
    intros [= <-]. rewrite Hn.
    apply Rdiv_lt_0_compat; apply IZR_lt; [apply (Hpos k v E) | assumption].
  - assumption.
  - rewrite Hone. replace (1 - 1) with 0 by lra. rewrite Rabs_R0. lra.
  - intros k Hk. rewrite probabilities_of_get, Hget, Hk. reflexivity.
Qed.

Lemma model_probabilities_witness :
  exists model,
    get_char_align_probabilites sam_one_primary = Ok model /\
    (forall k, (0 < category_sum k sam_one_primary)%Z ->
               dict_get model k =
               Some (IZR (category_sum k sam_one_primary)
                     / IZR (total_sum sam_one_primary))) /\
    (forall k p, dict_get model k = Some p -> 0 < p) /\
    py_sum (values model) = 1 /\
    Rabs (py_sum (values model) - 1) <= 1 / 1000000000 /\
    (forall k, category_sum k sam_one_primary = 0%Z -> dict_get model k = None).
Proof.
  apply (model_probabilities sam_one_primary).
  - intros a [<- | []] _. simpl. lia.
  - intros a [<- | []] _. vm_compute. repeat constructor; discriminate.
  - reflexivity.
Defined.

(** ** Comparisons on reals *)

Lemma Rltb_true (x y : R) : x < y -> Rltb x y = true.
Proof. intros Hlt. unfold Rltb. destruct (Rlt_dec x y); [reflexivity | contradiction]. Qed.

Lemma Rltb_false (x y : R) : y <= x -> Rltb x y = false.
Proof. intros Hle. unfold Rltb. destruct (Rlt_dec x y); [lra | reflexivity]. Qed.

Lemma Rltb_spec (x y : R) : Rltb x y = true <-> x < y.
Proof. unfold Rltb. destruct (Rlt_dec x y); split; intros; congruence || assumption. Qed.

Lemma Rleb_true (x y : R) : x <= y -> Rleb x y = true.
Proof. intros Hle. unfold Rleb. destruct (Rle_dec x y); [reflexivity | contradiction]. Qed.

Lemma Rleb_false (x y : R) : y < x -> Rleb x y = false.
Proof. intros Hlt. unfold Rleb. destruct (Rle_dec x y); [lra | reflexivity]. Qed.

Lemma Reqb_true (x y : R) : x = y -> Reqb x y = true.
Proof. intros E. unfold Reqb. destruct (Req_dec_T x y); [reflexivity | contradiction]. Qed.

Lemma Reqb_false (x y : R) : x <> y -> Reqb x y = false.
Proof. intros E. unfold Reqb. destruct (Req_dec_T x y); [contradiction | reflexivity]. Qed.

Lemma float_div_ok (x y : R) : y <> 0 -> float_div x y = Ok (x / y).
Proof. intros Hy. unfold float_div. destruct (Req_dec_T y 0); [contradiction | reflexivity]. Qed.

Lemma float_div_zero (x : R) : float_div x 0 = Err ZeroDivisionError.
Proof. unfold float_div. destruct (Req_dec_T 0 0); [reflexivity | congruence]. Qed.

Lemma math_log_ok (x : R) : 0 < x -> math_log x = Ok (ln x).
Proof. intros Hx. unfold math_log. destruct (Rlt_dec 0 x); [reflexivity | contradiction]. Qed.

Lemma math_e_pow_exp (x : R) : math_e_pow x = exp x.
Proof. unfold math_e_pow, math_e, Rpower. rewrite ln_exp. f_equal. lra. Qed.

(** ** The reducer *)

Lemma f_reduce_unfold (f : abundance) (threshold : R) :
  f_reduce f threshold =
  mapM (fun kv => q <- float_div (snd kv) (py_sum (values (kept f threshold))) ;;
                  Ok (fst kv, q))
       (kept f threshold).
Proof. reflexivity. Qed.

Lemma kept_nil_iff (f : abundance) (threshold : R) :
  kept f threshold = [] <-> (forall kv, In kv f -> snd kv <= threshold).
Proof.
  unfold kept. induction f as [| [k v] f IH]; simpl.
  - split; [intros _ kv [] | reflexivity].
  - destruct (Rltb threshold v) eqn:E.
    + split; [discriminate |].
      intros Hall. apply Rltb_spec in E.
      specialize (Hall (k, v) (or_introl eq_refl)). simpl in Hall. lra.
    + rewrite IH. split.
      * intros Hall kv [<- | Hin]; [| now apply Hall].
        simpl. destruct (Rle_dec v threshold) as [Hle | Hgt]; [assumption |].
        rewrite Rltb_true in E by lra. discriminate.
      * intros Hall kv Hin. apply Hall. now right.
Qed.

(** C7 (as stated, refuted). With every entry at or below the threshold
    the reducer returns the empty mapping; it does not fail. *)
Lemma f_reduce_all_filtered :
  (forall kv, In kv f_all_small -> snd kv <= 1 / 10000) /\
  f_reduce f_all_small (1 / 10000) = Ok [].
Proof.
  assert (Hsmall : forall kv, In kv f_all_small -> snd kv <= 1 / 10000).
  { intros kv [<- | [<- | []]]; simpl; lra. }
  split; [assumption |].
  rewrite f_reduce_unfold.
  apply kept_nil_iff in Hsmall. rewrite Hsmall. reflexivity.
Qed.

(** C7 (amended). For every abundance vector f and threshold epsilon, the
    reducer returns exactly the mapping {s: f_s / (sum of kept values)} over
    the entries with f_s strictly greater than epsilon whenever that sum is
    not 0, which is the case of any non-negative epsilon; when every entry
    satisfies f_s <= epsilon it returns the empty mapping; it fails, on the
    division by zero, only when kept entries sum to 0. *)
Theorem f_reduce_spec (f : abundance) (threshold : R) :
  (0 <= threshold -> f_reduce f threshold = Ok (renormalized f threshold)) /\
  (py_sum (values (kept f threshold)) <> 0 ->
   f_reduce f threshold = Ok (renormalized f threshold) /\
   forall k q, In (k, q) (renormalized f threshold) <->
               exists v, In (k, v) f /\ threshold < v /\
                         q = v / py_sum (values (kept f threshold))) /\
  ((forall kv, In kv f -> snd kv <= threshold) -> f_reduce f threshold = Ok []) /\
  (kept f threshold <> [] -> py_sum (values (kept f threshold)) = 0 ->
   f_reduce f threshold = Err ZeroDivisionError).
Proof.
  split.
  { intros Hthr. rewrite f_reduce_unfold. unfold renormalized.
    apply mapM_ok. intros kv Hkv. rewrite float_div_ok; [reflexivity |].
    apply Rgt_not_eq. unfold values. apply py_sum_map_pos.
    - intros E. rewrite E in Hkv. destruct Hkv.
    - intros x Hx. unfold kept in Hx. apply filter_In in Hx as [_ Hx].
      apply Rltb_spec in Hx. lra. }
  repeat split.
  - rewrite f_reduce_unfold. unfold renormalized.
    apply mapM_ok. intros kv _. now rewrite float_div_ok.
  - unfold renormalized. intros Hin.
    apply in_map_iff in Hin as ([k' v] & [= <- <-] & Hk).
    unfold kept in Hk. apply filter_In in Hk as [Hf Hlt]. simpl in Hlt.
    exists v. repeat split; [assumption | now apply Rltb_spec].
  - intros (v & Hin & Hlt & ->). unfold renormalized.
    apply in_map_iff. exists (k, v). split; [reflexivity |].
    unfold kept. apply filter_In. split; [assumption |].
    simpl. now apply Rltb_true.
  - intros Hall. rewrite f_reduce_unfold.
    apply kept_nil_iff in Hall. rewrite Hall. reflexivity.
  - intros Hne Hzero. rewrite f_reduce_unfold, Hzero.
    destruct (kept f threshold) as [| kv l]; [congruence |].
    simpl. now rewrite float_div_zero.
Qed.

Lemma kept_f_mixed :
  kept f_mixed (1 / 10000) = [("A", 7 / 10); ("B", 3 / 10)].
Proof.
  unfold kept, f_mixed. simpl.
  rewrite !Rltb_true by lra. now rewrite Rltb_false by lra.
Qed.

Lemma f_reduce_spec_witness :
  f_reduce f_mixed (1 / 10000) = Ok (renormalized f_mixed (1 / 10000)) /\
  f_reduce f_mixed (1 / 10000) = Ok (renormalized f_mixed (1 / 10000)) /\
  f_reduce f_all_small (1 / 10000) = Ok [] /\
  f_reduce [("A", 0)] (-1) = Err ZeroDivisionError.
Proof.
  split; [| split; [| split]].
  - apply (proj1 (f_reduce_spec f_mixed (1 / 10000))). lra.
  - apply (proj1 (proj2 (f_reduce_spec f_mixed (1 / 10000)))).
    rewrite kept_f_mixed. unfold py_sum. simpl. lra.
  - apply (proj1 (proj2 (proj2 (f_reduce_spec f_all_small (1 / 10000))))).
    intros kv [<- | [<- | []]]; simpl; lra.
  - apply (proj2 (proj2 (proj2 (f_reduce_spec [("A", 0)] (-1))))).
    + unfold kept. simpl. rewrite Rltb_true by lra. discriminate.
    + unfold kept. simpl. rewrite Rltb_true by lra.
      unfold py_sum. simpl. lra.
Defined.

(** ** The likelihood matrix *)

Lemma log_L_rgs_step_score (p : dict string R) (m : matrix) (a : alignment)
    (ref : string) :
  reference_name a = Some ref ->
  log_L_rgs_step p m a =
  (val <- score p a ;;
   g <- assign_guard m (query_name a, ref) val ;;
   match val with
   | Some v => if g then Ok (dict_set m (query_name a, ref) v) else Ok m
   | None => Ok m
   end).
Proof.
  intros Href. unfold log_L_rgs_step, score. rewrite Href.
  destruct (get_align_stats (cigar_stats a)); reflexivity.
Qed.

Lemma assign_guard_absent (m : matrix) (key : string * string) (val : option R) :
  dict_get m key = None -> assign_guard m key val = Ok (is_not_None val).
Proof. intros Hg. unfold assign_guard, dict_mem. rewrite Hg. reflexivity. Qed.

Lemma assign_guard_present (m : matrix) (key : string * string) (stored v : R) :
  dict_get m key = Some stored ->
  assign_guard m key (Some v) = Ok (Rltb stored v).
Proof.
  intros Hg. unfold assign_guard, dict_mem, getitem. rewrite Hg. simpl.
  now rewrite andb_true_r.
Qed.

Lemma assign_guard_TypeError (m : matrix) (key : string * string) (stored : R) :
  dict_get m key = Some stored -> assign_guard m key None = Err TypeError.
Proof. intros Hg. unfold assign_guard, dict_mem, getitem. rewrite Hg. reflexivity. Qed.

(** What one record does to the matrix, by cases on its score. *)
Lemma log_L_rgs_step_scored (p : dict string R) (m : matrix) (a : alignment)
    (ref : string) (v : R) :
  reference_name a = Some ref -> score p a = Ok (Some v) ->
  log_L_rgs_step p m a =
  Ok (match dict_get m (query_name a, ref) with
      | None => dict_set m (query_name a, ref) v
      | Some stored =>
          if Rltb stored v then dict_set m (query_name a, ref) v else m
      end).
Proof.
  intros Href Hs. rewrite (log_L_rgs_step_score p m a ref Href), Hs. simpl.
  destruct (dict_get m (query_name a, ref)) as [stored |] eqn:E.
  - rewrite (assign_guard_present _ _ _ _ E). simpl.
    destruct (Rltb stored v); reflexivity.
  - rewrite (assign_guard_absent _ _ _ E). reflexivity.
Qed.

Lemma log_L_rgs_step_unscored (p : dict string R) (m : matrix) (a : alignment)
    (ref : string) :
  reference_name a = Some ref -> score p a = Ok None ->
  log_L_rgs_step p m a =
  match dict_get m (query_name a, ref) with
  | None => Ok m
  | Some _ => Err TypeError
  end.
Proof.
  intros Href Hs. rewrite (log_L_rgs_step_score p m a ref Href), Hs. simpl.
  destruct (dict_get m (query_name a, ref)) as [stored |] eqn:E.
  - now rewrite (assign_guard_TypeError _ _ _ E).
  - now rewrite (assign_guard_absent _ _ _ E).
Qed.

Lemma log_L_rgs_step_unmapped (p : dict string R) (m : matrix) (a : alignment) :
  reference_name a = None -> log_L_rgs_step p m a = Ok m.
Proof. intros Href. unfold log_L_rgs_step. now rewrite Href. Qed.

Lemma log_L_rgs_step_wf (p : dict string R) (m m' : matrix) (a : alignment) :
  dict_wf m -> log_L_rgs_step p m a = Ok m' -> dict_wf m'.
Proof.
  intros Hwf. unfold log_L_rgs_step.
  destruct (reference_name a) as [ref |]; [| now intros [= <-]].
  destruct (get_align_stats (cigar_stats a)); simpl; [| discriminate].
  destruct (compute_log_L_rgs p a0) as [val |]; simpl; [| discriminate].
  destruct (assign_guard m (query_name a, ref) val) as [g |]; simpl; [| discriminate].
  destruct val as [v |]; [destruct g |]; intros [= <-];
    try assumption. now apply dict_wf_set.
Qed.

Lemma log_L_rgs_from_wf (p : dict string R) (samfile : list alignment)
    (m m' : matrix) :
  dict_wf m -> log_L_rgs_from p samfile m = Ok m' -> dict_wf m'.
Proof.
  revert m. induction samfile as [| a rest IH]; intros m Hwf; simpl.
  - now intros [= <-].
  - destruct (log_L_rgs_step p m a) as [m1 |] eqn:E; simpl; [| discriminate].
    apply IH. eapply log_L_rgs_step_wf; eassumption.
Qed.

(** A matrix that has been built is a well-formed dictionary. *)
Lemma log_L_rgs_dict_wf (p : dict string R) (samfile : list alignment) (m : matrix) :
  log_L_rgs_dict samfile p = Ok m -> dict_wf m.
Proof. apply log_L_rgs_from_wf, dict_wf_nil. Qed.

Lemma best_step (stored : option R) (v : R) (vs : list R) :
  best stored (v :: vs) =
  best (Some (match stored with None => v | Some s => Rmax s v end)) vs.
Proof. reflexivity. Qed.

Lemma best_Some (s : R) (vs : list R) : best (Some s) vs = Some (fold_left Rmax vs s).
Proof.
  unfold best. revert s. induction vs as [| v vs IH]; intros s; simpl; [reflexivity |].
  apply IH.
Qed.

Lemma fold_Rmax_ge (vs : list R) (s : R) : s <= fold_left Rmax vs s.
Proof.
  revert s. induction vs as [| v vs IH]; intros s; simpl; [lra |].
  eapply Rle_trans; [apply (Rmax_l s v) | apply IH].
Qed.

Lemma fold_Rmax_upper (vs : list R) (s x : R) :
  In x (s :: vs) -> x <= fold_left Rmax vs s.
Proof.
  revert s. induction vs as [| v vs IH]; intros s; simpl.
  - intros [-> | []]. lra.
  - intros [-> | [-> | Hin]].
    + eapply Rle_trans; [apply (Rmax_l x v) | apply fold_Rmax_ge].
    + eapply Rle_trans; [apply (Rmax_r s x) | apply fold_Rmax_ge].
    + apply IH. simpl. now right.
Qed.

Lemma fold_Rmax_In (vs : list R) (s : R) : In (fold_left Rmax vs s) (s :: vs).
Proof.
  revert s. induction vs as [| v vs IH]; intros s; simpl; [now left |].
  destruct (IH (Rmax s v)) as [E | Hin].
  - rewrite <- E. unfold Rmax. destruct (Rle_dec s v); auto.
  - auto.
Qed.

(** The stored score of a pair after a run over the records. *)
Lemma log_L_rgs_from_best (p : dict string R) (samfile : list alignment)
    (m m' : matrix) (key : string * string) :
  log_L_rgs_from p samfile m = Ok m' ->
  dict_get m' key = best (dict_get m key) (scores_of p key samfile).
Proof.
  revert m. induction samfile as [| a rest IH]; intros m; simpl.
  - now intros [= <-].
  - destruct (log_L_rgs_step p m a) as [m1 |] eqn:Hstep; simpl; [| discriminate].
    intros Hrest. rewrite (IH m1 Hrest). clear IH Hrest.
    destruct (reference_name a) as [ref |] eqn:Href.
    2:{ rewrite log_L_rgs_step_unmapped in Hstep by assumption.
        now injection Hstep as <-. }
    destruct (score p a) as [[v |] | e] eqn:Hs.
    + rewrite (log_L_rgs_step_scored p m a ref v Href Hs) in Hstep.
      injection Hstep as <-.
      destruct (key_eq_dec (query_name a, ref) key) as [<- | Hne].
      * rewrite best_step. f_equal.
        destruct (dict_get m (query_name a, ref)) as [stored |] eqn:E.
        -- unfold Rmax, Rltb.
           destruct (Rlt_dec stored v); destruct (Rle_dec stored v); try lra.
           ++ now rewrite dict_get_set_same.
           ++ rewrite E. f_equal. lra.
           ++ now rewrite E.
        -- now rewrite dict_get_set_same.
      * f_equal.
        destruct (dict_get m (query_name a, ref)) as [stored |];
          [destruct (Rltb stored v) |];
          try reflexivity; now rewrite dict_get_set_other.
    + rewrite (log_L_rgs_step_unscored p m a ref Href Hs) in Hstep.
      destruct (dict_get m (query_name a, ref)); [discriminate |].
      now injection Hstep as <-.
    + rewrite (log_L_rgs_step_score p m a ref Href), Hs in Hstep. discriminate.
Qed.

(** When every record is unmapped or scorable the build completes. *)
Lemma log_L_rgs_from_total (p : dict string R) (samfile : list alignment) (m : matrix) :
  (forall a ref, In a samfile -> reference_name a = Some ref ->
                 exists v, score p a = Ok (Some v)) ->
  exists m', log_L_rgs_from p samfile m = Ok m'.
Proof.
  revert m. induction samfile as [| a rest IH]; intros m Hall; simpl; [eauto |].
  assert (Hstep : exists m1, log_L_rgs_step p m a = Ok m1).
  { destruct (reference_name a) as [ref |] eqn:Href.
    - destruct (Hall a ref (or_introl eq_refl) Href) as [v Hv].
      rewrite (log_L_rgs_step_scored p m a ref v Href Hv). eauto.
    - rewrite log_L_rgs_step_unmapped by assumption. eauto. }
  destruct Hstep as [m1 ->]. simpl.
  apply IH. intros x ref Hx. apply Hall. now right.
Qed.

Lemma log_L_rgs_from_app (p : dict string R) (l1 l2 : list alignment) (m : matrix) :
  log_L_rgs_from p (l1 ++ l2) m =
  (m1 <- log_L_rgs_from p l1 m ;; log_L_rgs_from p l2 m1).
Proof.
  revert m. induction l1 as [| a l1 IH]; intros m; simpl; [reflexivity |].
  destruct (log_L_rgs_step p m a) as [m1 |]; simpl; [apply IH | reflexivity].
Qed.

(** The loop of [compute_log_L_rgs] returns [None] as soon as a scored
    category with a positive count is missing from a positive model. *)
Lemma compute_log_L_rgs_from_None (p : dict string R) (st : dict string Z)
    (chars : list string) (value : R) :
  positive_model p ->
  (forall c, In c chars -> dict_get st c <> None) ->
  (exists c, In c chars /\ dict_mem p c = false /\ (0 < counter_get st c)%Z) ->
  compute_log_L_rgs_from p st chars value = Ok None.
Proof.
  intros Hpos. revert value.
  induction chars as [| char rest IH]; intros value Hkeys (c & Hin & Hmem & Hc).
  - destruct Hin.
  - simpl.
    assert (Hst : exists n, dict_get st char = Some n).
    { destruct (dict_get st char) as [n |] eqn:E; [eauto |].
      exfalso. now apply (Hkeys char (or_introl eq_refl)). }
    destruct Hst as [n Hn].
    assert (Hrest : forall c', In c' rest -> dict_get st c' <> None)
      by (intros c' Hc'; apply Hkeys; now right).
    destruct (dict_mem p char) eqn:Hm; simpl.
    + unfold dict_mem in Hm. unfold getitem at 1.
      destruct (dict_get p char) as [pv |] eqn:Ep; [| discriminate].
      simpl. rewrite math_log_ok by (eapply Hpos; eassumption). simpl.
      unfold getitem. rewrite Hn. simpl.
      apply IH; [assumption |].
      exists c. repeat split; try assumption.
      destruct Hin as [<- | Hin]; [| assumption].
      unfold dict_mem in Hmem. rewrite Ep in Hmem. discriminate.
    + unfold getitem. rewrite Hn. simpl.
      destruct (0 <? n)%Z eqn:El; [reflexivity |].
      apply IH; [assumption |].
      exists c. repeat split; try assumption.
      destruct Hin as [<- | Hin]; [| assumption].
      rewrite (counter_get_Some _ _ _ Hn) in Hc.
      apply Z.ltb_ge in El. lia.
Qed.

Lemma unscorable_score (p : dict string R) (a : alignment) :
  positive_model p -> (11 <= List.length (cigar_stats a))%nat ->
  unscorable p a -> score p a = Ok None.
Proof.
  intros Hpos Hlen Hun. unfold score, unscorable, tally_of in *.
  destruct (get_align_stats (cigar_stats a)) as [st |] eqn:Hst.
  - simpl. apply compute_log_L_rgs_from_None; try assumption.
    intros c Hc Hnone. apply dict_get_None in Hnone. apply Hnone.
    rewrite (tally_keys _ _ Hst).
    unfold scored_chars, categories in *. simpl in *. tauto.
  - destruct (get_align_stats_shape _ Hlen)
      as (m & i & d & n & s & h & x0 & e0 & x & b & c & E).
    congruence.
Qed.

(** The exclusion test is [cigar_stats[char] > 0] over the five scored
    categories: a record with five reference-skip positions, a category
    the model lacks but which is not scored, gets an entry; and so does a
    record whose substitution count, absent from the model, is negative.
    Each model is the one built from the same file. *)
Lemma nonzero_count_in_absent_category_is_scored :
  (get_char_align_probabilites sam_ref_skip = Ok p_all_match /\
   dict_mem p_all_match "N" = false /\
   counter_get
     (tally_of (secondary_record "r1" "B" [10; 0; 0; 5; 0; 0; 0; 0; 0; 0; 0]%Z))
     "N" = 5%Z /\
   exists v w, log_L_rgs_dict sam_ref_skip p_all_match
               = Ok [(("r1", "A"), v); (("r1", "B"), w)]) /\
  (get_char_align_probabilites sam_negative_absent = Ok p_match_insertion /\
   dict_mem p_match_insertion "X" = false /\
   (forall a, In a sam_negative_absent -> counter_get (tally_of a) "X" = (-2)%Z) /\
   exists v, log_L_rgs_dict sam_negative_absent p_match_insertion
             = Ok [(("r1", "A"), v)]).
Proof.
  split.
  - repeat split.
    unfold log_L_rgs_dict, sam_ref_skip. simpl log_L_rgs_from.
    unfold log_L_rgs_step. simpl reference_name. simpl cigar_stats.
    rewrite !get_align_stats_long. simpl bind.
    unfold compute_log_L_rgs, scored_chars, p_all_match.
    simpl.
    rewrite !math_log_ok by lra. simpl.
    do 2 eexists. reflexivity.
  - repeat split.
    + intros a [<- | []]. reflexivity.
    + unfold log_L_rgs_dict, sam_negative_absent. simpl log_L_rgs_from.
      unfold log_L_rgs_step. simpl reference_name. simpl cigar_stats.
      rewrite get_align_stats_long. simpl bind.
      unfold compute_log_L_rgs, scored_chars, p_match_insertion.
      simpl.
      rewrite !math_log_ok by lra. simpl.
      eexists. reflexivity.
Qed.

(** X29. For every record that has a strictly positive count in a scored
    category (M, X, I, D, C) absent from a model of positive
    probabilities: it has no score (and no -infinity); processed when its
    (read, reference) pair has no entry it leaves the matrix as it is;
    whenever the builder gets past it the matrix is unchanged; and a
    completed build equals the build of the input without that record. *)
Theorem unscorable_record_excluded (p : dict string R) (a : alignment) (ref : string) :
  positive_model p -> reference_name a = Some ref ->
  (11 <= List.length (cigar_stats a))%nat -> unscorable p a ->
  score p a = Ok None /\
  (forall m, dict_get m (query_name a, ref) = None -> log_L_rgs_step p m a = Ok m) /\
  (forall m m', log_L_rgs_step p m a = Ok m' -> m' = m) /\
  (forall before after m,
      log_L_rgs_dict (before ++ a :: after) p = Ok m ->
      log_L_rgs_dict (before ++ after) p = Ok m).
Proof.
  intros Hpos Href Hlen Hun.
  pose proof (unscorable_score p a Hpos Hlen Hun) as Hs.
  assert (Hsame : forall m m', log_L_rgs_step p m a = Ok m' -> m' = m).
  { intros m m'. rewrite (log_L_rgs_step_unscored p m a ref Href Hs).
    destruct (dict_get m (query_name a, ref)); [discriminate | congruence]. }
  repeat split; try assumption.
  - intros m Hm. rewrite (log_L_rgs_step_unscored p m a ref Href Hs).
    now rewrite Hm.
  - intros before after m. unfold log_L_rgs_dict.
    rewrite !log_L_rgs_from_app.
    destruct (log_L_rgs_from p before []) as [m1 |]; simpl; [| discriminate].
    destruct (log_L_rgs_step p m1 a) as [m2 |] eqn:Hstep; simpl; [| discriminate].
    now rewrite (Hsame _ _ Hstep).
Qed.

Lemma p_match_only_positive : positive_model p_match_only.
Proof.
  intros k v. unfold p_match_only. simpl.
  destruct (key_eq_dec k "M"); [| discriminate].
  intros [= <-]. apply exp_pos.
Qed.

Lemma score_match_only (q ref : string) (sec sup : bool) (n : Z) :
  score p_match_only
    {| query_name := q; reference_name := Some ref; is_secondary := sec;
       is_supplementary := sup;
       cigar_stats := [n; 0; 0; 0; 0; 0; 0; 0; 0; 0; 0]%Z |}
  = Ok (Some (0 + ln (exp (- (1 / 10))) * IZR (n - (0 - 0 - 0)))).
Proof.
  unfold score. simpl cigar_stats. rewrite get_align_stats_long. simpl bind.
  unfold compute_log_L_rgs, scored_chars, p_match_only. simpl.
  rewrite math_log_ok by apply exp_pos. reflexivity.
Qed.

Lemma score_32_matches (q ref : string) (sec sup : bool) :
  score p_match_only
    {| query_name := q; reference_name := Some ref; is_secondary := sec;
       is_supplementary := sup;
       cigar_stats := [32; 0; 0; 0; 0; 0; 0; 0; 0; 0; 0]%Z |}
  = Ok (Some (- (32 / 10))).
Proof. rewrite score_match_only, ln_exp. simpl Z.sub. do 2 f_equal. lra. Qed.

Lemma score_29_matches (q ref : string) (sec sup : bool) :
  score p_match_only
    {| query_name := q; reference_name := Some ref; is_secondary := sec;
       is_supplementary := sup;
       cigar_stats := [29; 0; 0; 0; 0; 0; 0; 0; 0; 0; 0]%Z |}
  = Ok (Some (- (29 / 10))).
Proof. rewrite score_match_only, ln_exp. simpl Z.sub. do 2 f_equal. lra. Qed.

Lemma unscorable_insertion :
  unscorable p_match_only
    (secondary_record "r1" "A" [29; 2; 0; 0; 0; 0; 0; 0; 0; 0; 2]%Z).
Proof.
  exists "I". repeat split.
  unfold scored_chars. simpl. tauto.
Qed.

Lemma unscorable_record_excluded_witness :
  let a := secondary_record "r1" "A" [29; 2; 0; 0; 0; 0; 0; 0; 0; 0; 2]%Z in
  score p_match_only a = Ok None /\
  (forall m, dict_get m (query_name a, "A") = None ->
             log_L_rgs_step p_match_only m a = Ok m) /\
  (forall m m', log_L_rgs_step p_match_only m a = Ok m' -> m' = m) /\
  (forall before after m,
      log_L_rgs_dict (before ++ a :: after) p_match_only = Ok m ->
      log_L_rgs_dict (before ++ after) p_match_only = Ok m).
Proof.
  intros a.
  apply (unscorable_record_excluded p_match_only a "A").
  - apply p_match_only_positive.
  - reflexivity.
  - simpl. lia.
  - apply unscorable_insertion.
Defined.

(** The guard compares the stored score with [None] before it tests
    [val != None]: an unscorable record that follows an entry of its pair
    raises [TypeError]; placed before it, it is skipped. *)
Lemma unscorable_after_entry_raises :
  log_L_rgs_dict sam_unscorable_after p_match_only = Err TypeError /\
  log_L_rgs_dict sam_unscorable_before p_match_only = Ok [(("r1", "A"), - (32 / 10))].
Proof.
  assert (Hun : score p_match_only
                  (secondary_record "r1" "A" [29; 2; 0; 0; 0; 0; 0; 0; 0; 0; 2]%Z)
                = Ok None).
  { apply unscorable_score;
      [apply p_match_only_positive | simpl; lia | apply unscorable_insertion]. }
  unfold log_L_rgs_dict, sam_unscorable_after, sam_unscorable_before. simpl.
  split.
  - unfold primary_record at 1.
    erewrite log_L_rgs_step_scored; [| reflexivity | apply score_32_matches].
    simpl.
    erewrite log_L_rgs_step_unscored; [| reflexivity | exact Hun].
    reflexivity.
  - erewrite log_L_rgs_step_unscored; [| reflexivity | exact Hun].
    simpl. unfold primary_record at 1.
    erewrite log_L_rgs_step_scored; [| reflexivity | apply score_32_matches].
    reflexivity.
Qed.

Lemma p_32_matches_positive : positive_model p_32_matches.
Proof.
  intros k v. unfold p_32_matches. simpl.
  destruct (key_eq_dec k "M"); [| discriminate].
  intros [= <-]. lra.
Qed.

Lemma score_32_certain (q ref : string) (sec sup : bool) :
  score p_32_matches
    {| query_name := q; reference_name := Some ref; is_secondary := sec;
       is_supplementary := sup;
       cigar_stats := [32; 0; 0; 0; 0; 0; 0; 0; 0; 0; 0]%Z |}
  = Ok (Some 0).
Proof.
  unfold score. simpl cigar_stats. rewrite get_align_stats_long. simpl bind.
  unfold compute_log_L_rgs, scored_chars, p_32_matches. simpl.
  rewrite math_log_ok by lra. simpl. do 2 f_equal.
  replace (32 / 32) with 1 by lra. rewrite ln_1. lra.
Qed.

(** C3. A primary record of 32 matches followed by a secondary record of
    the same read and reference with 29 matches and an insertion of 2:
    under the model built from that very file, which holds matches only,
    the second record is unscorable, and the build of the matrix stops
    with TypeError instead of skipping it, so that the script of main
    fails whatever the database and the number of iterations; with the
    two records in the other order the model is the same, the build
    completes and the matrix holds the score of the primary record
    alone. *)
Theorem unscorable_after_scorable_raises :
  get_char_align_probabilites sam_unscorable_after = Ok p_32_matches /\
  unscorable p_32_matches
    (secondary_record "r1" "A" [29; 2; 0; 0; 0; 0; 0; 0; 0; 0; 2]%Z) /\
  score p_32_matches
    (secondary_record "r1" "A" [29; 2; 0; 0; 0; 0; 0; 0; 0; 0; 2]%Z) = Ok None /\
  log_L_rgs_dict sam_unscorable_after p_32_matches = Err TypeError /\
  (forall fuel db_ids, script fuel sam_unscorable_after db_ids = Failed TypeError) /\
  get_char_align_probabilites sam_unscorable_before = Ok p_32_matches /\
  log_L_rgs_dict sam_unscorable_before p_32_matches = Ok [(("r1", "A"), 0)].
Proof.
  assert (Hmodel : get_char_align_probabilites sam_unscorable_after = Ok p_32_matches)
    by reflexivity.
  assert (Hunsc : unscorable p_32_matches
                    (secondary_record "r1" "A" [29; 2; 0; 0; 0; 0; 0; 0; 0; 0; 2]%Z)).
  { exists "I". repeat split. unfold scored_chars. simpl. tauto. }
  assert (Hun : score p_32_matches
                  (secondary_record "r1" "A" [29; 2; 0; 0; 0; 0; 0; 0; 0; 0; 2]%Z)
                = Ok None).
  { apply unscorable_score;
      [apply p_32_matches_positive | simpl; lia | exact Hunsc]. }
  assert (Hraise : log_L_rgs_dict sam_unscorable_after p_32_matches = Err TypeError).
  { unfold log_L_rgs_dict, sam_unscorable_after. simpl.
    unfold primary_record at 1.
    erewrite log_L_rgs_step_scored; [| reflexivity | apply score_32_certain].
    simpl.
    erewrite log_L_rgs_step_unscored; [| reflexivity | exact Hun].
    reflexivity. }
  split; [exact Hmodel |]. split; [exact Hunsc |]. split; [exact Hun |].
  split; [exact Hraise |]. split; [| split].
  - intros fuel db_ids. unfold script. now rewrite Hmodel, Hraise.
  - reflexivity.
  - unfold log_L_rgs_dict, sam_unscorable_before. simpl.
    erewrite log_L_rgs_step_unscored; [| reflexivity | exact Hun].
    simpl. unfold primary_record at 1.
    erewrite log_L_rgs_step_scored; [| reflexivity | apply score_32_certain].
    reflexivity.
Qed.

(** C4. For every (read, reference) pair with several scorable records the
    built matrix holds the maximum of their scores; a record whose score
    equals the stored one does not pass the guard, so the first one met is
    kept; two records of one pair scoring -3.2 and -2.9 leave -2.9, in
    either order. *)
Theorem retained_score_is_maximum (p : dict string R) :
  (forall samfile,
      (forall a ref, In a samfile -> reference_name a = Some ref ->
                     exists v, score p a = Ok (Some v)) ->
      exists m, log_L_rgs_dict samfile p = Ok m) /\
  (forall samfile m key v vs,
      log_L_rgs_dict samfile p = Ok m ->
      scores_of p key samfile = v :: vs ->
      exists mx, dict_get m key = Some mx /\ In mx (v :: vs) /\
                 forall x, In x (v :: vs) -> x <= mx) /\
  (forall m a ref stored,
      reference_name a = Some ref ->
      dict_get m (query_name a, ref) = Some stored ->
      score p a = Ok (Some stored) ->
      assign_guard m (query_name a, ref) (Some stored) = Ok false /\
      log_L_rgs_step p m a = Ok m) /\
  (forall a1 a2 q ref,
      query_name a1 = q -> reference_name a1 = Some ref ->
      query_name a2 = q -> reference_name a2 = Some ref ->
      score p a1 = Ok (Some (- (32 / 10))) ->
      score p a2 = Ok (Some (- (29 / 10))) ->
      log_L_rgs_dict [a1; a2] p = Ok [((q, ref), - (29 / 10))] /\
      log_L_rgs_dict [a2; a1] p = Ok [((q, ref), - (29 / 10))]).
Proof.
  split; [| split; [| split]].
  - intros samfile Hall. now apply log_L_rgs_from_total.
  - intros samfile m key v vs Hm Hsc.
    pose proof (log_L_rgs_from_best p samfile [] m key Hm) as Hb.
    rewrite Hsc in Hb. simpl dict_get in Hb. rewrite best_step, best_Some in Hb.
    exists (fold_left Rmax vs v). repeat split.
    + assumption.
    + apply fold_Rmax_In.
    + apply fold_Rmax_upper.
  - intros m a ref stored Href Hget Hs. split.
    + rewrite (assign_guard_present _ _ _ _ Hget). now rewrite Rltb_false by lra.
    + rewrite (log_L_rgs_step_scored p m a ref stored Href Hs), Hget.
      now rewrite Rltb_false by lra.
  - intros a1 a2 q ref Hq1 Hr1 Hq2 Hr2 Hs1 Hs2.
    unfold log_L_rgs_dict. simpl. split.
    + rewrite (log_L_rgs_step_scored p [] a1 ref _ Hr1 Hs1). simpl.
      rewrite (log_L_rgs_step_scored p _ a2 ref _ Hr2 Hs2). rewrite Hq1, Hq2. simpl.
      destruct (key_eq_dec (q, ref) (q, ref)); [| congruence].
      now rewrite Rltb_true by lra.
    + rewrite (log_L_rgs_step_scored p [] a2 ref _ Hr2 Hs2). simpl.
      rewrite (log_L_rgs_step_scored p _ a1 ref _ Hr1 Hs1). rewrite Hq1, Hq2. simpl.
      destruct (key_eq_dec (q, ref) (q, ref)); [| congruence].
      now rewrite Rltb_false by lra.
Qed.

Lemma sam_same_pair_scores :
  scores_of p_match_only ("r1", "A") sam_same_pair = [- (32 / 10); - (29 / 10)].
Proof.
  unfold sam_same_pair, primary_record, secondary_record. simpl scores_of.
  rewrite score_32_matches, score_29_matches. reflexivity.
Qed.

Lemma sam_same_pair_built :
  log_L_rgs_dict sam_same_pair p_match_only = Ok [(("r1", "A"), - (29 / 10))].
Proof.
  unfold log_L_rgs_dict, sam_same_pair, primary_record, secondary_record. simpl.
  erewrite log_L_rgs_step_scored; [| reflexivity | apply score_32_matches].
  simpl.
  erewrite log_L_rgs_step_scored; [| reflexivity | apply score_29_matches].
  simpl. now rewrite Rltb_true by lra.
Qed.

Lemma retained_score_is_maximum_witness :
  (exists m, log_L_rgs_dict sam_same_pair p_match_only = Ok m) /\
  (exists mx, dict_get [(("r1", "A"), - (29 / 10))] ("r1", "A") = Some mx /\
              In mx [- (32 / 10); - (29 / 10)] /\
              forall x, In x [- (32 / 10); - (29 / 10)] -> x <= mx) /\
  (let a := primary_record "r1" "A" [32; 0; 0; 0; 0; 0; 0; 0; 0; 0; 0]%Z in
   let m := [(("r1", "A"), - (32 / 10))] in
   assign_guard m ("r1", "A") (Some (- (32 / 10))) = Ok false /\
   log_L_rgs_step p_match_only m a = Ok m) /\
  (let a1 := primary_record "r1" "A" [32; 0; 0; 0; 0; 0; 0; 0; 0; 0; 0]%Z in
   let a2 := secondary_record "r1" "A" [29; 0; 0; 0; 0; 0; 0; 0; 0; 0; 0]%Z in
   log_L_rgs_dict [a1; a2] p_match_only = Ok [(("r1", "A"), - (29 / 10))] /\
   log_L_rgs_dict [a2; a1] p_match_only = Ok [(("r1", "A"), - (29 / 10))]).
Proof.
  split; [| split; [| split]].
  - apply (proj1 (retained_score_is_maximum p_match_only) sam_same_pair).
    intros a ref [<- | [<- | []]] _.
    + eexists. apply score_32_matches.
    + eexists. apply score_29_matches.
  - apply (proj1 (proj2 (retained_score_is_maximum p_match_only)) sam_same_pair).
    + apply sam_same_pair_built.
    + apply sam_same_pair_scores.
  - intros a m.
    apply (proj1 (proj2 (proj2 (retained_score_is_maximum p_match_only))) m a "A").
    + reflexivity.
    + reflexivity.
    + apply score_32_matches.
  - intros a1 a2.
    apply (proj2 (proj2 (proj2 (retained_score_is_maximum p_match_only)))
             a1 a2 "r1" "A");
      try reflexivity.
    + apply score_32_matches.
    + apply score_29_matches.
Defined.

(** ** Grouping *)

Section GroupingFacts.
Context {A : Type} `{KeyEq A}.

Lemma key_eqb_refl (a : A) : key_eqb a a = true.
Proof. unfold key_eqb. destruct (key_eq_dec a a); congruence. Qed.

Lemma key_eqb_eq (a b : A) : key_eqb a b = true <-> a = b.
Proof. unfold key_eqb. destruct (key_eq_dec a b); split; congruence. Qed.

Lemma key_eqb_neq (a b : A) : a <> b -> key_eqb a b = false.
Proof. unfold key_eqb. destruct (key_eq_dec a b); congruence. Qed.

Lemma distinct_snoc (l : list A) (x : A) :
  distinct (l ++ [x]) =
  if in_dec key_eq_dec x (distinct l) then distinct l else distinct l ++ [x].
Proof. unfold distinct. now rewrite fold_left_app. Qed.

Lemma distinct_spec (l : list A) :
  NoDup (distinct l) /\ forall x, In x (distinct l) <-> In x l.
Proof.
  induction l as [| x l [IHnd IHin]] using rev_ind.
  - split; [constructor | reflexivity].
  - rewrite distinct_snoc.
    destruct (in_dec key_eq_dec x (distinct l)) as [Hin | Hout].
    + split; [assumption |].
      intros y. rewrite in_app_iff, IHin. simpl.
      split; [tauto |]. intros [Hy | [<- | []]]; [assumption | now apply IHin].
    + split.
      * apply NoDup_app; [assumption | repeat constructor; simpl; tauto |].
        intros y Hy [<- | []]. contradiction.
      * intros y. rewrite !in_app_iff, IHin. reflexivity.
Qed.

Lemma distinct_NoDup (l : list A) : NoDup (distinct l).
Proof. apply distinct_spec. Qed.

Lemma distinct_In (l : list A) (x : A) : In x (distinct l) <-> In x l.
Proof. apply distinct_spec. Qed.

Lemma distinct_nil_iff (l : list A) : distinct l = [] <-> l = [].
Proof.
  split; [| now intros ->].
  intros E. destruct l as [| x l]; [reflexivity |].
  assert (Hin : In x (distinct (x :: l))) by (apply distinct_In; now left).
  rewrite E in Hin. destruct Hin.
Qed.

Lemma select_app {X : Type} (key : X -> A) (a : A) (l1 l2 : list X) :
  select key a (l1 ++ l2) = select key a l1 ++ select key a l2.
Proof. apply filter_app. Qed.

Lemma select_map {X Y : Type} (key : Y -> A) (h : X -> Y) (a : A) (l : list X) :
  select key a (map h l) = map h (select (fun x => key (h x)) a l).
Proof.
  unfold select. induction l as [| x l IH]; simpl; [reflexivity |].
  destruct (key_eqb (key (h x)) a); simpl; now rewrite IH.
Qed.

Lemma select_In {X : Type} (key : X -> A) (a : A) (l : list X) (x : X) :
  In x (select key a l) <-> In x l /\ key x = a.
Proof. unfold select. rewrite filter_In, key_eqb_eq. reflexivity. Qed.

Lemma select_nil {X : Type} (key : X -> A) (a : A) (l : list X) :
  ~ In a (map key l) -> select key a l = [].
Proof.
  intros Hout. destruct (select key a l) as [| x s] eqn:E; [reflexivity |].
  exfalso. apply Hout.
  assert (Hx : In x (select key a l)) by (rewrite E; now left).
  apply select_In in Hx as [Hx <-]. now apply in_map.
Qed.

Lemma py_sum_indicator (ks : list A) (a0 : A) (v : R) :
  NoDup ks -> In a0 ks ->
  py_sum (map (fun a => if key_eqb a0 a then v else 0) ks) = v.
Proof.
  induction 1 as [| a ks Hnotin Hnd IH]; intros Hin; [destruct Hin |].
  simpl. rewrite py_sum_cons.
  destruct Hin as [-> | Hin].
  - rewrite key_eqb_refl.
    rewrite (py_sum_map_ext _ (fun _ => 0)).
    + rewrite py_sum_map_const. lra.
    + intros a Ha. rewrite key_eqb_neq; [reflexivity | congruence].
  - rewrite key_eqb_neq by congruence. rewrite IH by assumption. lra.
Qed.

(** A sum over a list is the sum, over the distinct keys, of the sums
    over the elements of each key. *)
Lemma sum_partition {X : Type} (key : X -> A) (g : X -> R) (ks : list A)
    (l : list X) :
  NoDup ks -> (forall x, In x l -> In (key x) ks) ->
  py_sum (map (fun a => py_sum (map g (select key a l))) ks) = py_sum (map g l).
Proof.
  intros Hnd. induction l as [| x l IH]; intros Hks.
  - simpl. rewrite (py_sum_map_ext _ (fun _ => 0)) by (intros; apply py_sum_nil).
    rewrite py_sum_map_const, py_sum_nil. lra.
  - rewrite (py_sum_map_ext _
               (fun a => (if key_eqb (key x) a then g x else 0)
                         + py_sum (map g (select key a l)))).
    + rewrite py_sum_map_plus, IH by (intros y Hy; apply Hks; now right).
      rewrite py_sum_indicator by (try assumption; apply Hks; now left).
      simpl. now rewrite py_sum_cons.
    + intros a _. unfold select. simpl.
      destruct (key_eqb (key x) a); simpl; [now rewrite py_sum_cons | lra].
Qed.
End GroupingFacts.

(** ** [unflatten] groups by first key component *)

Section UnflattenFacts.
Context {A B V : Type} `{KeyEq A} `{KeyEq B}.
Implicit Types (d : dict (A * B) V).

Lemma dict_get_map_keys {W : Type} (g : A -> W) (l : list A) (a : A) :
  dict_get (map (fun a' => (a', g a')) l) a =
  if in_dec key_eq_dec a l then Some (g a) else None.
Proof.
  induction l as [| x l IH]; simpl; [reflexivity |].
  destruct (key_eq_dec a x) as [-> | Hne].
  - destruct (key_eq_dec x x); [reflexivity | congruence].
  - rewrite IH. destruct (key_eq_dec x a); [congruence |].
    destruct (in_dec key_eq_dec a l); reflexivity.
Qed.

Lemma dict_set_map_keys {W : Type} (g : A -> W) (l : list A) (a : A) (w : W) :
  NoDup l -> In a l ->
  dict_set (map (fun a' => (a', g a')) l) a w =
  map (fun a' => (a', if key_eqb a' a then w else g a')) l.
Proof.
  induction 1 as [| x l Hnotin Hnd IH]; intros Hin; [destruct Hin |].
  simpl. destruct (key_eq_dec a x) as [-> | Hne].
  - rewrite key_eqb_refl. f_equal.
    apply map_ext_in. intros y Hy.
    rewrite key_eqb_neq; [reflexivity | congruence].
  - rewrite key_eqb_neq by congruence. f_equal.
    apply IH. destruct Hin; congruence.
Qed.

Lemma unflatten_snoc d (a : A) (b : B) (v : V) :
  unflatten (d ++ [((a, b), v)]) = nested_set (unflatten d) a b v.
Proof. unfold unflatten. now rewrite fold_left_app. Qed.

Lemma group_snoc d (a a' : A) (b : B) (v : V) :
  group (d ++ [((a, b), v)]) a' =
  group d a' ++ (if key_eqb a a' then [(b, v)] else []).
Proof.
  unfold group. rewrite select_app, map_app. f_equal.
  unfold select. simpl. destruct (key_eqb a a'); reflexivity.
Qed.

Lemma group_keys_In d (a : A) (b : B) :
  In b (keys (group d a)) -> In (a, b) (keys d).
Proof.
  unfold keys, group. rewrite map_map. simpl.
  intros Hin. apply in_map_iff in Hin as ([[a0 b0] v] & <- & Hsel).
  apply select_In in Hsel as [Hd Ha]. simpl in *. subst a0.
  change (a, b0) with (fst ((a, b0), v)). now apply in_map.
Qed.

Lemma group_wf d (a : A) : dict_wf d -> dict_wf (group d a).
Proof.
  unfold dict_wf, keys, group. rewrite map_map. simpl.
  induction d as [| [[a0 b0] v] d IH]; simpl; intros Hnd; [constructor |].
  inversion Hnd as [| ? ? Hnotin Hnd']; subst.
  unfold select in *. simpl.
  destruct (key_eqb a0 a) eqn:E; [| now apply IH].
  simpl. constructor; [| now apply IH].
  intros Hin. apply Hnotin.
  apply in_map_iff in Hin as ([[a1 b1] v1] & Hb & Hsel). simpl in Hb. subst b1.
  apply filter_In in Hsel as [Hd Ha]. simpl in Ha.
  apply key_eqb_eq in Ha. apply key_eqb_eq in E. subst.
  change (a, b0) with (fst ((a, b0), v1)). now apply in_map.
Qed.

(** [unflatten] of a well-formed dictionary: one inner dictionary per
    distinct first component, in order of first occurrence. *)
Lemma unflatten_spec d :
  dict_wf d ->
  unflatten d =
  map (fun a => (a, group d a)) (distinct (map (fun kv => fst (fst kv)) d)).
Proof.
  induction d as [| [[a b] v] d IH] using rev_ind; intros Hwf; [reflexivity |].
  unfold dict_wf, keys in Hwf. rewrite map_app in Hwf. simpl in Hwf.
  assert (Hwf' : dict_wf d) by (apply NoDup_app_remove_r in Hwf; exact Hwf).
  assert (Hnew : ~ In (a, b) (keys d)).
  { apply NoDup_remove_2 in Hwf. rewrite app_nil_r in Hwf. exact Hwf. }
  rewrite unflatten_snoc, IH by assumption.
  rewrite map_app. cbn [map fst]. rewrite distinct_snoc.
  set (D := distinct (map (fun kv => fst (fst kv)) d)).
  unfold nested_set. rewrite dict_get_map_keys.
  destruct (in_dec key_eq_dec a D) as [Hin | Hout].
  - rewrite dict_set_map_keys by (try assumption; apply distinct_NoDup).
    apply map_ext_in. intros a' Ha'. f_equal.
    rewrite group_snoc.
    destruct (key_eq_dec a' a) as [-> | Hne].
    + rewrite !key_eqb_refl.
      apply dict_set_absent. apply dict_get_None.
      intros Hb. apply Hnew. now apply group_keys_In.
    + rewrite !key_eqb_neq by congruence. now rewrite app_nil_r.
  - rewrite dict_set_absent.
    2:{ rewrite dict_get_map_keys.
        destruct (in_dec key_eq_dec a D); [contradiction | reflexivity]. }
    rewrite map_app. simpl. f_equal.
    + apply map_ext_in. intros a' Ha'.
      rewrite group_snoc, key_eqb_neq by congruence. now rewrite app_nil_r.
    + rewrite group_snoc, key_eqb_refl.
      unfold group at 1. rewrite select_nil; [reflexivity |].
      intros Hin. apply Hout. now apply distinct_In.
Qed.
End UnflattenFacts.

(** ** One EM iteration in flat form *)

Lemma mapM_map {X Y Z : Type} (g : Y -> result Z) (h : X -> Y) (l : list X) :
  mapM g (map h l) = mapM (fun x => g (h x)) l.
Proof.
  induction l as [| x l IH]; simpl; [reflexivity |]. now rewrite IH.
Qed.

Lemma values_group_map {X A B V : Type} `{KeyEq A}
    (h : X -> A * B * V) (l : list X) (a : A) :
  values (group (map h l) a) =
  map (fun x => snd (h x)) (select (fun x => fst (fst (h x))) a l).
Proof.
  unfold values, group. rewrite select_map, !map_map. reflexivity.
Qed.

Lemma getitem_map_keys {A W : Type} `{KeyEq A} (g : A -> W) (l : list A) (a : A) :
  In a l -> getitem (map (fun a' => (a', g a')) l) a = Ok (g a).
Proof.
  intros Hin. unfold getitem. rewrite dict_get_map_keys.
  destruct (in_dec key_eq_dec a l); [reflexivity | contradiction].
Qed.

Section FlatFacts.
Variable J : matrix.
Hypothesis J_wf : dict_wf J.

Lemma reads_In (kv : string * string * R) : In kv J -> In (read_of kv) (reads J).
Proof. intros Hin. apply distinct_In. now apply in_map. Qed.

Lemma refs_In (kv : string * string * R) : In kv J -> In (ref_of kv) (refs J).
Proof. intros Hin. apply distinct_In. now apply in_map. Qed.

Lemma reads_inhabited (r : string) :
  In r (reads J) -> exists kv, In kv J /\ read_of kv = r.
Proof.
  intros Hin. apply distinct_In, in_map_iff in Hin as (kv & <- & Hkv). eauto.
Qed.

Lemma refs_inhabited (s : string) :
  In s (refs J) -> exists kv, In kv J /\ ref_of kv = s.
Proof.
  intros Hin. apply distinct_In, in_map_iff in Hin as (kv & <- & Hkv). eauto.
Qed.

Lemma w_of_pos (kv : string * string * R) : 0 < w_of J kv.
Proof. apply exp_pos. Qed.

Lemma W_of_pos (r : string) : In r (reads J) -> 0 < W_of J r.
Proof.
  intros Hin. destruct (reads_inhabited r Hin) as (kv & Hkv & <-).
  unfold W_of. apply py_sum_map_pos.
  - intros E.
    assert (Hsel : In kv (select read_of (read_of kv) J))
      by (apply select_In; now split).
    rewrite E in Hsel. destruct Hsel.
  - intros x _. apply w_of_pos.
Qed.

Lemma reads_length_pos : J <> [] -> 0 < INR (List.length (reads J)).
Proof.
  intros Hne. apply lt_0_INR.
  destruct (reads J) as [| r rs] eqn:E; [| simpl; lia].
  unfold reads in E. apply distinct_nil_iff, map_eq_nil in E. contradiction.
Qed.

Lemma swapped_wf {V : Type} (g : string * string * R -> V) :
  dict_wf (map (fun kv => ((ref_of kv, read_of kv), g kv)) J).
Proof.
  unfold dict_wf, keys. rewrite map_map. cbn [fst].
  replace (map (fun kv => (ref_of kv, read_of kv)) J)
    with (map (fun k : string * string => (snd k, fst k)) (map fst J))
    by (rewrite map_map; reflexivity).
  apply NoDup_map_NoDup_ForallPairs; [| exact J_wf].
  intros [a b] [a' b'] _ _. simpl. congruence.
Qed.

Lemma rekeyed_wf {V : Type} (g : string * string * R -> V) :
  dict_wf (map (fun kv => (fst kv, g kv)) J).
Proof.
  unfold dict_wf, keys. rewrite map_map. simpl. exact J_wf.
Qed.

(** The comprehensions of one iteration never raise; they compute
    [f_next] and [total_of]. *)
Lemma EM_update_flat (log_L_rgs : matrix) (f : abundance) :
  log_L_rns_from log_L_rgs f (keys log_L_rgs) [] = Ok J ->
  EM_update log_L_rgs f = Ok (f_next J, total_of J).
Proof.
  intros HJ. unfold EM_update. rewrite HJ. cbn [bind].
  (* log_c *)
  rewrite (unflatten_spec J J_wf). change (map (fun kv => fst (fst kv)) J) with (map read_of J).
  fold (reads J).
  rewrite mapM_map. cbn [fst snd].
  rewrite (mapM_ok _ (fun r => (r, c_of J r))).
  2:{ intros r Hr. unfold c_of, group_max.
      destruct (reads_inhabited r Hr) as (kv & Hkv & <-).
      destruct (values (group J (read_of kv))) as [| x xs] eqn:E; [| reflexivity].
      exfalso. unfold values, group in E.
      apply map_eq_nil, map_eq_nil in E.
      assert (Hsel : In kv (select (fun kv0 => fst (fst kv0)) (read_of kv) J))
        by (apply select_In; now split).
      rewrite E in Hsel. destruct Hsel. }
  cbn [bind].
  (* L_rns_c *)
  rewrite (mapM_ok _ (fun kv => (fst kv, w_of J kv))).
  2:{ intros kv Hkv. rewrite getitem_map_keys by now apply reads_In.
      cbn [bind]. now rewrite math_e_pow_exp. }
  cbn [bind].
  (* L_r_c *)
  rewrite (unflatten_spec _ (rekeyed_wf _)). rewrite !map_map. cbn [fst snd].
  change (map (fun x => fst (fst x)) J) with (map read_of J). fold (reads J).
  rewrite (map_ext_in _ (fun r => (r, W_of J r))).
  2:{ intros r _. now rewrite values_group_map. }
  (* L_sgr *)
  rewrite mapM_map. cbn [fst snd].
  rewrite (mapM_ok _ (fun kv => ((ref_of kv, read_of kv), resp_of J kv))).
  2:{ intros kv Hkv. rewrite getitem_map_keys by now apply reads_In.
      cbn [bind]. rewrite float_div_ok; [reflexivity |].
      apply Rgt_not_eq, W_of_pos. now apply reads_In. }
  cbn [bind].
  rewrite (unflatten_spec _ (swapped_wf _)). rewrite !map_map. cbn [fst snd].
  change (map (fun x => ref_of x) J) with (map ref_of J). fold (refs J).
  (* log_L_r *)
  rewrite mapM_map. cbn [fst snd].
  rewrite (mapM_ok _ (fun r => (r, ln (W_of J r) - c_of J r))).
  2:{ intros r Hr. rewrite math_log_ok by now apply W_of_pos.
      cbn [bind]. now rewrite getitem_map_keys. }
  cbn [bind].
  (* f *)
  rewrite mapM_map. cbn [fst snd]. rewrite length_map.
  rewrite (mapM_ok _ (fun s => (s, py_sum (map (resp_of J) (select ref_of s J))
                                   / INR (List.length (reads J))))).
  2:{ intros s Hs. rewrite values_group_map. cbn [fst snd].
      rewrite float_div_ok; [reflexivity |].
      apply Rgt_not_eq, reads_length_pos.
      destruct (refs_inhabited s Hs) as (kv & Hkv & _).
      intros ->. destruct Hkv. }
  cbn [bind]. unfold f_next, total_of, values. rewrite map_map. reflexivity.
Qed.
End FlatFacts.

(** ** The loop that fills [log_L_rns] *)

Lemma log_L_rns_from_wf (m : matrix) (f : abundance) (ks : list (string * string))
    (acc J : matrix) :
  dict_wf acc -> log_L_rns_from m f ks acc = Ok J -> dict_wf J.
Proof.
  revert acc. induction ks as [| [r s] ks IH]; intros acc Hwf; simpl.
  - now intros [= <-].
  - destruct (dict_get f s) as [fs |]; [| now apply IH].
    destruct (negb (Reqb fs 0)); [| now apply IH].
    destruct (getitem m (r, s)) as [l |]; simpl; [| discriminate].
    destruct (math_log fs) as [lg |]; simpl; [| discriminate].
    apply IH. now apply dict_wf_set.
Qed.

Lemma EM_update_inv (m : matrix) (f f' : abundance) (t : R) :
  EM_update m f = Ok (f', t) ->
  exists J, log_L_rns_from m f (keys m) [] = Ok J /\ dict_wf J /\
            f' = f_next J /\ t = total_of J.
Proof.
  intros Hup.
  destruct (log_L_rns_from m f (keys m) []) as [J |] eqn:HJ.
  - assert (Hwf : dict_wf J)
      by (eapply log_L_rns_from_wf; [apply dict_wf_nil | eassumption]).
    rewrite (EM_update_flat J Hwf m f HJ) in Hup. injection Hup as <- <-.
    exists J. auto.
  - unfold EM_update in Hup. rewrite HJ in Hup. discriminate.
Qed.

Lemma active_true (f : abundance) (kv : string * string * R) :
  active f kv = true <->
  exists fs, dict_get f (ref_of kv) = Some fs /\ fs <> 0.
Proof.
  unfold active. destruct (dict_get f (ref_of kv)) as [fs |].
  - unfold Reqb. destruct (Req_dec_T fs 0) as [E | E]; simpl.
    + split; [discriminate |]. intros (fs' & [= <-] & Hne). contradiction.
    + split; [eauto | reflexivity].
  - split; [discriminate |]. intros (fs & Hfs & _). discriminate.
Qed.

Lemma log_L_rns_from_entries (m : matrix) (f : abundance) (es acc : matrix) :
  (forall kv, In kv es -> dict_get m (fst kv) = Some (snd kv)) ->
  NoDup (keys acc ++ keys es) ->
  (forall kv, In kv es -> active f kv = true -> 0 < abundance_of f (ref_of kv)) ->
  log_L_rns_from m f (keys es) acc =
  Ok (acc ++ map (fun kv => (fst kv, snd kv + ln (abundance_of f (ref_of kv))))
                 (filter (active f) es)).
Proof.
  revert acc. induction es as [| [[r s] l] es IH]; intros acc Hm Hnd Hpos.
  - simpl. now rewrite app_nil_r.
  - assert (Hm' : forall kv, In kv es -> dict_get m (fst kv) = Some (snd kv))
      by (intros kv Hkv; apply Hm; now right).
    assert (Hpos' : forall kv, In kv es -> active f kv = true ->
                               0 < abundance_of f (ref_of kv))
      by (intros kv Hkv; apply Hpos; now right).
    specialize (Hpos ((r, s), l) (or_introl eq_refl)).
    specialize (Hm ((r, s), l) (or_introl eq_refl)).
    cbn [keys map fst log_L_rns_from filter].
    assert (Ha : active f (r, s, l) =
                 match dict_get f s with
                 | Some fs => negb (Reqb fs 0)
                 | None => false
                 end) by reflexivity.
    assert (Hab : abundance_of f (ref_of (r, s, l)) =
                  match dict_get f s with Some v => v | None => 0 end)
      by reflexivity.
    rewrite Ha, Hab in Hpos. rewrite Ha.
    destruct (dict_get f s) as [fs |] eqn:Hfs.
    + destruct (negb (Reqb fs 0)) eqn:Hact.
      * unfold getitem. cbn [fst snd] in Hm. rewrite Hm. cbn [bind].
        rewrite math_log_ok by now apply Hpos.
        cbn [bind map fst snd]. rewrite Hab.
        rewrite dict_set_absent.
        2:{ apply dict_get_None. simpl in Hnd.
            apply NoDup_remove_2 in Hnd. rewrite in_app_iff in Hnd. tauto. }
        rewrite IH; try assumption.
        -- now rewrite <- app_assoc.
        -- unfold keys in *. rewrite map_app. simpl.
           now rewrite <- app_assoc.
      * apply IH; try assumption.
        unfold keys in *. simpl in Hnd. now apply NoDup_remove_1 in Hnd.
    + apply IH; try assumption.
      unfold keys in *. simpl in Hnd. now apply NoDup_remove_1 in Hnd.
Qed.

(** On a well-formed matrix and an abundance vector positive where it is
    used, [log_L_rns] is [joint]. *)
Lemma log_L_rns_from_joint (m : matrix) (f : abundance) :
  dict_wf m -> positive_abundance f ->
  log_L_rns_from m f (keys m) [] = Ok (joint m f).
Proof.
  intros Hwf Hpos.
  rewrite (log_L_rns_from_entries m f m []); [reflexivity | | assumption |].
  - intros [k v] Hin. now apply dict_get_In.
  - intros kv _ Hact. apply active_true in Hact as (fs & Hfs & _).
    unfold abundance_of. rewrite Hfs. eapply Hpos; eassumption.
Qed.

Lemma joint_wf (m : matrix) (f : abundance) :
  dict_wf m -> positive_abundance f -> dict_wf (joint m f).
Proof.
  intros Hwf Hpos.
  eapply log_L_rns_from_wf; [apply dict_wf_nil |].
  now apply log_L_rns_from_joint.
Qed.

(** ** Mass conservation of the update *)

Section UpdateFacts.
Variable J : matrix.
Hypothesis J_wf : dict_wf J.

Lemma resp_of_pos (kv : string * string * R) : In kv J -> 0 < resp_of J kv.
Proof.
  intros Hin. unfold resp_of.
  apply Rdiv_lt_0_compat; [apply w_of_pos | apply W_of_pos, reads_In, Hin].
Qed.

(** The responsibilities of one read sum to 1. *)
Lemma resp_of_read_sum (r : string) :
  In r (reads J) -> py_sum (map (resp_of J) (select read_of r J)) = 1.
Proof.
  intros Hr.
  rewrite (py_sum_map_ext _ (fun kv => w_of J kv * / W_of J r)).
  - rewrite py_sum_map_scal. fold (W_of J r).
    apply Rinv_r, Rgt_not_eq, W_of_pos, Hr.
  - intros kv Hkv. apply select_In in Hkv as [_ <-]. reflexivity.
Qed.

Lemma resp_of_total : py_sum (map (resp_of J) J) = INR (List.length (reads J)).
Proof.
  rewrite <- (sum_partition read_of (resp_of J) (reads J) J).
  - rewrite (py_sum_map_ext _ (fun _ => 1)) by apply resp_of_read_sum.
    rewrite py_sum_map_const. lra.
  - apply distinct_NoDup.
  - intros kv Hkv. now apply reads_In.
Qed.

Lemma f_next_sum : J <> [] -> py_sum (values (f_next J)) = 1.
Proof.
  intros Hne. unfold f_next, values. rewrite map_map. cbn [snd].
  unfold Rdiv. rewrite py_sum_map_scal.
  rewrite (sum_partition ref_of (resp_of J) (refs J) J).
  - rewrite resp_of_total. apply Rinv_r, Rgt_not_eq, reads_length_pos, Hne.
  - apply distinct_NoDup.
  - intros kv Hkv. now apply refs_In.
Qed.

Lemma f_next_keys : keys (f_next J) = refs J.
Proof. unfold f_next, keys. rewrite map_map. cbn [fst]. apply map_id. Qed.

Lemma f_next_wf : dict_wf (f_next J).
Proof. unfold dict_wf. rewrite f_next_keys. apply distinct_NoDup. Qed.

Lemma f_next_get (s : string) :
  dict_get (f_next J) s =
  if in_dec key_eq_dec s (refs J)
  then Some (py_sum (map (resp_of J) (select ref_of s J))
             / INR (List.length (reads J)))
  else None.
Proof.
  unfold f_next.
  apply (dict_get_map_keys
           (fun s' => py_sum (map (resp_of J) (select ref_of s' J))
                      / INR (List.length (reads J)))).
Qed.

Lemma f_next_positive : positive_abundance (f_next J).
Proof.
  intros s v. rewrite f_next_get.
  destruct (in_dec key_eq_dec s (refs J)) as [Hs |]; [| discriminate].
  intros [= <-].
  destruct (refs_inhabited J s Hs) as (kv & Hkv & <-).
  apply Rdiv_lt_0_compat.
  - apply py_sum_map_pos.
    + intros E.
      assert (Hsel : In kv (select ref_of (ref_of kv) J))
        by (apply select_In; now split).
      rewrite E in Hsel. destruct Hsel.
    + intros x Hx. apply select_In in Hx as [Hx _]. now apply resp_of_pos.
  - apply reads_length_pos. intros ->. destruct Hkv.
Qed.
End UpdateFacts.

Lemma active_positive (f : abundance) (kv : string * string * R) :
  positive_abundance f ->
  (active f kv = true <-> In (ref_of kv) (keys f)).
Proof.
  intros Hpos. rewrite active_true, <- dict_mem_true. unfold dict_mem.
  destruct (dict_get f (ref_of kv)) as [fs |] eqn:E.
  - split; [reflexivity |]. intros _. exists fs. split; [reflexivity |].
    apply Rgt_not_eq. eapply Hpos; eassumption.
  - split; [intros (fs & Hfs & _) |]; discriminate.
Qed.

Lemma joint_refs_In (m : matrix) (f : abundance) (s : string) :
  positive_abundance f ->
  (In s (refs (joint m f)) <->
   In s (keys f) /\ exists kv, In kv m /\ ref_of kv = s).
Proof.
  intros Hpos. unfold refs, joint. rewrite distinct_In, map_map.
  change (fun x : string * string * R =>
            ref_of (fst x, snd x + ln (abundance_of f (ref_of x))))
    with ref_of.
  rewrite in_map_iff. split.
  - intros (kv & <- & Hkv). apply filter_In in Hkv as [Hm Hact].
    split; [now apply active_positive | eauto].
  - intros (Hs & kv & Hkv & <-). exists kv. split; [reflexivity |].
    apply filter_In. split; [assumption | now apply active_positive].
Qed.

Lemma joint_nil_iff (m : matrix) (f : abundance) :
  positive_abundance f ->
  (joint m f = [] <-> forall kv, In kv m -> ~ In (ref_of kv) (keys f)).
Proof.
  intros Hpos. unfold joint. split.
  - intros E kv Hkv Hin. apply map_eq_nil in E.
    assert (Hf : In kv (filter (active f) m))
      by (apply filter_In; split; [assumption | now apply active_positive]).
    rewrite E in Hf. destruct Hf.
  - intros Hnone.
    destruct (filter (active f) m) as [| kv l] eqn:E; [reflexivity |].
    exfalso.
    assert (Hf : In kv (filter (active f) m)) by (rewrite E; now left).
    apply filter_In in Hf as [Hm Hact].
    apply (Hnone kv Hm). now apply active_positive.
Qed.

(** The update on a positive abundance vector. *)
Lemma EM_update_positive (m : matrix) (f : abundance) :
  dict_wf m -> positive_abundance f ->
  EM_update m f = Ok (f_next (joint m f), total_of (joint m f)).
Proof.
  intros Hwf Hpos.
  apply EM_update_flat; [now apply joint_wf | now apply log_L_rns_from_joint].
Qed.

(** ** Invariants of a run *)

Lemma dict_fromkeys_get {V : Type} (ks : list string) (v : V) (s : string) :
  dict_get (dict_fromkeys ks v) s = if in_dec string_dec s ks then Some v else None.
Proof.
  unfold dict_fromkeys.
  assert (Hgen : forall acc : dict string V,
             dict_get (fold_left (fun d k => dict_set d k v) ks acc) s =
             if in_dec string_dec s ks then Some v else dict_get acc s).
  { induction ks as [| k ks IH]; intros acc; [reflexivity |].
    cbn [fold_left]. rewrite IH.
    destruct (in_dec string_dec s ks) as [Hin | Hout];
      destruct (in_dec string_dec s (k :: ks)) as [Hin' | Hout'];
      try reflexivity.
    - exfalso. apply Hout'. now right.
    - destruct Hin' as [-> | Hin']; [apply dict_get_set_same | contradiction].
    - apply dict_get_set_other. intros ->. apply Hout'. now left. }
  apply Hgen.
Qed.

Lemma dict_fromkeys_keys {V : Type} (ks : list string) (v : V) (s : string) :
  In s (keys (dict_fromkeys ks v)) <-> In s ks.
Proof.
  rewrite <- dict_mem_true. unfold dict_mem. rewrite dict_fromkeys_get.
  destruct (in_dec string_dec s ks); split; intros; congruence || assumption.
Qed.

Lemma EM_init_inv (db_ids : list string) (st : EM_state) :
  EM_init db_ids = Ok st ->
  db_ids <> [] /\
  st = {| st_f := dict_fromkeys db_ids (1 / INR (List.length db_ids));
          st_total := None; st_out := [] |}.
Proof.
  unfold EM_init, true_div.
  destruct (Z.eq_dec (Z.of_nat (List.length db_ids)) 0) as [E | E]; [discriminate |].
  simpl. intros [= <-]. split.
  - intros ->. simpl in E. congruence.
  - now rewrite INR_IZR_INZ.
Qed.

Lemma EM_init_ok (db_ids : list string) :
  db_ids <> [] ->
  EM_init db_ids =
  Ok {| st_f := dict_fromkeys db_ids (1 / INR (List.length db_ids));
        st_total := None; st_out := [] |}.
Proof.
  intros Hne. unfold EM_init, true_div.
  destruct (Z.eq_dec (Z.of_nat (List.length db_ids)) 0) as [E | E].
  - destruct db_ids; [congruence | simpl in E; lia].
  - simpl. now rewrite INR_IZR_INZ.
Qed.

Lemma uniform_covers (m : matrix) (db_ids : list string) :
  db_ids <> [] ->
  covers m db_ids (dict_fromkeys db_ids (1 / INR (List.length db_ids))).
Proof.
  intros Hne. repeat split.
  - intros s v. rewrite dict_fromkeys_get.
    destruct (in_dec string_dec s db_ids); [| discriminate].
    intros [= <-]. apply Rdiv_lt_0_compat; [lra |].
    apply lt_0_INR. destruct db_ids; [congruence | simpl; lia].
  - intros s. now rewrite dict_fromkeys_keys.
  - intros kv _ Hdb. now rewrite dict_fromkeys_keys.
Qed.

Lemma covers_next (m : matrix) (db_ids : list string) (f : abundance) :
  dict_wf m -> covers m db_ids f -> covers m db_ids (f_next (joint m f)).
Proof.
  intros Hwf (Hpos & Hsub & Hall). repeat split.
  - apply f_next_positive. now apply joint_wf.
  - intros s. rewrite f_next_keys, joint_refs_In by assumption.
    intros [Hs _]. now apply Hsub.
  - intros kv Hkv Hdb. rewrite f_next_keys, joint_refs_In by assumption.
    split; [now apply Hall | eauto].
Qed.

(** What an iteration does on a positive abundance vector. *)
Lemma EM_iteration_positive (m : matrix) (st : EM_state) :
  dict_wf m -> positive_abundance (st_f st) ->
  EM_iteration m st =
  let J := joint m (st_f st) in
  let out := st_out st ++ [total_of J] in
  if negb (f_sum_ok (py_sum (values (f_next J)))) then Raise ValueError_f_sum
  else if diff_lt (total_of J) (st_total st) 0 then Raise ValueError_decreased
  else if diff_lt (total_of J) (st_total st) (1 / 100) then Return (f_next J) out
  else Continue {| st_f := f_next J; st_total := Some (total_of J); st_out := out |}.
Proof.
  intros Hwf Hpos. unfold EM_iteration.
  now rewrite EM_update_positive.
Qed.

Lemma EM_iteration_Continue (m : matrix) (st st' : EM_state) :
  dict_wf m -> positive_abundance (st_f st) ->
  EM_iteration m st = Continue st' ->
  st' = {| st_f := f_next (joint m (st_f st));
           st_total := Some (total_of (joint m (st_f st)));
           st_out := st_out st ++ [total_of (joint m (st_f st))] |}.
Proof.
  intros Hwf Hpos. rewrite EM_iteration_positive by assumption. cbv zeta.
  destruct (negb _); [discriminate |].
  destruct (diff_lt _ _ 0); [discriminate |].
  destruct (diff_lt _ _ (1 / 100)); [discriminate |].
  now intros [= <-].
Qed.

Lemma EM_iteration_Return (m : matrix) (st : EM_state) (f : abundance)
    (out : list R) :
  dict_wf m -> positive_abundance (st_f st) ->
  EM_iteration m st = Return f out ->
  f = f_next (joint m (st_f st)) /\
  out = st_out st ++ [total_of (joint m (st_f st))] /\
  st_total st <> None.
Proof.
  intros Hwf Hpos. rewrite EM_iteration_positive by assumption. cbv zeta.
  destruct (negb _); [discriminate |].
  destruct (diff_lt _ _ 0); [discriminate |].
  destruct (diff_lt _ _ (1 / 100)) eqn:E; [| discriminate].
  intros [= <- <-]. repeat split.
  intros Hnone. rewrite Hnone in E. discriminate.
Qed.

Lemma reach_covers (m : matrix) (db_ids : list string) (st : EM_state) :
  dict_wf m -> EM_reach m db_ids st -> covers m db_ids (st_f st).
Proof.
  intros Hwf. induction 1 as [st Hinit | st st' Hreach IH Hstep].
  - apply EM_init_inv in Hinit as [Hne ->]. now apply uniform_covers.
  - apply EM_iteration_Continue in Hstep; [| assumption | apply IH].
    subst st'. now apply covers_next.
Qed.

Lemma reach_out (m : matrix) (db_ids : list string) (st : EM_state) :
  dict_wf m -> EM_reach m db_ids st -> st_total st <> None -> st_out st <> [].
Proof.
  intros Hwf. destruct 1 as [st Hinit | st st' Hreach Hstep].
  - apply EM_init_inv in Hinit as [_ ->]. simpl. congruence.
  - apply EM_iteration_Continue in Hstep;
      [| assumption | eapply reach_covers; eassumption].
    subst st'. simpl. intros _ E. now apply app_eq_nil in E as [_ E].
Qed.

Lemma loop_returned_reach (m : matrix) (db_ids : list string) (fuel : nat)
    (st : EM_state) (f : abundance) (out : list R) :
  EM_reach m db_ids st -> EM_loop fuel m st = Returned f out ->
  exists st', EM_reach m db_ids st' /\ EM_iteration m st' = Return f out.
Proof.
  revert st. induction fuel as [| fuel IH]; intros st Hreach; simpl; [discriminate |].
  destruct (EM_iteration m st) as [st1 | f1 out1 | e] eqn:Hit.
  - apply IH. eapply reach_step; eassumption.
  - intros [= <- <-]. eauto.
  - discriminate.
Qed.

Lemma covers_joint_nonempty (m : matrix) (db_ids : list string) (f : abundance) :
  has_db_entry m db_ids -> covers m db_ids f -> joint m f <> [].
Proof.
  intros (kv & Hkv & Hdb) (Hpos & _ & Hall) E.
  apply (proj1 (joint_nil_iff m f Hpos) E kv Hkv). now apply Hall.
Qed.

Lemma matrix_one_read_wf : dict_wf matrix_one_read.
Proof. repeat constructor. simpl. tauto. Qed.

(** ** The iteration computes the mixture likelihood *)

Lemma covers_filter (m : matrix) (db_ids : list string) (f : abundance) :
  covers m db_ids f -> filter (active f) m = base m db_ids.
Proof.
  intros (Hpos & Hsub & Hall). unfold base.
  apply filter_ext_in. intros kv Hkv.
  destruct (in_dec string_dec (ref_of kv) db_ids) as [Hin | Hout].
  - apply active_positive; [assumption | now apply Hall].
  - destruct (active f kv) eqn:E; [| reflexivity].
    exfalso. apply Hout, Hsub. now apply active_positive.
Qed.

Section JointFacts.
Variable m : matrix.
Variable f : abundance.
Hypothesis m_wf : dict_wf m.
Hypothesis f_pos : positive_abundance f.

Let B := filter (active f) m.
Let phi := abundance_of f.
Let g := fun kv : string * string * R =>
           (fst kv, snd kv + ln (abundance_of f (ref_of kv))).

Lemma joint_as_map : joint m f = map g B.
Proof. reflexivity. Qed.

Lemma joint_reads : reads (joint m f) = reads B.
Proof. unfold reads. rewrite joint_as_map, map_map. reflexivity. Qed.

Lemma joint_refs : refs (joint m f) = refs B.
Proof. unfold refs. rewrite joint_as_map, map_map. reflexivity. Qed.

Lemma joint_select_read (r : string) :
  select read_of r (joint m f) = map g (select read_of r B).
Proof. rewrite joint_as_map, select_map. reflexivity. Qed.

Lemma joint_select_ref (s : string) :
  select ref_of s (joint m f) = map g (select ref_of s B).
Proof. rewrite joint_as_map, select_map. reflexivity. Qed.

Lemma active_phi_pos (kv : string * string * R) : In kv B -> 0 < phi (ref_of kv).
Proof.
  intros Hin. apply filter_In in Hin as [_ Hact].
  apply active_true in Hact as (fs & Hfs & _).
  unfold phi, abundance_of. rewrite Hfs. eapply f_pos; eassumption.
Qed.

Lemma joint_weight_pos (kv : string * string * R) :
  In kv B -> 0 < joint_weight phi kv.
Proof.
  intros Hin. unfold joint_weight.
  apply Rmult_lt_0_compat; [apply exp_pos | now apply active_phi_pos].
Qed.

Lemma read_likelihood_pos (r : string) :
  In r (reads B) -> 0 < read_likelihood B phi r.
Proof.
  intros Hr. destruct (reads_inhabited B r Hr) as (kv & Hkv & <-).
  unfold read_likelihood. apply py_sum_map_pos.
  - intros E.
    assert (Hsel : In kv (select read_of (read_of kv) B))
      by (apply select_In; now split).
    rewrite E in Hsel. destruct Hsel.
  - intros x Hx. apply select_In in Hx as [Hx _]. now apply joint_weight_pos.
Qed.

(** The shifted weight is the joint weight times exp(c_r). *)
Lemma w_of_joint (kv : string * string * R) :
  In kv B ->
  w_of (joint m f) (g kv) =
  joint_weight phi kv * exp (c_of (joint m f) (read_of kv)).
Proof.
  intros Hin. unfold w_of, joint_weight, g. cbn [snd read_of fst].
  rewrite !exp_plus, exp_ln by now apply active_phi_pos.
  reflexivity.
Qed.

Lemma W_of_joint (r : string) :
  W_of (joint m f) r = read_likelihood B phi r * exp (c_of (joint m f) r).
Proof.
  unfold W_of, read_likelihood.
  rewrite joint_select_read, map_map, <- py_sum_map_scal.
  apply py_sum_map_ext. intros kv Hkv.
  apply select_In in Hkv as [Hkv <-]. now apply w_of_joint.
Qed.

(** The stabilised total of an iteration is the total log-likelihood. *)
Lemma total_of_joint : total_of (joint m f) = objective B phi.
Proof.
  unfold total_of, objective. rewrite joint_reads.
  apply py_sum_map_ext. intros r Hr.
  rewrite W_of_joint, ln_mult, ln_exp; [lra | | apply exp_pos].
  now apply read_likelihood_pos.
Qed.

(** The responsibility is the posterior. *)
Lemma resp_of_joint (kv : string * string * R) :
  In kv B -> resp_of (joint m f) (g kv) = posterior B phi kv.
Proof.
  intros Hin. unfold resp_of, posterior.
  change (read_of (g kv)) with (read_of kv).
  rewrite w_of_joint, W_of_joint by assumption.
  assert (0 < read_likelihood B phi (read_of kv))
    by now apply read_likelihood_pos, reads_In.
  pose proof (exp_pos (c_of (joint m f) (read_of kv))).
  field. split; apply Rgt_not_eq; assumption.
Qed.

Lemma f_next_joint_get (s : string) :
  In s (refs B) -> dict_get (f_next (joint m f)) s = Some (em_map B phi s).
Proof.
  intros Hs. rewrite f_next_get, joint_refs.
  destruct (in_dec key_eq_dec s (refs B)); [| contradiction].
  f_equal. unfold em_map. rewrite joint_reads, joint_select_ref, map_map.
  f_equal. apply py_sum_map_ext. intros kv Hkv.
  apply select_In in Hkv as [Hkv _]. now apply resp_of_joint.
Qed.

Lemma f_next_joint_keys : keys (f_next (joint m f)) = refs B.
Proof. now rewrite f_next_keys, joint_refs. Qed.
End JointFacts.

(** ** The first iteration never returns *)

Lemma EM_iteration_first (m : matrix) (st : EM_state) (f : abundance)
    (out : list R) :
  st_total st = None -> EM_iteration m st <> Return f out.
Proof.
  intros Hnone. unfold EM_iteration. rewrite Hnone.
  destruct (EM_update m (st_f st)) as [[f' t] | e]; [| discriminate].
  simpl. destruct (negb _); discriminate.
Qed.

Lemma EM_iterations_one (m : matrix) (db_ids : list string) (f : abundance)
    (out : list R) :
  EM_iterations 1 m db_ids <> Returned f out.
Proof.
  unfold EM_iterations.
  destruct (EM_init db_ids) as [st |] eqn:Hinit; [| discriminate].
  apply EM_init_inv in Hinit as [_ ->]. simpl.
  destruct (EM_iteration m _) as [st1 | f1 out1 | e] eqn:Hit; try discriminate.
  exfalso. now apply EM_iteration_first in Hit.
Qed.

(** ** A single reference *)

Lemma distinct_constant (l : list string) (s0 : string) :
  l <> [] -> (forall s, In s l -> s = s0) -> distinct l = [s0].
Proof.
  intros Hne Hall.
  pose proof (distinct_NoDup l) as Hnd.
  assert (Hin : forall s, In s (distinct l) -> s = s0)
    by (intros s Hs; apply Hall; now apply distinct_In).
  assert (Hne' : distinct l <> []) by (now rewrite distinct_nil_iff).
  destruct (distinct l) as [| a [| b rest]]; [congruence | |].
  - f_equal. apply Hin. now left.
  - exfalso. inversion Hnd as [| ? ? Hnotin _]; subst.
    apply Hnotin. left.
    rewrite (Hin a), (Hin b); simpl; auto.
Qed.

Lemma filter_all {X : Type} (l : list X) : filter (fun _ => true) l = l.
Proof. induction l as [| x l IH]; simpl; [reflexivity | now rewrite IH]. Qed.

Section SingleReference.
Variable m : matrix.
Variable db_ids : list string.
Variable s0 : string.
Hypothesis m_wf : dict_wf m.
Hypothesis m_inhabited : m <> [].
Hypothesis m_single : single_reference m s0.
Hypothesis s0_db : In s0 db_ids.

Lemma single_base : base m db_ids = m.
Proof.
  unfold base. rewrite (filter_ext_in _ (fun _ => true)).
  - apply filter_all.
  - intros kv Hkv. rewrite (m_single kv Hkv).
    destruct (in_dec string_dec s0 db_ids); [reflexivity | contradiction].
Qed.

Lemma single_refs : refs m = [s0].
Proof.
  unfold refs. apply distinct_constant.
  - intros E. apply map_eq_nil in E. contradiction.
  - intros s Hs. apply in_map_iff in Hs as (kv & <- & Hkv). now apply m_single.
Qed.

Lemma single_next (f : abundance) :
  covers m db_ids f -> f_next (joint m f) = [(s0, 1)].
Proof.
  intros Hcov.
  assert (Hpos : positive_abundance f) by apply Hcov.
  assert (Hne : joint m f <> []).
  { apply (covers_joint_nonempty m db_ids); [| assumption].
    destruct m as [| kv l]; [congruence |].
    exists kv. split; [now left |].
    rewrite (m_single kv (or_introl eq_refl)). assumption. }
  pose proof (f_next_sum _ Hne) as Hsum.
  unfold f_next in *.
  rewrite (joint_refs m f), (covers_filter m db_ids f Hcov), single_base,
    single_refs in *.
  cbn [map values snd] in *. rewrite py_sum_cons, py_sum_nil in Hsum.
  do 2 f_equal. lra.
Qed.

Lemma single_likelihood (phi : string -> R) (r : string) :
  read_likelihood m phi r = read_likelihood m (fun _ => 1) r * phi s0.
Proof.
  unfold read_likelihood. rewrite <- py_sum_map_scal.
  apply py_sum_map_ext. intros kv Hkv. apply select_In in Hkv as [Hkv _].
  unfold joint_weight. rewrite (m_single kv Hkv). lra.
Qed.

Lemma single_likelihood_pos (r : string) :
  In r (reads m) -> 0 < read_likelihood m (fun _ => 1) r.
Proof.
  intros Hr. destruct (reads_inhabited m r Hr) as (kv & Hkv & <-).
  unfold read_likelihood. apply py_sum_map_pos.
  - intros E.
    assert (Hsel : In kv (select read_of (read_of kv) m))
      by (apply select_In; now split).
    rewrite E in Hsel. destruct Hsel.
  - intros x _. unfold joint_weight. pose proof (exp_pos (snd x)). lra.
Qed.

(** With a single reference the objective depends on its abundance only
    through N ln f(s0). *)
Lemma single_objective (phi : string -> R) :
  0 < phi s0 ->
  objective m phi =
  objective m (fun _ => 1) + INR (List.length (reads m)) * ln (phi s0).
Proof.
  intros Hphi. unfold objective.
  rewrite <- py_sum_map_const, <- py_sum_map_plus.
  apply py_sum_map_ext. intros r Hr.
  rewrite single_likelihood, ln_mult; [reflexivity | | assumption].
  now apply single_likelihood_pos.
Qed.

Lemma single_total (f : abundance) :
  covers m db_ids f ->
  total_of (joint m f) =
  objective m (fun _ => 1) + INR (List.length (reads m)) * ln (abundance_of f s0).
Proof.
  intros Hcov.
  assert (Hpos : positive_abundance f) by apply Hcov.
  rewrite total_of_joint by assumption.
  rewrite (covers_filter m db_ids f Hcov), single_base.
  apply single_objective.
  destruct Hcov as (_ & _ & Hall).
  destruct m as [| kv l] eqn:Em; [congruence |].
  assert (Hkv : In kv m) by (rewrite Em; now left).
  rewrite Em in Hkv.
  specialize (Hall kv Hkv). rewrite (m_single kv Hkv) in Hall.
  specialize (Hall s0_db).
  apply dict_mem_true in Hall. unfold dict_mem, abundance_of in *.
  destruct (dict_get f s0) as [v |] eqn:E; [| discriminate].
  eapply Hpos; eassumption.
Qed.
End SingleReference.

Lemma ln_le_compat (x y : R) : 0 < x -> x <= y -> ln x <= ln y.
Proof.
  intros Hx [Hlt | ->]; [| lra]. left. now apply ln_increasing.
Qed.

Section SingleReferenceRun.
Variable m : matrix.
Variable db_ids : list string.
Variable s0 : string.
Hypothesis m_wf : dict_wf m.
Hypothesis m_inhabited : m <> [].
Hypothesis m_single : single_reference m s0.
Hypothesis s0_db : In s0 db_ids.

Let n_db := List.length db_ids.
Let f0 : abundance := dict_fromkeys db_ids (1 / INR n_db).
Let f1 : abundance := [(s0, 1)].
Let t1 := total_of (joint m f0).
Let t2 := total_of (joint m f1).

Lemma single_db_inhabited : db_ids <> [].
Proof. intros E. rewrite E in s0_db. destruct s0_db. Qed.

Lemma single_f0_covers : covers m db_ids f0.
Proof. apply uniform_covers, single_db_inhabited. Qed.

Lemma single_f1_covers : covers m db_ids f1.
Proof.
  unfold f1. rewrite <- (single_next m db_ids s0 m_wf m_inhabited m_single s0_db f0).
  - apply covers_next; [assumption | apply single_f0_covers].
  - apply single_f0_covers.
Qed.

Lemma single_iteration (st : EM_state) :
  covers m db_ids (st_f st) ->
  EM_iteration m st =
  let t := total_of (joint m (st_f st)) in
  let out := st_out st ++ [t] in
  if diff_lt t (st_total st) 0 then Raise ValueError_decreased
  else if diff_lt t (st_total st) (1 / 100) then Return f1 out
  else Continue {| st_f := f1; st_total := Some t; st_out := out |}.
Proof.
  intros Hcov.
  rewrite EM_iteration_positive by (try assumption; apply Hcov).
  cbv zeta.
  rewrite (single_next m db_ids s0 m_wf m_inhabited m_single s0_db _ Hcov).
  fold f1.
  replace (f_sum_ok (py_sum (values f1))) with true; [reflexivity |].
  unfold f1, values. cbn [map snd]. rewrite py_sum_cons, py_sum_nil.
  unfold f_sum_ok. now rewrite !Rleb_true by lra.
Qed.

Lemma single_t1 :
  t1 = objective m (fun _ => 1)
       + INR (List.length (reads m)) * ln (1 / INR n_db).
Proof.
  unfold t1.
  rewrite (single_total m db_ids s0 m_wf m_inhabited m_single s0_db f0
             single_f0_covers).
  do 2 f_equal. unfold abundance_of, f0. rewrite dict_fromkeys_get.
  destruct (in_dec string_dec s0 db_ids); [reflexivity | contradiction].
Qed.

Lemma single_t2 : t2 = objective m (fun _ => 1).
Proof.
  unfold t2.
  rewrite (single_total m db_ids s0 m_wf m_inhabited m_single s0_db f1
             single_f1_covers).
  unfold abundance_of, f1. simpl.
  destruct (key_eq_dec s0 s0); [| congruence].
  rewrite ln_1. lra.
Qed.

Lemma single_reads_pos : 1 <= INR (List.length (reads m)).
Proof.
  change 1 with (INR 1). apply le_INR.
  destruct (reads m) as [| r rs] eqn:E; [| simpl; lia].
  unfold reads in E. apply distinct_nil_iff, map_eq_nil in E. contradiction.
Qed.

Lemma single_n_db_pos : 1 <= INR n_db.
Proof.
  change 1 with (INR 1). apply le_INR. unfold n_db.
  pose proof single_db_inhabited. destruct db_ids; [congruence | simpl; lia].
Qed.

Lemma single_gain : t2 - t1 = INR (List.length (reads m)) * ln (INR n_db).
Proof.
  rewrite single_t1, single_t2, Rdiv_1_l, ln_Rinv; [lra |].
  pose proof single_n_db_pos. lra.
Qed.

Lemma single_first_step :
  EM_iteration m {| st_f := f0; st_total := None; st_out := [] |} =
  Continue {| st_f := f1; st_total := Some t1; st_out := [t1] |}.
Proof. now rewrite single_iteration by apply single_f0_covers. Qed.

Lemma single_last_step (prev : R) (out : list R) :
  EM_iteration m {| st_f := f1; st_total := Some t2; st_out := out |} =
  Return f1 (out ++ [t2]).
Proof.
  rewrite single_iteration by apply single_f1_covers.
  cbn [st_f st_total st_out diff_lt]. fold t2.
  rewrite Rltb_false by lra. now rewrite Rltb_true by lra.
Qed.

Lemma single_second_step :
  EM_iteration m {| st_f := f1; st_total := Some t1; st_out := [t1] |} =
  if Nat.eqb n_db 1 then Return f1 [t1; t2]
  else Continue {| st_f := f1; st_total := Some t2; st_out := [t1; t2] |}.
Proof.
  rewrite single_iteration by apply single_f1_covers.
  cbn [st_f st_total st_out diff_lt app]. fold t2.
  pose proof single_gain as Hgain.
  pose proof single_reads_pos as HN.
  pose proof single_n_db_pos as Hn.
  destruct (Nat.eqb n_db 1) eqn:En.
  - apply Nat.eqb_eq in En. rewrite En in Hgain. simpl in Hgain.
    rewrite ln_1 in Hgain.
    rewrite Rltb_false by lra. now rewrite Rltb_true by lra.
  - apply Nat.eqb_neq in En.
    assert (H2 : 2 <= INR n_db).
    { change 2 with (INR 2). apply le_INR.
      assert (n_db <> 0)%nat; [| lia].
      intros E. rewrite E in Hn. simpl in Hn. lra. }
    assert (Hln : / 2 < ln (INR n_db)).
    { eapply Rlt_le_trans; [apply ln_lt_2 | apply ln_le_compat; lra]. }
    assert (Hbig : 1 / 100 <= t2 - t1) by (rewrite Hgain; nra).
    now rewrite !Rltb_false by lra.
Qed.

(** The run on a single reference: two iterations when the universe has
    one identifier, three otherwise. *)
Lemma single_reference_loop :
  EM_iterations 3 m db_ids =
  Returned f1 (if Nat.eqb n_db 1 then [t1; t2] else [t1; t2; t2]).
Proof.
  unfold EM_iterations. rewrite EM_init_ok by apply single_db_inhabited.
  fold n_db. fold f0.
  cbn [EM_loop]. rewrite single_first_step, single_second_step.
  destruct (Nat.eqb n_db 1); [reflexivity |].
  now rewrite (single_last_step t1).
Qed.

Lemma single_reference_loop_two :
  n_db = 1%nat -> EM_iterations 2 m db_ids = Returned f1 [t1; t2].
Proof.
  intros En.
  unfold EM_iterations. rewrite EM_init_ok by apply single_db_inhabited.
  fold n_db. fold f0.
  cbn [EM_loop]. rewrite single_first_step, single_second_step.
  now rewrite En.
Qed.

Lemma single_reference_first_update :
  EM_update m f0 = Ok (f1, t1).
Proof.
  rewrite EM_update_positive by (try assumption; apply single_f0_covers).
  now rewrite (single_next m db_ids s0 m_wf m_inhabited m_single s0_db f0
                 single_f0_covers).
Qed.
End SingleReferenceRun.

Lemma matrix_one_read_single : single_reference matrix_one_read "A".
Proof. intros kv [<- | []]. reflexivity. Qed.

(** C5 (as stated, refuted). With one read, one reference and a universe
    of that reference alone, the estimator does not return in the first
    iteration: it returns in the second, after printing two totals. *)
Lemma single_reference_not_in_one_iteration :
  single_reference matrix_one_read "A" /\
  (forall f out, EM_iterations 1 matrix_one_read ["A"] <> Returned f out) /\
  exists t1 t2,
    EM_iterations 2 matrix_one_read ["A"] = Returned [("A", 1)] [t1; t2].
Proof.
  split; [apply matrix_one_read_single |].
  split; [intros f out; apply EM_iterations_one |].
  do 2 eexists.
  apply (single_reference_loop_two matrix_one_read ["A"] "A").
  - apply matrix_one_read_wf.
  - discriminate.
  - apply matrix_one_read_single.
  - now left.
  - reflexivity.
Qed.

(** C5 (amended). For every likelihood matrix, with at least one entry,
    in which every read has entries for exactly one reference, common to
    all reads and member of the universe: the update of the first iteration
    already yields abundance 1 for that reference alone; the estimator does
    not return in the first iteration; it returns that vector in the second
    iteration when the universe has one identifier and in the third
    otherwise. *)
Theorem single_reference_converges (m : matrix) (db_ids : list string)
    (s0 : string) :
  dict_wf m -> m <> [] -> single_reference m s0 -> In s0 db_ids ->
  (exists t, EM_update m (dict_fromkeys db_ids (1 / INR (List.length db_ids)))
             = Ok ([(s0, 1)], t)) /\
  (forall f out, EM_iterations 1 m db_ids <> Returned f out) /\
  (exists out,
      EM_iterations 3 m db_ids = Returned [(s0, 1)] out /\
      List.length out = if Nat.eqb (List.length db_ids) 1 then 2%nat else 3%nat).
Proof.
  intros Hwf Hne Hsingle Hdb. repeat split.
  - eexists. now apply (single_reference_first_update m db_ids s0).
  - intros f out. apply EM_iterations_one.
  - eexists. split.
    + now apply (single_reference_loop m db_ids s0).
    + destruct (Nat.eqb (List.length db_ids) 1); reflexivity.
Qed.

Lemma single_reference_converges_witness :
  (exists t, EM_update matrix_one_read
               (dict_fromkeys ["A"] (1 / INR (List.length ["A"])))
             = Ok ([("A", 1)], t)) /\
  (forall f out, EM_iterations 1 matrix_one_read ["A"] <> Returned f out) /\
  (exists out,
      EM_iterations 3 matrix_one_read ["A"] = Returned [("A", 1)] out /\
      List.length out = if Nat.eqb (List.length ["A"]) 1 then 2%nat else 3%nat).
Proof.
  apply (single_reference_converges matrix_one_read ["A"] "A").
  - apply matrix_one_read_wf.
  - discriminate.
  - apply matrix_one_read_single.
  - simpl. tauto.
Defined.

(** C10. For every run of the estimator that returns, on a well-formed
    matrix, the keys of the returned abundance vector are exactly the
    references of the universe that appear in some matrix entry; they are
    distinct and carry positive values (none is stored with 0); and at
    least two iterations have run. *)
Theorem returned_support (fuel : nat) (m : matrix) (db_ids : list string)
    (f : abundance) (out : list R) :
  dict_wf m -> EM_iterations fuel m db_ids = Returned f out ->
  (forall s, In s (keys f) <-> In s db_ids /\ exists r v, In ((r, s), v) m) /\
  NoDup (keys f) /\
  (forall s v, dict_get f s = Some v -> 0 < v) /\
  (2 <= List.length out)%nat /\
  (forall f' out', EM_iterations 1 m db_ids <> Returned f' out') /\
  (forall st0, EM_init db_ids = Ok st0 ->
               forall s, In s (keys (st_f st0)) <-> In s db_ids).
Proof.
  intros Hwf Hrun.
  assert (Hinit_keys : forall st0, EM_init db_ids = Ok st0 ->
                         forall s, In s (keys (st_f st0)) <-> In s db_ids).
  { intros st0 Hst0 s. apply EM_init_inv in Hst0 as [_ ->]. simpl.
    apply dict_fromkeys_keys. }
  unfold EM_iterations in Hrun.
  destruct (EM_init db_ids) as [st0 |] eqn:Hinit; [| discriminate].
  destruct (loop_returned_reach m db_ids fuel st0 f out (reach_init _ _ _ Hinit) Hrun)
    as (st & Hreach & Hret).
  pose proof (reach_covers m db_ids st Hwf Hreach) as (Hpos & Hsub & Hall).
  destruct (EM_iteration_Return m st f out Hwf Hpos Hret) as (-> & -> & Hprev).
  split; [| split; [| split; [| split; [| split]]]].
  - intros s. rewrite f_next_keys, joint_refs_In by assumption. split.
    + intros (Hs & [[r s'] v] & Hkv & <-). split; [now apply Hsub | eauto].
    + intros (Hdb & r & v & Hkv). split; [apply (Hall _ Hkv Hdb) | eauto].
  - rewrite f_next_keys. apply distinct_NoDup.
  - apply f_next_positive. now apply joint_wf.
  - pose proof (reach_out m db_ids st Hwf Hreach Hprev) as Hout.
    rewrite length_app. simpl.
    destruct (st_out st); [congruence | simpl; lia].
  - intros f' out'. apply EM_iterations_one.
  - assumption.
Qed.

Lemma returned_support_witness :
  exists out : list R,
    (forall s, In s (keys [("A", 1)]) <->
               In s ["A"] /\ exists r v, In ((r, s), v) matrix_one_read) /\
    NoDup (keys [("A", 1)]) /\
    (forall s v, dict_get [("A", 1)] s = Some v -> 0 < v) /\
    (2 <= List.length out)%nat /\
    (forall f' out', EM_iterations 1 matrix_one_read ["A"] <> Returned f' out') /\
    (forall st0, EM_init ["A"] = Ok st0 ->
                 forall s, In s (keys (st_f st0)) <-> In s ["A"]).
Proof.
  eexists.
  apply (returned_support 3 matrix_one_read ["A"]).
  - apply matrix_one_read_wf.
  - apply (single_reference_loop matrix_one_read ["A"] "A").
    + apply matrix_one_read_wf.
    + discriminate.
    + apply matrix_one_read_single.
    + simpl. tauto.
Defined.

(** ** Logarithm inequalities *)

Lemma ln_le_sub1 (x : R) : 0 < x -> ln x <= x - 1.
Proof.
  intros Hx. pose proof (exp_ineq1_le (ln x)) as Hexp.
  rewrite exp_ln in Hexp by assumption. lra.
Qed.

Lemma ln_div (x y : R) : 0 < x -> 0 < y -> ln (x / y) = ln x - ln y.
Proof.
  intros Hx Hy. unfold Rdiv.
  rewrite ln_mult, ln_Rinv; [lra | assumption | assumption |].
  now apply Rinv_0_lt_compat.
Qed.

(** The tangent of the logarithm at T lies above it. *)
Lemma ln_tangent (t T : R) : 0 < t -> 0 < T -> ln t <= ln T + t / T - 1.
Proof.
  intros Ht HT.
  pose proof (ln_le_sub1 (t / T) (Rdiv_lt_0_compat _ _ Ht HT)) as Hle.
  rewrite ln_div in Hle by assumption. lra.
Qed.

Lemma gibbs_term (x y : R) : 0 < x -> 0 < y -> x - y <= x * ln (x / y).
Proof.
  intros Hx Hy.
  pose proof (ln_le_sub1 (y / x) (Rdiv_lt_0_compat _ _ Hy Hx)) as Hle.
  rewrite ln_div in * by assumption.
  assert (Hmul : x * (ln y - ln x) <= x * (y / x - 1))
    by (apply Rmult_le_compat_l; lra).
  replace (x * (y / x - 1)) with (y - x) in Hmul by (field; lra).
  lra.
Qed.

(** Jensen's inequality for the logarithm and a finite weighted sum. *)
Lemma ln_jensen {X : Type} (p t : X -> R) (l : list X) :
  (forall x, In x l -> 0 <= p x) ->
  (forall x, In x l -> 0 < t x) ->
  py_sum (map p l) = 1 ->
  0 < py_sum (map (fun x => p x * t x) l) ->
  py_sum (map (fun x => p x * ln (t x)) l)
  <= ln (py_sum (map (fun x => p x * t x) l)).
Proof.
  intros Hp Ht Hone HT.
  set (T := py_sum (map (fun x => p x * t x) l)) in *.
  apply Rle_trans
    with (py_sum (map (fun x => p x * (ln T - 1) + p x * t x * / T) l)).
  - apply py_sum_map_le. intros x Hx.
    pose proof (ln_tangent (t x) T (Ht x Hx) HT) as Htan.
    replace (p x * (ln T - 1) + p x * t x * / T)
      with (p x * (ln T + t x / T - 1)) by (unfold Rdiv; ring).
    apply Rmult_le_compat_l; [now apply Hp | assumption].
  - rewrite py_sum_map_plus, !py_sum_map_scal, Hone. fold T.
    replace (T * / T) with 1 by (field; lra). lra.
Qed.

(** ** The EM map does not decrease the likelihood *)

Section EMMonotone.
Variable B : matrix.
Variable phi : string -> R.
Hypothesis B_inhabited : B <> [].
Hypothesis phi_pos : forall kv, In kv B -> 0 < phi (ref_of kv).
Hypothesis phi_mass : py_sum (map phi (refs B)) <= 1.

Let phi' := em_map B phi.
Let N := INR (List.length (reads B)).

Lemma em_N_pos : 0 < N.
Proof. apply reads_length_pos, B_inhabited. Qed.

Lemma em_weight_pos (kv : string * string * R) : In kv B -> 0 < joint_weight phi kv.
Proof.
  intros Hin. unfold joint_weight.
  apply Rmult_lt_0_compat; [apply exp_pos | now apply phi_pos].
Qed.

Lemma em_select_read_inhabited (r : string) :
  In r (reads B) -> select read_of r B <> [].
Proof.
  intros Hr E. destruct (reads_inhabited B r Hr) as (kv & Hkv & <-).
  assert (Hsel : In kv (select read_of (read_of kv) B))
    by (apply select_In; now split).
  rewrite E in Hsel. destruct Hsel.
Qed.

Lemma em_select_ref_inhabited (s : string) :
  In s (refs B) -> select ref_of s B <> [].
Proof.
  intros Hs E. destruct (refs_inhabited B s Hs) as (kv & Hkv & <-).
  assert (Hsel : In kv (select ref_of (ref_of kv) B))
    by (apply select_In; now split).
  rewrite E in Hsel. destruct Hsel.
Qed.

Lemma em_likelihood_pos (r : string) :
  In r (reads B) -> 0 < read_likelihood B phi r.
Proof.
  intros Hr. unfold read_likelihood. apply py_sum_map_pos.
  - now apply em_select_read_inhabited.
  - intros kv Hkv. apply select_In in Hkv as [Hkv _]. now apply em_weight_pos.
Qed.

Lemma em_posterior_pos (kv : string * string * R) : In kv B -> 0 < posterior B phi kv.
Proof.
  intros Hin. unfold posterior.
  apply Rdiv_lt_0_compat; [now apply em_weight_pos |].
  now apply em_likelihood_pos, reads_In.
Qed.

(** The posterior of a read sums to 1 over its references. *)
Lemma em_posterior_read_sum (r : string) :
  In r (reads B) -> py_sum (map (posterior B phi) (select read_of r B)) = 1.
Proof.
  intros Hr.
  rewrite (py_sum_map_ext _ (fun kv => joint_weight phi kv * / read_likelihood B phi r)).
  - rewrite py_sum_map_scal. fold (read_likelihood B phi r).
    apply Rinv_r, Rgt_not_eq. now apply em_likelihood_pos.
  - intros kv Hkv. apply select_In in Hkv as [_ <-]. reflexivity.
Qed.

Lemma em_posterior_ref_sum (s : string) :
  py_sum (map (posterior B phi) (select ref_of s B)) = N * phi' s.
Proof.
  unfold phi', em_map. fold N. pose proof em_N_pos. field. lra.
Qed.

Lemma em_phi'_pos (kv : string * string * R) : In kv B -> 0 < phi' (ref_of kv).
Proof.
  intros Hin. unfold phi', em_map. fold N.
  apply Rdiv_lt_0_compat; [| apply em_N_pos].
  apply py_sum_map_pos.
  - apply em_select_ref_inhabited. now apply refs_In.
  - intros x Hx. apply select_In in Hx as [Hx _]. now apply em_posterior_pos.
Qed.

Lemma em_phi'_mass : py_sum (map phi' (refs B)) = 1.
Proof.
  unfold phi', em_map. fold N. unfold Rdiv. rewrite py_sum_map_scal.
  rewrite (sum_partition ref_of (posterior B phi) (refs B) B).
  - rewrite <- (sum_partition read_of (posterior B phi) (reads B) B).
    + rewrite (py_sum_map_ext _ (fun _ => 1)) by apply em_posterior_read_sum.
      rewrite py_sum_map_const. fold N. pose proof em_N_pos. field. lra.
    + apply distinct_NoDup.
    + intros kv Hkv. now apply reads_In.
  - apply distinct_NoDup.
  - intros kv Hkv. now apply refs_In.
Qed.

Lemma em_likelihood'_pos (r : string) :
  In r (reads B) -> 0 < read_likelihood B phi' r.
Proof.
  intros Hr. unfold read_likelihood. apply py_sum_map_pos.
  - now apply em_select_read_inhabited.
  - intros kv Hkv. apply select_In in Hkv as [Hkv _]. unfold joint_weight.
    apply Rmult_lt_0_compat; [apply exp_pos | now apply em_phi'_pos].
Qed.

(** The likelihood ratio of a read is the posterior mean of the
    abundance ratios. *)
Lemma em_likelihood_ratio (r : string) :
  In r (reads B) ->
  py_sum (map (fun kv => posterior B phi kv * (phi' (ref_of kv) / phi (ref_of kv)))
              (select read_of r B))
  = read_likelihood B phi' r / read_likelihood B phi r.
Proof.
  intros Hr. unfold Rdiv at 2. unfold read_likelihood at 1.
  rewrite <- py_sum_map_scal.
  apply py_sum_map_ext. intros kv Hkv. apply select_In in Hkv as [Hkv <-].
  unfold posterior, joint_weight.
  pose proof (phi_pos kv Hkv).
  pose proof (em_likelihood_pos (read_of kv) Hr).
  field. split; lra.
Qed.

(** Jensen's inequality, read by read. *)
Lemma em_read_gain (r : string) :
  In r (reads B) ->
  py_sum (map (fun kv => posterior B phi kv
                         * ln (phi' (ref_of kv) / phi (ref_of kv)))
              (select read_of r B))
  <= ln (read_likelihood B phi' r) - ln (read_likelihood B phi r).
Proof.
  intros Hr.
  pose proof (em_likelihood_pos r Hr) as HA.
  pose proof (em_likelihood'_pos r Hr) as HA'.
  rewrite <- ln_div by assumption.
  rewrite <- em_likelihood_ratio by assumption.
  apply ln_jensen.
  - intros kv Hkv. apply select_In in Hkv as [Hkv _].
    left. now apply em_posterior_pos.
  - intros kv Hkv. apply select_In in Hkv as [Hkv _].
    apply Rdiv_lt_0_compat; [now apply em_phi'_pos | now apply phi_pos].
  - now apply em_posterior_read_sum.
  - rewrite em_likelihood_ratio by assumption. now apply Rdiv_lt_0_compat.
Qed.

(** Gibbs' inequality over the references. *)
Lemma em_relative_entropy :
  0 <= py_sum (map (fun s => phi' s * ln (phi' s / phi s)) (refs B)).
Proof.
  apply Rle_trans with (py_sum (map (fun s => phi' s + - phi s) (refs B))).
  - rewrite py_sum_map_plus, em_phi'_mass.
    rewrite (py_sum_map_ext (fun s => - phi s) (fun s => phi s * -1))
      by (intros; lra).
    rewrite py_sum_map_scal. lra.
  - apply py_sum_map_le. intros s Hs.
    destruct (refs_inhabited B s Hs) as (kv & Hkv & <-).
    pose proof (gibbs_term _ _ (em_phi'_pos kv Hkv) (phi_pos kv Hkv)). lra.
Qed.

(** One EM step does not decrease the total log-likelihood. *)
Lemma em_objective_monotone : objective B phi <= objective B phi'.
Proof.
  unfold objective.
  apply Rle_trans
    with (py_sum (map (fun r => ln (read_likelihood B phi r)
                                + py_sum (map (fun kv => posterior B phi kv
                                                 * ln (phi' (ref_of kv) / phi (ref_of kv)))
                                              (select read_of r B)))
                      (reads B))).
  - set (G := fun kv => posterior B phi kv * ln (phi' (ref_of kv) / phi (ref_of kv))).
    assert (HG : py_sum (map G B) =
                 py_sum (map (fun s => phi' s * ln (phi' s / phi s)) (refs B)) * N).
    { rewrite <- (sum_partition ref_of G (refs B) B);
        [| apply distinct_NoDup | intros kv Hkv; now apply refs_In].
      rewrite <- py_sum_map_scal.
      apply py_sum_map_ext. intros s Hs.
      rewrite (py_sum_map_ext G (fun kv => posterior B phi kv * ln (phi' s / phi s))).
      - rewrite py_sum_map_scal, em_posterior_ref_sum. ring.
      - intros kv Hkv. apply select_In in Hkv as [_ <-]. reflexivity. }
    rewrite py_sum_map_plus.
    rewrite (sum_partition read_of G (reads B) B);
      [| apply distinct_NoDup | intros kv Hkv; now apply reads_In].
    rewrite HG.
    pose proof em_relative_entropy. pose proof em_N_pos. nra.
  - apply py_sum_map_le. intros r Hr.
    pose proof (em_read_gain r Hr). lra.
Qed.
End EMMonotone.

(** ** Monotonicity along a run *)

Lemma objective_ext (B : matrix) (phi1 phi2 : string -> R) :
  (forall kv, In kv B -> phi1 (ref_of kv) = phi2 (ref_of kv)) ->
  objective B phi1 = objective B phi2.
Proof.
  intros Hext. unfold objective.
  apply py_sum_map_ext. intros r _. f_equal.
  unfold read_likelihood. apply py_sum_map_ext. intros kv Hkv.
  apply select_In in Hkv as [Hkv _]. unfold joint_weight.
  now rewrite Hext.
Qed.

Section RunMonotone.
Variable m : matrix.
Variable db_ids : list string.
Hypothesis m_wf : dict_wf m.

Let B := base m db_ids.

Lemma covers_joint (f : abundance) :
  covers m db_ids f ->
  joint m f = map (fun kv => (fst kv, snd kv + ln (abundance_of f (ref_of kv)))) B.
Proof. intros Hcov. unfold joint. now rewrite (covers_filter m db_ids f Hcov). Qed.

Lemma covers_joint_nil (f : abundance) :
  covers m db_ids f -> (joint m f = [] <-> B = []).
Proof.
  intros Hcov. rewrite covers_joint by assumption.
  split; [apply map_eq_nil | now intros ->].
Qed.

Lemma covers_abundance_pos (f : abundance) (kv : string * string * R) :
  covers m db_ids f -> In kv B -> 0 < abundance_of f (ref_of kv).
Proof.
  intros Hcov Hkv.
  assert (Hpos : positive_abundance f) by apply Hcov.
  apply (active_phi_pos m f Hpos).
  now rewrite (covers_filter m db_ids f Hcov).
Qed.

Lemma covers_total (f : abundance) :
  covers m db_ids f -> total_of (joint m f) = objective B (abundance_of f).
Proof.
  intros Hcov. rewrite (total_of_joint m f (proj1 Hcov)).
  now rewrite (covers_filter m db_ids f Hcov).
Qed.

Lemma covers_next_abundance (f : abundance) (kv : string * string * R) :
  covers m db_ids f -> In kv B ->
  abundance_of (f_next (joint m f)) (ref_of kv)
  = em_map B (abundance_of f) (ref_of kv).
Proof.
  intros Hcov Hkv. unfold abundance_of at 1.
  rewrite (f_next_joint_get m f (proj1 Hcov)).
  - now rewrite (covers_filter m db_ids f Hcov).
  - rewrite (covers_filter m db_ids f Hcov). now apply refs_In.
Qed.

(** Consecutive objectives of the iteration do not decrease. *)
Lemma EM_step_monotone (f : abundance) :
  covers m db_ids f -> mass_le m db_ids f -> B <> [] ->
  total_of (joint m f) <= total_of (joint m (f_next (joint m f))).
Proof.
  intros Hcov Hmass Hne.
  rewrite (covers_total f Hcov).
  rewrite (covers_total _ (covers_next m db_ids f m_wf Hcov)).
  rewrite (objective_ext B (abundance_of (f_next (joint m f)))
             (em_map B (abundance_of f)))
    by (intros kv Hkv; now apply covers_next_abundance).
  apply em_objective_monotone; try assumption.
  intros kv Hkv. now apply covers_abundance_pos.
Qed.

Lemma mass_le_next (f : abundance) :
  covers m db_ids f -> B <> [] -> mass_le m db_ids (f_next (joint m f)).
Proof.
  intros Hcov Hne. unfold mass_le. fold B.
  rewrite (py_sum_map_ext _ (em_map B (abundance_of f))).
  - rewrite em_phi'_mass; [lra | assumption |].
    intros kv Hkv. now apply covers_abundance_pos.
  - intros s Hs. destruct (refs_inhabited B s Hs) as (kv & Hkv & <-).
    now apply covers_next_abundance.
Qed.

Lemma mass_le_uniform :
  db_ids <> [] ->
  mass_le m db_ids (dict_fromkeys db_ids (1 / INR (List.length db_ids))).
Proof.
  intros Hne. unfold mass_le. fold B.
  assert (Hsub : forall s, In s (refs B) -> In s db_ids).
  { intros s Hs. destruct (refs_inhabited B s Hs) as (kv & Hkv & <-).
    unfold B, base in Hkv. apply filter_In in Hkv as [_ Hdb].
    destruct (in_dec string_dec (ref_of kv) db_ids); [assumption | discriminate]. }
  rewrite (py_sum_map_ext _ (fun _ => 1 / INR (List.length db_ids))).
  - rewrite py_sum_map_const.
    assert (Hlen : (List.length (refs B) <= List.length db_ids)%nat)
      by (apply NoDup_incl_length; [apply distinct_NoDup | exact Hsub]).
    apply le_INR in Hlen.
    assert (Hn : 0 < INR (List.length db_ids)).
    { apply lt_0_INR. destruct db_ids; [congruence | simpl; lia]. }
    apply Rmult_le_reg_r with (INR (List.length db_ids)); [assumption |].
    replace (INR (List.length (refs B)) * (1 / INR (List.length db_ids))
             * INR (List.length db_ids))
      with (INR (List.length (refs B))) by (field; lra).
    lra.
  - intros s Hs. unfold abundance_of. rewrite dict_fromkeys_get.
    destruct (in_dec string_dec s db_ids) as [| Hout]; [reflexivity |].
    exfalso. now apply Hout, Hsub.
Qed.

Lemma EM_iteration_Continue_inhabited (st st' : EM_state) :
  covers m db_ids (st_f st) -> EM_iteration m st = Continue st' -> B <> [].
Proof.
  intros Hcov Hstep HB.
  rewrite EM_iteration_positive in Hstep by (try assumption; apply Hcov).
  cbv zeta in Hstep.
  rewrite (proj2 (covers_joint_nil _ Hcov) HB) in Hstep.
  unfold f_next, refs, values, f_sum_ok in Hstep. simpl in Hstep.
  rewrite py_sum_nil, Rleb_false in Hstep by lra. discriminate.
Qed.

Lemma reach_history (st : EM_state) :
  EM_reach m db_ids st -> mass_le m db_ids (st_f st) /\ follows_update m db_ids st.
Proof.
  induction 1 as [st Hinit | st st' Hreach [IHmass IHhist] Hstep].
  - apply EM_init_inv in Hinit as [Hne ->]. split.
    + now apply mass_le_uniform.
    + intros prev. simpl. discriminate.
  - pose proof (reach_covers m db_ids st m_wf Hreach) as Hcov.
    pose proof (EM_iteration_Continue_inhabited st st' Hcov Hstep) as HB.
    apply EM_iteration_Continue in Hstep; [| assumption | apply Hcov].
    subst st'. cbn [st_f st_total]. split.
    + now apply mass_le_next.
    + intros prev [= <-]. exists (st_f st). repeat split; try assumption; apply Hcov.
Qed.
End RunMonotone.

Lemma one_read_st1_reach : EM_reach matrix_one_read ["A"] one_read_st1.
Proof.
  eapply reach_step.
  - apply reach_init. apply EM_init_ok. discriminate.
  - apply (single_first_step matrix_one_read ["A"] "A").
    + apply matrix_one_read_wf.
    + discriminate.
    + apply matrix_one_read_single.
    + simpl. tauto.
Qed.

Lemma one_read_update :
  EM_update matrix_one_read [("A", 1)] = Ok ([("A", 1)], one_read_t2).
Proof.
  assert (Hcov : covers matrix_one_read ["A"] [("A", 1)]).
  { apply (single_f1_covers matrix_one_read ["A"] "A").
    - apply matrix_one_read_wf.
    - discriminate.
    - apply matrix_one_read_single.
    - simpl. tauto. }
  rewrite EM_update_positive; [| apply matrix_one_read_wf | apply Hcov].
  rewrite (single_next matrix_one_read ["A"] "A"); try assumption.
  - reflexivity.
  - apply matrix_one_read_wf.
  - discriminate.
  - apply matrix_one_read_single.
  - simpl. tauto.
Qed.

Lemma one_read_f_sum_ok : f_sum_ok (py_sum (values [("A", 1)])) = true.
Proof.
  unfold values. cbn [map snd]. rewrite py_sum_cons, py_sum_nil.
  unfold f_sum_ok. now rewrite !Rleb_true by lra.
Qed.

(** ** No iteration of a run raises *)

Lemma loop_raised_reach (m : matrix) (db_ids : list string) (fuel : nat)
    (st : EM_state) (e : exn) :
  EM_reach m db_ids st -> EM_loop fuel m st = Raised e ->
  exists st', EM_reach m db_ids st' /\ EM_iteration m st' = Raise e.
Proof.
  revert st. induction fuel as [| fuel IH]; intros st Hreach; simpl; [discriminate |].
  destruct (EM_iteration m st) as [st1 | f1 out1 | e1] eqn:Hit.
  - apply IH. eapply reach_step; eassumption.
  - discriminate.
  - intros [= <-]. eauto.
Qed.

(** The mass of the updated vector at a loop-head state. *)
Lemma reach_iteration_mass (m : matrix) (db_ids : list string) (st : EM_state) :
  dict_wf m -> has_db_entry m db_ids -> EM_reach m db_ids st ->
  exists f' t,
    EM_update m (st_f st) = Ok (f', t) /\
    py_sum (values f') = 1 /\
    EM_iteration m st <> Raise ValueError_f_sum.
Proof.
  intros Hwf Hentry Hreach.
  pose proof (reach_covers m db_ids st Hwf Hreach) as Hcov.
  pose proof (covers_joint_nonempty m db_ids _ Hentry Hcov) as Hne.
  destruct Hcov as (Hpos & Hcov).
  pose proof (f_next_sum _ Hne) as Hsum.
  exists (f_next (joint m (st_f st))), (total_of (joint m (st_f st))).
  split; [now apply EM_update_positive |].
  split; [assumption |].
  rewrite EM_iteration_positive by assumption. cbv zeta.
  unfold f_sum_ok. rewrite Hsum, !Rleb_true by lra. simpl.
  destruct (diff_lt _ _ 0); [discriminate |].
  destruct (diff_lt _ _ (1 / 100)); discriminate.
Qed.

(** The objective at a loop-head state against the previous one. *)
Lemma reach_iteration_monotone (m : matrix) (db_ids : list string) (st : EM_state) :
  dict_wf m -> EM_reach m db_ids st ->
  exists f' t,
    EM_update m (st_f st) = Ok (f', t) /\
    (forall prev, st_total st = Some prev -> prev <= t) /\
    EM_iteration m st <> Raise ValueError_decreased.
Proof.
  intros Hwf Hreach.
  pose proof (reach_covers m db_ids st Hwf Hreach) as Hcov.
  destruct (reach_history m db_ids Hwf st Hreach) as [_ Hhist].
  assert (Hle : forall prev, st_total st = Some prev ->
                             prev <= total_of (joint m (st_f st))).
  { intros prev Hprev.
    destruct (Hhist prev Hprev) as (f_prev & Hcovp & Hmassp & HB & Hf & ->).
    rewrite Hf. now apply (EM_step_monotone m db_ids). }
  exists (f_next (joint m (st_f st))), (total_of (joint m (st_f st))).
  split; [apply EM_update_positive; [assumption | apply Hcov] |].
  split; [assumption |].
  rewrite EM_iteration_positive by (try assumption; apply Hcov). cbv zeta.
  destruct (negb _); [discriminate |].
  destruct (st_total st) as [prev |] eqn:Hprev; cbn [diff_lt].
  - specialize (Hle prev eq_refl). rewrite Rltb_false by lra.
    destruct (Rltb _ _); discriminate.
  - discriminate.
Qed.

Lemma EM_iteration_raises (m : matrix) (st : EM_state) (e : exn) :
  dict_wf m -> positive_abundance (st_f st) -> EM_iteration m st = Raise e ->
  e = ValueError_f_sum \/ e = ValueError_decreased.
Proof.
  intros Hwf Hpos. rewrite EM_iteration_positive by assumption. cbv zeta.
  destruct (negb _); [intros [= <-]; now left |].
  destruct (diff_lt _ _ 0); [intros [= <-]; now right |].
  destruct (diff_lt _ _ (1 / 100)); discriminate.
Qed.

(** On a well-formed matrix with an entry in the universe a run never
    raises: it returns or goes on. *)
Lemma EM_never_raises (m : matrix) (db_ids : list string) (fuel : nat) (e : exn) :
  dict_wf m -> has_db_entry m db_ids -> EM_iterations fuel m db_ids <> Raised e.
Proof.
  intros Hwf Hentry Hrun. unfold EM_iterations in Hrun.
  assert (Hne : db_ids <> []).
  { destruct Hentry as (kv & _ & Hdb). intros ->. destruct Hdb. }
  rewrite (EM_init_ok db_ids Hne) in Hrun.
  destruct (loop_raised_reach m db_ids fuel _ e
              (reach_init _ _ _ (EM_init_ok db_ids Hne)) Hrun)
    as (st & Hreach & Hraise).
  pose proof (reach_covers m db_ids st Hwf Hreach) as (Hpos & _).
  destruct (EM_iteration_raises m st e Hwf Hpos Hraise) as [-> | ->].
  - destruct (reach_iteration_mass m db_ids st Hwf Hentry Hreach)
      as (_ & _ & _ & _ & Hno). contradiction.
  - destruct (reach_iteration_monotone m db_ids st Hwf Hreach)
      as (_ & _ & _ & _ & Hno). contradiction.
Qed.

(** C1. For every EM run on a likelihood matrix with at least one entry
    whose reference belongs to the database universe, at every iteration
    the update yields an abundance vector whose values sum to 1, hence
    within [0.999, 1.0001], and the iteration does not raise the
    abundance-mass error; no run ends with that error. *)
Theorem abundance_mass_conserved (m : matrix) (db_ids : list string) :
  dict_wf m -> has_db_entry m db_ids ->
  (forall st,
      EM_reach m db_ids st ->
      exists f' t,
        EM_update m (st_f st) = Ok (f', t) /\
        py_sum (values f') = 1 /\
        999 / 1000 <= py_sum (values f') <= 10001 / 10000 /\
        EM_iteration m st <> Raise ValueError_f_sum) /\
  (forall fuel, EM_iterations fuel m db_ids <> Raised ValueError_f_sum).
Proof.
  intros Hwf Hentry. split.
  - intros st Hreach.
    destruct (reach_iteration_mass m db_ids st Hwf Hentry Hreach)
      as (f' & t & Hup & Hsum & Hno).
    exists f', t. repeat split; try assumption; rewrite Hsum; lra.
  - intros fuel. now apply EM_never_raises.
Qed.

Lemma abundance_mass_conserved_witness :
  (forall st,
      EM_reach matrix_one_read ["A"] st ->
      exists f' t,
        EM_update matrix_one_read (st_f st) = Ok (f', t) /\
        py_sum (values f') = 1 /\
        999 / 1000 <= py_sum (values f') <= 10001 / 10000 /\
        EM_iteration matrix_one_read st <> Raise ValueError_f_sum) /\
  (forall fuel, EM_iterations fuel matrix_one_read ["A"] <> Raised ValueError_f_sum).
Proof.
  apply (abundance_mass_conserved matrix_one_read ["A"]).
  - apply matrix_one_read_wf.
  - exists (("r1", "A"), -1). simpl. tauto.
Defined.

(** In exact arithmetic the objective of the EM run does not decrease: on
    a well-formed matrix the total log-likelihood computed in an
    iteration is at least the one of the previous iteration, and no run
    ends with the error for a decrease. The test itself is strict and has
    no tolerance: whenever an iteration computes a total below the
    previous one, by however little, it raises. In double precision the
    computed total can round below the previous one, and the source then
    raises where this idealised run goes on. *)
Theorem objective_non_decreasing (m : matrix) (db_ids : list string) :
  dict_wf m ->
  (forall st prev,
      EM_reach m db_ids st -> st_total st = Some prev ->
      exists f' t,
        EM_update m (st_f st) = Ok (f', t) /\ prev <= t /\
        EM_iteration m st <> Raise ValueError_decreased) /\
  (forall fuel, EM_iterations fuel m db_ids <> Raised ValueError_decreased) /\
  (forall st f' t prev,
      EM_update m (st_f st) = Ok (f', t) ->
      f_sum_ok (py_sum (values f')) = true ->
      st_total st = Some prev -> t < prev ->
      EM_iteration m st = Raise ValueError_decreased).
Proof.
  intros Hwf. split; [| split].
  - intros st prev Hreach Hprev.
    destruct (reach_iteration_monotone m db_ids st Hwf Hreach)
      as (f' & t & Hup & Hle & Hno).
    exists f', t. repeat split; try assumption. now apply Hle.
  - intros fuel Hrun. unfold EM_iterations in Hrun.
    destruct (EM_init db_ids) as [st0 |] eqn:Hinit.
    + destruct (loop_raised_reach m db_ids fuel st0 _ (reach_init _ _ _ Hinit) Hrun)
        as (st & Hreach & Hraise).
      destruct (reach_iteration_monotone m db_ids st Hwf Hreach)
        as (_ & _ & _ & _ & Hno). contradiction.
    + unfold EM_init, true_div in Hinit.
      destruct (Z.eq_dec _ _); simpl in Hinit; [| discriminate].
      injection Hinit as <-. discriminate.
  - intros st f' t prev Hup Hsum Hprev Hlt.
    unfold EM_iteration. rewrite Hup, Hsum, Hprev. cbn [negb diff_lt].
    now rewrite Rltb_true by lra.
Qed.

Lemma objective_non_decreasing_witness :
  (exists f' t,
      EM_update matrix_one_read (st_f one_read_st1) = Ok (f', t) /\
      one_read_t1 <= t /\
      EM_iteration matrix_one_read one_read_st1 <> Raise ValueError_decreased) /\
  EM_iteration matrix_one_read one_read_decreasing = Raise ValueError_decreased.
Proof.
  split.
  - apply (proj1 (objective_non_decreasing matrix_one_read ["A"]
                    matrix_one_read_wf) one_read_st1 one_read_t1).
    + apply one_read_st1_reach.
    + reflexivity.
  - apply (proj2 (proj2 (objective_non_decreasing matrix_one_read ["A"]
                           matrix_one_read_wf))
             one_read_decreasing [("A", 1)] one_read_t2 (one_read_t2 + 1)).
    + apply one_read_update.
    + apply one_read_f_sum_ok.
    + reflexivity.
    + lra.
Defined.

(** ** Termination of a run *)

Lemma py_sum_term_le {X : Type} (g : X -> R) (l : list X) (x : X) :
  (forall y, In y l -> 0 <= g y) -> In x l -> g x <= py_sum (map g l).
Proof.
  induction l as [| y l IH]; intros Hg Hin; [destruct Hin |].
  simpl. rewrite py_sum_cons.
  assert (Hrest : 0 <= py_sum (map g l))
    by (apply py_sum_map_nonneg; intros z Hz; apply Hg; now right).
  destruct Hin as [-> | Hin].
  - lra.
  - specialize (IH (fun z Hz => Hg z (or_intror Hz)) Hin).
    specialize (Hg y (or_introl eq_refl)). lra.
Qed.

Section RunTerminates.
Variable m : matrix.
Variable db_ids : list string.
Hypothesis m_wf : dict_wf m.
Hypothesis m_entry : has_db_entry m db_ids.

Let B := base m db_ids.

(** The objective of the abundance vector that is 1 everywhere bounds the
    objective of every abundance vector of mass at most 1. *)
Lemma objective_bounded (f : abundance) :
  covers m db_ids f -> mass_le m db_ids f ->
  total_of (joint m f) <= objective B (fun _ => 1).
Proof.
  intros Hcov Hmass. rewrite (covers_total m db_ids f Hcov). fold B.
  assert (Hle1 : forall kv, In kv B -> abundance_of f (ref_of kv) <= 1).
  { intros kv Hkv. eapply Rle_trans; [| exact Hmass]. fold B.
    apply (py_sum_term_le (abundance_of f) (refs B) (ref_of kv)).
    - intros s Hs. destruct (refs_inhabited B s Hs) as (kv' & Hkv' & <-).
      left. now apply (covers_abundance_pos m db_ids).
    - now apply refs_In. }
  unfold objective. apply py_sum_map_le. intros r Hr.
  assert (Hsel : select read_of r B <> []).
  { intros E. destruct (reads_inhabited B r Hr) as (kv & Hkv & <-).
    assert (Hin : In kv (select read_of (read_of kv) B))
      by (apply select_In; now split).
    rewrite E in Hin. destruct Hin. }
  apply ln_le_compat.
  - unfold read_likelihood. apply py_sum_map_pos; [assumption |].
    intros kv Hkv. apply select_In in Hkv as [Hkv _]. unfold joint_weight.
    apply Rmult_lt_0_compat; [apply exp_pos |].
    now apply (covers_abundance_pos m db_ids).
  - unfold read_likelihood. apply py_sum_map_le.
    intros kv Hkv. apply select_In in Hkv as [Hkv _]. unfold joint_weight.
    pose proof (exp_pos (snd kv)). specialize (Hle1 kv Hkv). nra.
Qed.

Lemma reach_bounded (st : EM_state) (prev : R) :
  EM_reach m db_ids st -> st_total st = Some prev ->
  prev <= objective B (fun _ => 1).
Proof.
  intros Hreach Hprev.
  destruct (reach_history m db_ids m_wf st Hreach) as [_ Hhist].
  destruct (Hhist prev Hprev) as (f_prev & Hcov & Hmass & _ & _ & ->).
  now apply objective_bounded.
Qed.

(** Each iteration that goes on gains at least the threshold. *)
Lemma Continue_gain (st st' : EM_state) (prev : R) :
  EM_reach m db_ids st -> st_total st = Some prev ->
  EM_iteration m st = Continue st' ->
  exists t, st_total st' = Some t /\ prev + 1 / 100 <= t.
Proof.
  intros Hreach Hprev Hstep.
  pose proof (reach_covers m db_ids st m_wf Hreach) as (Hpos & _).
  rewrite EM_iteration_positive in Hstep by assumption. cbv zeta in Hstep.
  destruct (negb _); [discriminate |].
  rewrite Hprev in Hstep. cbn [diff_lt] in Hstep.
  destruct (Rltb _ 0); [discriminate |].
  destruct (Rltb _ (1 / 100)) eqn:E; [discriminate |].
  injection Hstep as <-. eexists. split; [reflexivity |].
  unfold Rltb in E. destruct (Rlt_dec _ _); [discriminate | lra].
Qed.

Lemma loop_returns (fuel : nat) (st : EM_state) (prev : R) :
  EM_reach m db_ids st -> st_total st = Some prev ->
  objective B (fun _ => 1) - prev < 1 / 100 * INR fuel ->
  exists f out, EM_loop fuel m st = Returned f out.
Proof.
  revert st prev.
  induction fuel as [| fuel IH]; intros st prev Hreach Hprev Hfuel.
  - pose proof (reach_bounded st prev Hreach Hprev). simpl in Hfuel. lra.
  - cbn [EM_loop].
    destruct (EM_iteration m st) as [st1 | f1 out1 | e] eqn:Hit.
    + destruct (Continue_gain st st1 prev Hreach Hprev Hit) as (t & Ht & Hgain).
      apply (IH st1 t); [eapply reach_step; eassumption | assumption |].
      rewrite S_INR in Hfuel. lra.
    + eauto.
    + exfalso.
      pose proof (reach_covers m db_ids st m_wf Hreach) as (Hpos & _).
      destruct (EM_iteration_raises m st e m_wf Hpos Hit) as [-> | ->].
      * destruct (reach_iteration_mass m db_ids st m_wf m_entry Hreach)
          as (_ & _ & _ & _ & Hno). contradiction.
      * destruct (reach_iteration_monotone m db_ids st m_wf Hreach)
          as (_ & _ & _ & _ & Hno). contradiction.
Qed.

(** Every run on a well-formed matrix with an entry in the universe
    returns, given enough iterations. *)
Lemma EM_terminates :
  exists fuel f out, EM_iterations fuel m db_ids = Returned f out.
Proof.
  assert (Hne : db_ids <> []).
  { destruct m_entry as (kv & _ & Hdb). intros ->. destruct Hdb. }
  set (st0 := {| st_f := dict_fromkeys db_ids (1 / INR (List.length db_ids));
                 st_total := None; st_out := [] |}).
  assert (Hreach0 : EM_reach m db_ids st0)
    by (apply reach_init; now apply EM_init_ok).
  destruct (EM_iteration m st0) as [st1 | f1 out1 | e] eqn:Hit.
  - pose proof (reach_step m db_ids st0 st1 Hreach0 Hit) as Hreach1.
    pose proof (reach_covers m db_ids st0 m_wf Hreach0) as (Hpos & _).
    pose proof (EM_iteration_Continue m st0 st1 m_wf Hpos Hit) as Est1.
    set (t1 := total_of (joint m (st_f st0))) in *.
    assert (Ht1 : st_total st1 = Some t1) by (now rewrite Est1).
    destruct (INR_unbounded ((objective B (fun _ => 1) - t1) * 100)) as [k Hk].
    destruct (loop_returns k st1 t1 Hreach1 Ht1) as (f & out & Hloop); [lra |].
    exists (S k), f, out.
    unfold EM_iterations. rewrite (EM_init_ok db_ids Hne). fold st0.
    cbn [EM_loop]. now rewrite Hit.
  - exfalso. now apply (EM_iteration_first m st0 f1 out1).
  - exfalso.
    apply (EM_never_raises m db_ids 1 e m_wf m_entry).
    unfold EM_iterations. rewrite (EM_init_ok db_ids Hne). fold st0.
    cbn [EM_loop]. now rewrite Hit.
Qed.
End RunTerminates.

(** More iterations do not change the result of a run that has returned. *)
Lemma EM_loop_more_fuel (m : matrix) (fuel k : nat) (st : EM_state)
    (f : abundance) (out : list R) :
  EM_loop fuel m st = Returned f out -> EM_loop (fuel + k) m st = Returned f out.
Proof.
  revert st. induction fuel as [| fuel IH]; intros st; simpl; [discriminate |].
  destruct (EM_iteration m st) as [st1 | f1 out1 | e]; auto.
Qed.

Lemma EM_iterations_more_fuel (m : matrix) (db_ids : list string) (fuel k : nat)
    (f : abundance) (out : list R) :
  EM_iterations fuel m db_ids = Returned f out ->
  EM_iterations (fuel + k) m db_ids = Returned f out.
Proof.
  unfold EM_iterations. destruct (EM_init db_ids) as [st |]; [| discriminate].
  apply EM_loop_more_fuel.
Qed.

(** * Further properties of the code *)

(** ** The tally converter *)

(** X1. The converter raises [KeyError] exactly on a tally of fewer than
    11 counts; counts beyond the eleventh are ignored; and on 11 counts or
    more it returns a dictionary whose keys are M, I, D, N, S, H, P, =, X,
    B, C in that order (NM is removed, C is appended). *)
Theorem get_align_stats_length (l : list Z) :
  (get_align_stats l = Err KeyError <-> (List.length l < 11)%nat) /\
  (forall rest, List.length l = 11%nat ->
                get_align_stats (l ++ rest) = get_align_stats l) /\
  ((11 <= List.length l)%nat ->
   exists st, get_align_stats l = Ok st /\ keys st = categories).
Proof.
  split; [| split].
  - split.
    + intros Herr.
      destruct (le_lt_dec 11 (List.length l)) as [Hlen | Hlen]; [| assumption].
      destruct (get_align_stats_shape l Hlen)
        as (m & i & d & n & s & h & p & e & x & b & c & E).
      congruence.
    + apply get_align_stats_short.
  - intros rest Hlen.
    do 11 (destruct l as [| ? l]; [discriminate |]).
    destruct l; [| discriminate].
    simpl app. now rewrite !get_align_stats_long.
  - intros Hlen.
    destruct (get_align_stats_shape l Hlen)
      as (m & i & d & n & s & h & p & e & x & b & c & E).
    eexists. split; [exact E | reflexivity].
Qed.

Lemma get_align_stats_length_witness :
  get_align_stats [1; 2; 3]%Z = Err KeyError /\
  get_align_stats ([90; 2; 1; 0; 5; 0; 0; 0; 0; 0; 5] ++ [7; 7])%Z =
  get_align_stats [90; 2; 1; 0; 5; 0; 0; 0; 0; 0; 5]%Z /\
  exists st, get_align_stats [90; 2; 1; 0; 5; 0; 0; 0; 0; 0; 5; 7]%Z = Ok st /\
             keys st = categories.
Proof.
  split; [| split].
  - apply (proj1 (get_align_stats_length [1; 2; 3]%Z)). simpl. lia.
  - apply (proj1 (proj2 (get_align_stats_length
                           [90; 2; 1; 0; 5; 0; 0; 0; 0; 0; 5]%Z))).
    reflexivity.
  - apply (proj2 (proj2 (get_align_stats_length
                           [90; 2; 1; 0; 5; 0; 0; 0; 0; 0; 5; 7]%Z))).
    simpl. lia.
Defined.

(** X2. Whenever the converter returns, the scored categories of its
    result add up to what M, I, D, S and H add up to in the raw tally:
    the edit distance moves columns between match and substitution and
    cancels in the total, and match' + substitution is the raw match
    count. *)
Theorem get_align_stats_total (l : list Z) (st : dict string Z) :
  get_align_stats l = Ok st ->
  (counter_get st "M" + counter_get st "X" = nth 0 l 0)%Z /\
  (counter_get st "M" + counter_get st "X" + counter_get st "I"
   + counter_get st "D" + counter_get st "C"
   = nth 0 l 0 + nth 1 l 0 + nth 2 l 0 + nth 4 l 0 + nth 5 l 0)%Z /\
  (counter_get st "X" + counter_get st "I" + counter_get st "D" = nth 10 l 0)%Z.
Proof.
  intros Hst.
  destruct (le_lt_dec 11 (List.length l)) as [Hlen | Hlen].
  - do 11 (destruct l as [| ? l]; [simpl in Hlen; lia |]).
    rewrite get_align_stats_long in Hst. injection Hst as <-.
    unfold counter_get. simpl. repeat split; lia.
  - rewrite get_align_stats_short in Hst by assumption. discriminate.
Qed.

Lemma get_align_stats_total_witness :
  exists st,
    get_align_stats [90; 2; 1; 0; 5; 0; 0; 0; 0; 0; 5]%Z = Ok st /\
    (counter_get st "M" + counter_get st "X" = 90)%Z /\
    (counter_get st "M" + counter_get st "X" + counter_get st "I"
     + counter_get st "D" + counter_get st "C" = 90 + 2 + 1 + 5 + 0)%Z /\
    (counter_get st "X" + counter_get st "I" + counter_get st "D" = 5)%Z.
Proof.
  eexists. split; [reflexivity |].
  apply (get_align_stats_total [90; 2; 1; 0; 5; 0; 0; 0; 0; 0; 5]%Z).
  reflexivity.
Defined.

(** ** The probability model *)

Lemma char_align_stats_primary_filter (reads : list alignment) (acc : dict string Z) :
  char_align_stats_primary reads acc =
  char_align_stats_primary (filter is_primary reads) acc.
Proof.
  revert acc. induction reads as [| a reads IH]; intros acc; [reflexivity |].
  simpl. destruct (is_primary a) eqn:Hp; simpl.
  - rewrite Hp. destruct (get_align_stats (cigar_stats a)); simpl; [apply IH | reflexivity].
  - apply IH.
Qed.

(** X3. Secondary and supplementary records have no influence on the
    probability model: the model of a file is the model of its primary
    records. *)
Theorem model_ignores_non_primary (samfile : list alignment) :
  get_char_align_probabilites samfile =
  get_char_align_probabilites (filter is_primary samfile).
Proof.
  unfold get_char_align_probabilites.
  now rewrite char_align_stats_primary_filter.
Qed.

Lemma counter_add_keys (a b : dict string Z) (k : string) :
  dict_wf a -> dict_wf b ->
  In k (keys (counter_add a b)) -> In k (keys a) \/ In k (keys b).
Proof.
  intros Ha Hb Hin. apply dict_mem_true in Hin. unfold dict_mem in Hin.
  rewrite counter_add_get in Hin by assumption.
  destruct (in_dec string_dec k (keys a)) as [| Hna]; [now left |].
  destruct (in_dec string_dec k (keys b)) as [| Hnb]; [now right |].
  rewrite !counter_get_absent in Hin by assumption. discriminate.
Qed.

Lemma char_align_stats_primary_keys (reads : list alignment) (acc c : dict string Z) :
  dict_wf acc -> (forall k, In k (keys acc) -> In k categories) ->
  char_align_stats_primary reads acc = Ok c ->
  forall k, In k (keys c) -> In k categories.
Proof.
  revert acc. induction reads as [| a reads IH]; intros acc Hwf Hsub; simpl.
  - now intros [= <-].
  - destruct (is_primary a); [| now apply IH].
    destruct (get_align_stats (cigar_stats a)) as [st |] eqn:Hst; simpl;
      [| discriminate].
    apply IH; [apply counter_add_wf |].
    intros k Hk.
    apply counter_add_keys in Hk as [Hk | Hk];
      [now apply Hsub | | assumption | eapply tally_wf; eassumption].
    now rewrite (tally_keys _ _ Hst) in Hk.
Qed.

Lemma py_sumZ_term_le (l : list Z) (v : Z) :
  (forall x, In x l -> 0 < x)%Z -> In v l -> (v <= py_sumZ l)%Z.
Proof.
  induction l as [| x l IH]; intros Hpos Hin; [destruct Hin |].
  rewrite py_sumZ_cons.
  assert (Hrest : (0 <= py_sumZ l)%Z).
  { destruct l as [| y l']; [unfold py_sumZ; simpl; lia |].
    apply Z.lt_le_incl, py_sumZ_pos; [discriminate |].
    intros z Hz. apply Hpos. now right. }
  destruct Hin as [-> | Hin]; [lia |].
  specialize (IH (fun z Hz => Hpos z (or_intror Hz)) Hin).
  specialize (Hpos x (or_introl eq_refl)). lia.
Qed.

Lemma probabilities_of_keys (c : dict string Z) : keys (probabilities_of c) = keys c.
Proof. unfold probabilities_of, keys. rewrite map_map. reflexivity. Qed.

(** The counter and the model behind a completed build. *)
Lemma model_inv (samfile : list alignment) (model : dict string R) :
  get_char_align_probabilites samfile = Ok model ->
  exists c, char_align_stats_primary samfile [] = Ok c /\
            dict_wf c /\ positive_counts c /\ model = probabilities_of c.
Proof.
  unfold get_char_align_probabilites.
  destruct (char_align_stats_primary samfile []) as [c |] eqn:Hc; simpl;
    [| discriminate].
  destruct (char_align_stats_primary_pos samfile [] c) as [Hwf Hpos];
    [apply dict_wf_nil | intros k v; discriminate | assumption |].
  rewrite normalize_counts_pos by assumption.
  intros [= <-]. exists c. auto.
Qed.

(** X4. Whatever the tallies, a model that is built is a probability
    distribution over converted categories: its keys are distinct
    categories, every stored probability lies in (0, 1], and unless the
    model is empty the probabilities sum to 1. *)
Theorem model_is_distribution (samfile : list alignment) (model : dict string R) :
  get_char_align_probabilites samfile = Ok model ->
  dict_wf model /\
  (forall k, In k (keys model) -> In k categories) /\
  (forall k p, dict_get model k = Some p -> 0 < p <= 1) /\
  (model <> [] -> py_sum (values model) = 1).
Proof.
  intros Hmodel.
  destruct (model_inv samfile model Hmodel) as (c & Hc & Hwf & Hpos & ->).
  assert (Hvals : forall v, In v (values c) -> (0 < v)%Z)
    by now apply positive_counts_values.
  split; [| split; [| split]].
  - unfold dict_wf. now rewrite probabilities_of_keys.
  - rewrite probabilities_of_keys.
    apply (char_align_stats_primary_keys samfile [] c);
      [apply dict_wf_nil | intros k [] | assumption].
  - intros k p. rewrite probabilities_of_get.
    destruct (dict_get c k) as [v |] eqn:E; simpl; [| discriminate].
    intros [= <-].
    assert (Hin : In v (values c)).
    { apply dict_get_Some_In in E. unfold values.
      change v with (snd (k, v)). now apply in_map. }
    pose proof (Hvals v Hin) as Hv.
    pose proof (py_sumZ_term_le (values c) v Hvals Hin) as Hle.
    assert (Hn : 0 < IZR (py_sumZ (values c))) by (apply IZR_lt; lia).
    apply IZR_lt in Hv. apply IZR_le in Hle.
    split; [now apply Rdiv_lt_0_compat |].
    apply Rmult_le_reg_r with (IZR (py_sumZ (values c))); [assumption |].
    replace (IZR v / IZR (py_sumZ (values c)) * IZR (py_sumZ (values c)))
      with (IZR v) by (field; lra).
    lra.
  - intros Hne. apply probabilities_of_sum.
    assert (0 < py_sumZ (values c))%Z; [| lia].
    apply py_sumZ_pos; [| assumption].
    destruct c; [now elim Hne | discriminate].
Qed.

Lemma model_is_distribution_witness :
  exists model,
    get_char_align_probabilites sam_negative_substitution = Ok model /\
    dict_wf model /\
    (forall k, In k (keys model) -> In k categories) /\
    (forall k p, dict_get model k = Some p -> 0 < p <= 1) /\
    (model <> [] -> py_sum (values model) = 1).
Proof.
  eexists. split; [reflexivity |].
  apply (model_is_distribution sam_negative_substitution). reflexivity.
Defined.

Lemma category_sum_perm (k : string) (l l' : list alignment) :
  Permutation l l' -> category_sum k l = category_sum k l'.
Proof.
  induction 1 as [| a l l' _ IH | a b l | l l' l'' _ IH1 _ IH2]; simpl.
  - reflexivity.
  - now rewrite IH.
  - destruct (is_primary a), (is_primary b); lia.
  - congruence.
Qed.

Lemma total_sum_perm (l l' : list alignment) :
  Permutation l l' -> total_sum l = total_sum l'.
Proof.
  intros Hperm. unfold total_sum.
  induction categories as [| k ks IH]; simpl; [reflexivity |].
  now rewrite IH, (category_sum_perm k l l' Hperm).
Qed.

Lemma positive_counts_get (c : dict string Z) (k : string) :
  positive_counts c ->
  dict_get c k = if (0 <? counter_get c k)%Z then Some (counter_get c k) else None.
Proof.
  intros Hpos. unfold counter_get.
  destruct (dict_get c k) as [v |] eqn:E; [| reflexivity].
  specialize (Hpos k v E). apply Z.ltb_lt in Hpos. now rewrite Hpos.
Qed.

(** X5. On tallies of non-negative converted counts the probability of
    each category does not depend on the order of the records: a
    permutation of the file yields a model with the same lookups. *)
Theorem model_order_independent (samfile samfile' : list alignment) :
  Permutation samfile samfile' ->
  well_shaped samfile -> nonneg_tallies samfile ->
  exists model model',
    get_char_align_probabilites samfile = Ok model /\
    get_char_align_probabilites samfile' = Ok model' /\
    forall k, dict_get model k = dict_get model' k.
Proof.
  intros Hperm Hws Hnn.
  assert (Hws' : well_shaped samfile').
  { intros a Ha. apply Hws. eapply Permutation_in; [| eassumption].
    now apply Permutation_sym. }
  assert (Hnn' : nonneg_tallies samfile').
  { intros a Ha. apply Hnn. eapply Permutation_in; [| eassumption].
    now apply Permutation_sym. }
  destruct (model_of_nonneg_tallies samfile Hws Hnn)
    as (c & _ & _ & Hpos & Hmodel & Hsum & Hn).
  destruct (model_of_nonneg_tallies samfile' Hws' Hnn')
    as (c' & _ & _ & Hpos' & Hmodel' & Hsum' & Hn').
  exists (probabilities_of c), (probabilities_of c').
  split; [assumption |]. split; [assumption |].
  intros k. rewrite !probabilities_of_get, Hn, Hn'.
  rewrite (positive_counts_get c k Hpos), (positive_counts_get c' k Hpos').
  rewrite Hsum, Hsum'.
  now rewrite (category_sum_perm k _ _ Hperm), (total_sum_perm _ _ Hperm).
Qed.

Lemma model_order_independent_witness :
  exists model model',
    get_char_align_probabilites
      [primary_record "r1" "A" [90; 2; 1; 0; 5; 0; 0; 0; 0; 0; 5]%Z;
       primary_record "r2" "B" [10; 0; 0; 0; 0; 0; 0; 0; 0; 0; 3]%Z] = Ok model /\
    get_char_align_probabilites
      [primary_record "r2" "B" [10; 0; 0; 0; 0; 0; 0; 0; 0; 0; 3]%Z;
       primary_record "r1" "A" [90; 2; 1; 0; 5; 0; 0; 0; 0; 0; 5]%Z] = Ok model' /\
    forall k, dict_get model k = dict_get model' k.
Proof.
  apply model_order_independent.
  - apply perm_swap.
  - intros a [<- | [<- | []]] _; simpl; lia.
  - intros a [<- | [<- | []]] _; vm_compute; repeat constructor; discriminate.
Defined.

(** ** Scores *)

Lemma positive_model_of_probability (p : dict string R) :
  probability_model p -> positive_model p.
Proof. intros Hp k v Hk. now apply (Hp k v). Qed.

Lemma log_likelihood_cons (p : dict string R) (st : dict string Z) (c : string)
    (chars : list string) :
  log_likelihood p st (c :: chars) =
  match dict_get p c with
  | Some pc => ln pc * IZR (counter_get st c)
  | None => 0
  end + log_likelihood p st chars.
Proof. unfold log_likelihood. simpl. now rewrite py_sum_cons. Qed.

(** A score that is computed is the log-likelihood, and no category that
    the model lacks has a positive count. *)
Lemma compute_log_L_rgs_from_Some_inv (p : dict string R) (st : dict string Z)
    (chars : list string) (value v : R) :
  positive_model p ->
  compute_log_L_rgs_from p st chars value = Ok (Some v) ->
  v = value + log_likelihood p st chars /\
  forall c, In c chars -> dict_mem p c = false -> (counter_get st c <= 0)%Z.
Proof.
  intros Hpos. revert value.
  induction chars as [| char rest IH]; intros value; simpl.
  - intros [= <-]. unfold log_likelihood. simpl. rewrite py_sum_nil.
    split; [lra | intros c []].
  - rewrite log_likelihood_cons. unfold dict_mem, getitem.
    destruct (dict_get p char) as [pc |] eqn:Ep; simpl.
    + rewrite math_log_ok by (eapply Hpos; eassumption). simpl.
      destruct (dict_get st char) as [n |] eqn:En; simpl; [| discriminate].
      intros Hrest. apply IH in Hrest as [-> Hle].
      rewrite (counter_get_Some _ _ _ En). split; [lra |].
      intros c [<- | Hc] Hmem; [| now apply Hle].
      unfold dict_mem in Hmem. rewrite Ep in Hmem. discriminate.
    + destruct (dict_get st char) as [n |] eqn:En; simpl; [| discriminate].
      destruct (0 <? n)%Z eqn:El; [discriminate |].
      intros Hrest. apply IH in Hrest as [-> Hle].
      split; [lra |].
      intros c [<- | Hc] Hmem; [| now apply Hle].
      rewrite (counter_get_Some _ _ _ En). now apply Z.ltb_ge.
Qed.

Lemma compute_log_L_rgs_from_Some (p : dict string R) (st : dict string Z)
    (chars : list string) (value : R) :
  positive_model p ->
  (forall c, In c chars -> dict_get st c <> None) ->
  (forall c, In c chars -> dict_mem p c = false -> (counter_get st c <= 0)%Z) ->
  exists v, compute_log_L_rgs_from p st chars value = Ok (Some v).
Proof.
  intros Hpos. revert value.
  induction chars as [| char rest IH]; intros value Hkeys Hle; simpl; [eauto |].
  assert (Hst : exists n, dict_get st char = Some n).
  { destruct (dict_get st char) as [n |] eqn:E; [eauto |].
    exfalso. now apply (Hkeys char (or_introl eq_refl)). }
  destruct Hst as [n Hn].
  assert (Hkeys' : forall c, In c rest -> dict_get st c <> None)
    by (intros c Hc; apply Hkeys; now right).
  assert (Hle' : forall c, In c rest -> dict_mem p c = false ->
                           (counter_get st c <= 0)%Z)
    by (intros c Hc; apply Hle; now right).
  specialize (Hle char (or_introl eq_refl)).
  unfold dict_mem in *. unfold getitem.
  destruct (dict_get p char) as [pc |] eqn:Ep; simpl.
  - rewrite math_log_ok by (eapply Hpos; eassumption). simpl.
    rewrite Hn. simpl. now apply IH.
  - rewrite Hn. simpl.
    specialize (Hle eq_refl). rewrite (counter_get_Some _ _ _ Hn) in Hle.
    apply Z.ltb_ge in Hle. rewrite Hle. now apply IH.
Qed.

Lemma compute_log_L_rgs_from_defined (p : dict string R) (st : dict string Z)
    (chars : list string) (value : R) :
  positive_model p ->
  (forall c, In c chars -> dict_get st c <> None) ->
  exists o, compute_log_L_rgs_from p st chars value = Ok o.
Proof.
  intros Hpos. revert value.
  induction chars as [| char rest IH]; intros value Hkeys; simpl; [eauto |].
  assert (Hst : exists n, dict_get st char = Some n).
  { destruct (dict_get st char) as [n |] eqn:E; [eauto |].
    exfalso. now apply (Hkeys char (or_introl eq_refl)). }
  destruct Hst as [n Hn].
  assert (Hkeys' : forall c, In c rest -> dict_get st c <> None)
    by (intros c Hc; apply Hkeys; now right).
  unfold dict_mem, getitem.
  destruct (dict_get p char) as [pc |] eqn:Ep; simpl.
  - rewrite math_log_ok by (eapply Hpos; eassumption). simpl.
    rewrite Hn. simpl. now apply IH.
  - rewrite Hn. simpl. destruct (0 <? n)%Z; [eauto | now apply IH].
Qed.

Lemma score_tally (p : dict string R) (a : alignment) (o : option R) :
  score p a = Ok o ->
  get_align_stats (cigar_stats a) = Ok (tally_of a) /\
  compute_log_L_rgs p (tally_of a) = Ok o.
Proof.
  unfold score, tally_of.
  destruct (get_align_stats (cigar_stats a)) as [st |]; simpl; [| discriminate].
  auto.
Qed.

(** X6. Under a model of positive probabilities a record of 11 counts or
    more always has a defined outcome: it is unscorable (no score) exactly
    when a scored category that the model lacks has a positive count, and
    otherwise its score is the sum, over the scored categories that the
    model holds, of count times log probability; categories that the model
    lacks contribute nothing. *)
Theorem score_characterised (p : dict string R) (a : alignment) :
  positive_model p -> (11 <= List.length (cigar_stats a))%nat ->
  (score p a = Ok None <-> unscorable p a) /\
  (forall v, score p a = Ok (Some v) ->
             v = log_likelihood p (tally_of a) scored_chars) /\
  (exists o, score p a = Ok o).
Proof.
  intros Hpos Hlen.
  assert (Hinv : forall v, score p a = Ok (Some v) ->
                   v = log_likelihood p (tally_of a) scored_chars /\
                   ~ unscorable p a).
  { intros v Hv. apply score_tally in Hv as [_ Hv].
    apply (compute_log_L_rgs_from_Some_inv p _ _ 0 v Hpos) in Hv as [-> Hle].
    split; [lra |].
    intros (c & Hc & Hmem & Hgt). specialize (Hle c Hc Hmem). lia. }
  split; [| split].
  - split; [| now apply unscorable_score].
    intros Hnone.
    destruct (get_align_stats_shape _ Hlen)
      as (m0 & i & d & n & s & h & x0 & e0 & x & b & c & Hst).
    assert (Hkeys : forall ch, In ch scored_chars -> dict_get (tally_of a) ch <> None).
    { intros ch Hch Hn. apply dict_get_None in Hn. apply Hn.
      unfold tally_of. rewrite Hst. unfold scored_chars in Hch. simpl in *. tauto. }
    assert (Hdec : forall l : list string,
               (exists ch, In ch l /\ dict_mem p ch = false /\
                           (0 < counter_get (tally_of a) ch)%Z) \/
               (forall ch, In ch l -> dict_mem p ch = false ->
                           (counter_get (tally_of a) ch <= 0)%Z)).
    { induction l as [| ch l [IHl | IHl]].
      - right. intros ch [].
      - left. destruct IHl as (ch' & Hin & Hrest). exists ch'. split; [now right | assumption].
      - destruct (dict_mem p ch) eqn:Em.
        + right. intros ch' [<- | Hin] Hm; [congruence | now apply IHl].
        + destruct (Z_lt_dec 0 (counter_get (tally_of a) ch)) as [Hgt | Hle].
          * left. exists ch. split; [now left | auto].
          * right. intros ch' [<- | Hin] Hm; [lia | now apply IHl]. }
    destruct (Hdec scored_chars) as [Hun | Hle]; [exact Hun |].
    exfalso.
    destruct (compute_log_L_rgs_from_Some p (tally_of a) scored_chars 0 Hpos Hkeys Hle)
      as [v Hv].
    unfold score in Hnone. unfold tally_of in Hv. rewrite Hst in *. simpl in Hnone.
    unfold compute_log_L_rgs in Hnone. congruence.
  - intros v Hv. now apply Hinv.
  - destruct (get_align_stats_shape _ Hlen)
      as (m0 & i & d & n & s & h & x0 & e0 & x & b & c & Hst).
    unfold score. rewrite Hst. simpl.
    apply compute_log_L_rgs_from_defined; [assumption |].
    intros ch Hch Hn. apply dict_get_None in Hn. apply Hn.
    unfold scored_chars in Hch. simpl in *. tauto.
Qed.

Lemma score_characterised_witness :
  positive_model p_match_only /\
  (score p_match_only (primary_record "r1" "A" [32; 0; 0; 0; 0; 0; 0; 0; 0; 0; 0]%Z)
   = Ok None <->
   unscorable p_match_only
     (primary_record "r1" "A" [32; 0; 0; 0; 0; 0; 0; 0; 0; 0; 0]%Z)) /\
  (forall v,
      score p_match_only
        (primary_record "r1" "A" [32; 0; 0; 0; 0; 0; 0; 0; 0; 0; 0]%Z) = Ok (Some v) ->
      v = log_likelihood p_match_only
            (tally_of (primary_record "r1" "A" [32; 0; 0; 0; 0; 0; 0; 0; 0; 0; 0]%Z))
            scored_chars) /\
  (exists o,
      score p_match_only
        (primary_record "r1" "A" [32; 0; 0; 0; 0; 0; 0; 0; 0; 0; 0]%Z) = Ok o).
Proof.
  split; [apply p_match_only_positive |].
  apply score_characterised; [apply p_match_only_positive | simpl; lia].
Defined.

(** ** The matrix of scores *)

Lemma log_likelihood_nonpos (p : dict string R) (st : dict string Z)
    (chars : list string) :
  probability_model p -> Forall (fun v => (0 <= v)%Z) (values st) ->
  log_likelihood p st chars <= 0.
Proof.
  intros Hp Hst. unfold log_likelihood.
  apply Rle_trans with (py_sum (map (fun _ : string => 0) chars));
    [| rewrite py_sum_map_const; lra].
  apply py_sum_map_le. intros c _.
  destruct (dict_get p c) as [pc |] eqn:Ep; [| lra].
  destruct (Hp c pc Ep) as [Hpos Hle].
  assert (Hln : ln pc <= 0).
  { rewrite <- ln_1. destruct Hle as [Hlt | ->]; [| lra].
    left. now apply ln_increasing. }
  assert (Hn : (0 <= counter_get st c)%Z).
  { unfold counter_get. destruct (dict_get st c) as [n |] eqn:En; [| lia].
    apply dict_get_Some_In in En.
    rewrite Forall_forall in Hst. apply Hst.
    unfold values. change n with (snd (c, n)). now apply in_map. }
  apply IZR_le in Hn. nra.
Qed.

Lemma scores_of_In (p : dict string R) (key : string * string)
    (samfile : list alignment) (v : R) :
  In v (scores_of p key samfile) <->
  exists a, In a samfile /\ reference_name a = Some (snd key) /\
            query_name a = fst key /\ score p a = Ok (Some v).
Proof.
  induction samfile as [| a rest IH]; simpl.
  - split; [intros [] | intros (a & [] & _)].
  - split.
    + destruct (reference_name a) as [ref |] eqn:Href.
      * destruct (score p a) as [[s |] | e] eqn:Hs.
        -- destruct (key_eq_dec (query_name a, ref) key) as [<- | Hne].
           ++ intros [<- | Hin].
              ** exists a. simpl. auto.
              ** apply IH in Hin as (b & Hb & Hrest). exists b. auto.
           ++ intros Hin. apply IH in Hin as (b & Hb & Hrest). exists b. auto.
        -- intros Hin. apply IH in Hin as (b & Hb & Hrest). exists b. auto.
        -- intros Hin. apply IH in Hin as (b & Hb & Hrest). exists b. auto.
      * intros Hin. apply IH in Hin as (b & Hb & Hrest). exists b. auto.
    + intros (b & [<- | Hb] & Href & Hq & Hs).
      * rewrite Href, Hs.
        destruct (key_eq_dec (query_name a, snd key) key) as [_ | Hne].
        -- now left.
        -- exfalso. apply Hne. rewrite Hq. now destruct key.
      * assert (Hin : In v (scores_of p key rest)) by (apply IH; exists b; auto).
        destruct (reference_name a) as [ref |]; [| assumption].
        destruct (score p a) as [[s |] | e]; try assumption.
        destruct (key_eq_dec (query_name a, ref) key); [now right | assumption].
Qed.

Lemma best_None_nil_iff (vs : list R) : best None vs = None <-> vs = [].
Proof.
  destruct vs as [| v vs]; [tauto |].
  rewrite best_step, best_Some. split; discriminate.
Qed.

Lemma best_None_In (vs : list R) (mx : R) :
  best None vs = Some mx -> In mx vs /\ forall x, In x vs -> x <= mx.
Proof.
  destruct vs as [| v vs]; [discriminate |].
  rewrite best_step, best_Some. intros [= <-].
  split; [apply fold_Rmax_In | apply fold_Rmax_upper].
Qed.

(** A score that is computed is the log-likelihood, whatever the model:
    a stored probability that is not positive makes [math.log] raise. *)
Lemma compute_log_L_rgs_from_value (p : dict string R) (st : dict string Z)
    (chars : list string) (value v : R) :
  compute_log_L_rgs_from p st chars value = Ok (Some v) ->
  v = value + log_likelihood p st chars.
Proof.
  revert value.
  induction chars as [| char rest IH]; intros value; simpl.
  - intros [= <-]. unfold log_likelihood. simpl. rewrite py_sum_nil. lra.
  - rewrite log_likelihood_cons. unfold dict_mem, getitem.
    destruct (dict_get p char) as [pc |] eqn:Ep; simpl.
    + unfold math_log. destruct (Rlt_dec 0 pc); simpl; [| discriminate].
      destruct (dict_get st char) as [n |] eqn:En; simpl; [| discriminate].
      intros Hrest. apply IH in Hrest as ->.
      rewrite (counter_get_Some _ _ _ En). lra.
    + destruct (dict_get st char) as [n |] eqn:En; simpl; [| discriminate].
      destruct (0 <? n)%Z; [discriminate |].
      intros Hrest. apply IH in Hrest as ->. lra.
Qed.

(** X7. Whatever the model and the counts, every entry of a built matrix
    is the score of a mapped record of its (read, reference) pair, which
    is the sum over the scored categories that the model holds of count
    times log probability; when moreover the probabilities of the model
    lie in (0, 1] and the mapped records have non-negative converted
    counts, every entry is at most 0. *)
Theorem matrix_entries_nonpositive (p : dict string R) (samfile : list alignment)
    (m : matrix) :
  log_L_rgs_dict samfile p = Ok m ->
  forall q ref v, dict_get m (q, ref) = Some v ->
    (exists a, In a samfile /\ query_name a = q /\ reference_name a = Some ref /\
               score p a = Ok (Some v) /\
               v = log_likelihood p (tally_of a) scored_chars) /\
    (probability_model p -> nonneg_mapped samfile -> v <= 0).
Proof.
  intros Hm q ref v Hv.
  pose proof (log_L_rgs_from_best p samfile [] m (q, ref) Hm) as Hb.
  simpl dict_get in Hb. rewrite Hv in Hb. symmetry in Hb.
  apply best_None_In in Hb as [Hin _].
  apply scores_of_In in Hin as (a & Ha & Href & Hq & Hs). simpl in Href, Hq.
  assert (Hv' : v = log_likelihood p (tally_of a) scored_chars).
  { destruct (score_tally p a (Some v) Hs) as [_ Hc].
    apply (compute_log_L_rgs_from_value p _ _ 0 v) in Hc. lra. }
  split.
  - exists a. auto.
  - intros Hp Hnn. rewrite Hv'.
    apply log_likelihood_nonpos; [assumption |]. now apply (Hnn a ref).
Qed.

Lemma p_match_only_probability : probability_model p_match_only.
Proof.
  intros k v. unfold p_match_only. simpl.
  destruct (key_eq_dec k "M"); [| discriminate].
  intros [= <-]. split; [apply exp_pos |].
  assert (Hlt : exp (- (1 / 10)) < exp 0) by (apply exp_increasing; lra).
  rewrite exp_0 in Hlt. lra.
Qed.

Lemma sam_same_pair_nonneg : nonneg_mapped sam_same_pair.
Proof.
  intros a ref [<- | [<- | []]] _; simpl; repeat constructor; lia.
Qed.

Lemma matrix_entries_nonpositive_witness :
  log_L_rgs_dict sam_same_pair p_match_only = Ok [(("r1", "A"), - (29 / 10))] /\
  probability_model p_match_only /\ nonneg_mapped sam_same_pair /\
  forall q ref v, dict_get [(("r1", "A"), - (29 / 10))] (q, ref) = Some v ->
    (exists a, In a sam_same_pair /\ query_name a = q /\
               reference_name a = Some ref /\
               score p_match_only a = Ok (Some v) /\
               v = log_likelihood p_match_only (tally_of a) scored_chars) /\
    v <= 0.
Proof.
  split; [apply sam_same_pair_built |].
  split; [apply p_match_only_probability |].
  split; [apply sam_same_pair_nonneg |].
  intros q ref v Hv.
  destruct (matrix_entries_nonpositive p_match_only sam_same_pair _
              sam_same_pair_built q ref v Hv) as [Hrec Hle].
  split; [exact Hrec |].
  apply Hle; [apply p_match_only_probability | apply sam_same_pair_nonneg].
Defined.

Lemma log_L_rgs_dict_keys (p : dict string R) (samfile : list alignment)
    (m : matrix) (q ref : string) :
  log_L_rgs_dict samfile p = Ok m ->
  In (q, ref) (keys m) <->
  exists a v, In a samfile /\ query_name a = q /\
              reference_name a = Some ref /\ score p a = Ok (Some v).
Proof.
  intros Hm.
  pose proof (log_L_rgs_from_best p samfile [] m (q, ref) Hm) as Hb.
  simpl dict_get in Hb.
  split.
  - intros Hin.
    destruct (dict_get m (q, ref)) as [v |] eqn:Hv.
    + symmetry in Hb. apply best_None_In in Hb as [Hs _].
      apply scores_of_In in Hs as (a & Ha & Href & Hq & Hs).
      exists a, v. auto.
    + apply dict_get_None in Hv. now elim Hv.
  - intros (a & v & Ha & Hq & Href & Hs).
    assert (Hin : In v (scores_of p (q, ref) samfile))
      by (apply scores_of_In; exists a; auto).
    destruct (dict_get m (q, ref)) as [w |] eqn:Hw.
    + apply dict_get_Some_In in Hw. unfold keys.
      change (q, ref) with (fst ((q, ref), w)). now apply in_map.
    + symmetry in Hb. apply best_None_nil_iff in Hb. rewrite Hb in Hin.
      destruct Hin.
Qed.

(** X8. A built matrix has no duplicate key, and a (read, reference) pair
    is a key exactly when some record mapped to that reference under that
    read name has a score; records without a reference and unscorable
    records add no key. *)
Theorem matrix_support (p : dict string R) (samfile : list alignment) (m : matrix) :
  log_L_rgs_dict samfile p = Ok m ->
  dict_wf m /\
  forall q ref,
    In (q, ref) (keys m) <->
    exists a v, In a samfile /\ query_name a = q /\
                reference_name a = Some ref /\ score p a = Ok (Some v).
Proof.
  intros Hm. split; [now apply (log_L_rgs_dict_wf p samfile) |].
  intros q ref. now apply log_L_rgs_dict_keys.
Qed.

Lemma matrix_support_witness :
  log_L_rgs_dict sam_same_pair p_match_only = Ok [(("r1", "A"), - (29 / 10))] /\
  dict_wf [(("r1", "A"), - (29 / 10))] /\
  forall q ref,
    In (q, ref) (keys [(("r1", "A"), - (29 / 10))]) <->
    exists a v, In a sam_same_pair /\ query_name a = q /\
                reference_name a = Some ref /\
                score p_match_only a = Ok (Some v).
Proof.
  split; [apply sam_same_pair_built |].
  apply (matrix_support p_match_only sam_same_pair). apply sam_same_pair_built.
Defined.

Lemma score_defined (p : dict string R) (a : alignment) :
  positive_model p -> (11 <= List.length (cigar_stats a))%nat ->
  exists o, score p a = Ok o.
Proof.
  intros Hpos Hlen.
  destruct (get_align_stats_shape _ Hlen)
    as (m0 & i & d & n & s & h & x0 & e0 & x & b & c & Hst).
  unfold score. rewrite Hst. simpl.
  apply compute_log_L_rgs_from_defined; [assumption |].
  intros ch Hch Hn. apply dict_get_None in Hn. apply Hn.
  unfold scored_chars in Hch. simpl in *. tauto.
Qed.

Lemma scores_defined_of_shape (p : dict string R) (samfile : list alignment) :
  positive_model p ->
  (forall a ref, In a samfile -> reference_name a = Some ref ->
                 (11 <= List.length (cigar_stats a))%nat) ->
  scores_defined p samfile.
Proof.
  intros Hpos Hshape a ref Ha Href. apply score_defined; [assumption |].
  now apply (Hshape a ref).
Qed.

Lemma app_snoc_split {X : Type} (l before after : list X) (a x : X) :
  l ++ [a] = before ++ x :: after ->
  (after = [] /\ before = l /\ x = a) \/
  (exists after', after = after' ++ [a] /\ l = before ++ x :: after').
Proof.
  destruct after as [| y after' _] using rev_ind; intros Heq.
  - apply app_inj_tail in Heq as [-> ->]. now left.
  - right. exists after'.
    change (before ++ x :: after' ++ [y]) with (before ++ (x :: after') ++ [y]) in Heq.
    rewrite app_assoc in Heq. apply app_inj_tail in Heq as [-> ->]. auto.
Qed.

Lemma unscorable_after_scorable_app (p : dict string R) (l l' : list alignment) :
  unscorable_after_scorable p l -> unscorable_after_scorable p (l ++ l').
Proof.
  intros (before & a & after & ref & -> & Hrest).
  exists before, a, (after ++ l'), ref. split; [| exact Hrest].
  now rewrite <- app_assoc.
Qed.

(** The build stops with [TypeError] when an unscorable record follows a
    scorable record of its pair, and completes otherwise. *)
Lemma log_L_rgs_dict_outcome (p : dict string R) (samfile : list alignment) :
  scores_defined p samfile ->
  (log_L_rgs_dict samfile p = Err TypeError /\ unscorable_after_scorable p samfile) \/
  (exists m, log_L_rgs_dict samfile p = Ok m /\ ~ unscorable_after_scorable p samfile).
Proof.
  induction samfile as [| a l IH] using rev_ind; intros Hdef.
  - right. exists []. split; [reflexivity |].
    intros (before & a & after & ref & Heq & _). now destruct before.
  - assert (Hdef' : scores_defined p l)
      by (intros b ref Hb; apply Hdef, in_or_app; now left).
    unfold log_L_rgs_dict in *. rewrite log_L_rgs_from_app.
    destruct (IH Hdef') as [[Herr Hun] | (m & Hm & Hnot)].
    + left. rewrite Herr. split; [reflexivity |].
      now apply unscorable_after_scorable_app.
    + rewrite Hm. simpl.
      assert (Hold : forall before x after ref,
                 l ++ [a] = before ++ x :: after ->
                 reference_name x = Some ref -> score p x = Ok None ->
                 scores_of p (query_name x, ref) before <> [] ->
                 after = [] /\ before = l /\ x = a).
      { intros before x after ref Heq Href Hs Hne.
        apply app_snoc_split in Heq as [Hlast | (after' & -> & ->)];
          [assumption |].
        exfalso. apply Hnot. exists before, x, after', ref. auto. }
      destruct (reference_name a) as [ref |] eqn:Href.
      * destruct (Hdef a ref) as [[v |] Hs];
          [apply in_or_app; right; now left | assumption | |].
        -- right. rewrite (log_L_rgs_step_scored p m a ref v Href Hs).
           eexists. split; [reflexivity |].
           intros (before & x & after & ref' & Heq & Href' & Hs' & Hne).
           destruct (Hold _ _ _ _ Heq Href' Hs' Hne) as (_ & _ & ->).
           congruence.
        -- rewrite (log_L_rgs_step_unscored p m a ref Href Hs).
           pose proof (log_L_rgs_from_best p l [] m (query_name a, ref) Hm) as Hb.
           simpl dict_get in Hb.
           destruct (dict_get m (query_name a, ref)) as [stored |] eqn:Hg.
           ++ left. split; [reflexivity |].
              exists l, a, [], ref. repeat split; try assumption.
              intros Hnil. rewrite Hnil in Hb. discriminate.
           ++ right. exists m. split; [reflexivity |].
              intros (before & x & after & ref' & Heq & Href' & Hs' & Hne).
              destruct (Hold _ _ _ _ Heq Href' Hs' Hne) as (_ & -> & ->).
              assert (ref' = ref) by congruence. subst ref'.
              symmetry in Hb. apply best_None_nil_iff in Hb. contradiction.
      * right. rewrite (log_L_rgs_step_unmapped p m a Href).
        exists m. split; [reflexivity |].
        intros (before & x & after & ref' & Heq & Href' & Hs' & Hne).
        destruct (Hold _ _ _ _ Heq Href' Hs' Hne) as (_ & _ & ->).
        congruence.
Qed.

(** X9. Under a model of positive probabilities, and when every mapped
    record has 11 counts or more, the build of the matrix stops with
    TypeError exactly when some unscorable record comes after a scorable
    record of the same (read, reference) pair, and returns a matrix exactly
    when no record does. *)
Theorem matrix_build_outcome (p : dict string R) (samfile : list alignment) :
  positive_model p ->
  (forall a ref, In a samfile -> reference_name a = Some ref ->
                 (11 <= List.length (cigar_stats a))%nat) ->
  (log_L_rgs_dict samfile p = Err TypeError <-> unscorable_after_scorable p samfile) /\
  ((exists m, log_L_rgs_dict samfile p = Ok m) <->
   ~ unscorable_after_scorable p samfile).
Proof.
  intros Hpos Hshape.
  pose proof (scores_defined_of_shape p samfile Hpos Hshape) as Hdef.
  destruct (log_L_rgs_dict_outcome p samfile Hdef)
    as [[Herr Hun] | (m & Hm & Hnot)].
  - split; split; try tauto.
    + intros [m Hm]. congruence.
  - split; split; try tauto.
    + intros Herr. congruence.
    + intros _. eauto.
Qed.

Lemma matrix_build_outcome_witness :
  positive_model p_match_only /\
  (forall a ref, In a sam_unscorable_after -> reference_name a = Some ref ->
                 (11 <= List.length (cigar_stats a))%nat) /\
  (log_L_rgs_dict sam_unscorable_after p_match_only = Err TypeError <->
   unscorable_after_scorable p_match_only sam_unscorable_after) /\
  ((exists m, log_L_rgs_dict sam_unscorable_after p_match_only = Ok m) <->
   ~ unscorable_after_scorable p_match_only sam_unscorable_after).
Proof.
  assert (Hshape : forall a ref, In a sam_unscorable_after ->
                     reference_name a = Some ref ->
                     (11 <= List.length (cigar_stats a))%nat)
    by (intros a ref [<- | [<- | []]] _; simpl; lia).
  split; [apply p_match_only_positive |].
  split; [exact Hshape |].
  apply matrix_build_outcome; [apply p_match_only_positive | exact Hshape].
Defined.

(** X10. A mapped record with fewer than 11 counts stops the build with
    KeyError when the records before it were processed, whatever follows
    it; a record without a reference is skipped before its counts are
    read, so that its length does not matter. *)
Theorem matrix_short_record (p : dict string R) (before after : list alignment)
    (a : alignment) (m : matrix) :
  log_L_rgs_dict before p = Ok m ->
  (List.length (cigar_stats a) < 11)%nat ->
  (forall ref, reference_name a = Some ref ->
               log_L_rgs_dict (before ++ a :: after) p = Err KeyError) /\
  (reference_name a = None ->
   log_L_rgs_dict (before ++ a :: after) p = log_L_rgs_from p after m).
Proof.
  intros Hm Hlen. unfold log_L_rgs_dict in *.
  rewrite log_L_rgs_from_app, Hm. simpl.
  split.
  - intros ref Href. unfold log_L_rgs_step. rewrite Href.
    rewrite (get_align_stats_short _ Hlen). reflexivity.
  - intros Href. now rewrite (log_L_rgs_step_unmapped p m a Href).
Qed.

Lemma matrix_short_record_witness :
  log_L_rgs_dict sam_same_pair p_match_only = Ok [(("r1", "A"), - (29 / 10))] /\
  (List.length (cigar_stats (primary_record "r2" "A" [10; 0]%Z)) < 11)%nat /\
  (forall ref, reference_name (primary_record "r2" "A" [10; 0]%Z) = Some ref ->
               log_L_rgs_dict (sam_same_pair ++ primary_record "r2" "A" [10; 0]%Z :: [])
                 p_match_only = Err KeyError) /\
  (reference_name (primary_record "r2" "A" [10; 0]%Z) = None ->
   log_L_rgs_dict (sam_same_pair ++ primary_record "r2" "A" [10; 0]%Z :: [])
     p_match_only
   = log_L_rgs_from p_match_only [] [(("r1", "A"), - (29 / 10))]).
Proof.
  split; [apply sam_same_pair_built |].
  split; [simpl; lia |].
  apply matrix_short_record; [apply sam_same_pair_built | simpl; lia].
Defined.

Lemma scores_of_perm (p : dict string R) (key : string * string)
    (l l' : list alignment) :
  Permutation l l' -> Permutation (scores_of p key l) (scores_of p key l').
Proof.
  induction 1 as [| a l l' _ IH | a b l | l l' l'' _ IH1 _ IH2]; simpl.
  - constructor.
  - destruct (reference_name a) as [ref |]; [| assumption].
    destruct (score p a) as [[v |] | e]; try assumption.
    destruct (key_eq_dec (query_name a, ref) key); [now constructor | assumption].
  - destruct (reference_name a) as [ra |], (reference_name b) as [rb |];
      try apply Permutation_refl.
    + destruct (score p a) as [[va |] | ea], (score p b) as [[vb |] | eb];
        try apply Permutation_refl.
      destruct (key_eq_dec (query_name a, ra) key),
               (key_eq_dec (query_name b, rb) key);
        try apply Permutation_refl.
      apply perm_swap.
  - eapply Permutation_trans; eassumption.
Qed.

Lemma best_None_perm (vs vs' : list R) :
  Permutation vs vs' -> best None vs = best None vs'.
Proof.
  intros Hperm.
  destruct (best None vs) as [mx |] eqn:Hb, (best None vs') as [mx' |] eqn:Hb'.
  - apply best_None_In in Hb as [Hin Hup], Hb' as [Hin' Hup'].
    assert (mx <= mx') by (apply Hup'; now apply (Permutation_in _ Hperm)).
    assert (mx' <= mx)
      by (apply Hup; now apply (Permutation_in _ (Permutation_sym Hperm))).
    f_equal. lra.
  - apply best_None_nil_iff in Hb'. subst vs'.
    apply Permutation_sym, Permutation_nil in Hperm. subst vs. discriminate.
  - apply best_None_nil_iff in Hb. subst vs.
    apply Permutation_nil in Hperm. subst vs'. discriminate.
  - reflexivity.
Qed.

(** X11. Two completed builds over the same records in different orders
    store the same score for every (read, reference) pair. *)
Theorem matrix_order_independent (p : dict string R) (samfile samfile' : list alignment)
    (m m' : matrix) :
  Permutation samfile samfile' ->
  log_L_rgs_dict samfile p = Ok m -> log_L_rgs_dict samfile' p = Ok m' ->
  forall key, dict_get m key = dict_get m' key.
Proof.
  intros Hperm Hm Hm' key.
  rewrite (log_L_rgs_from_best p samfile [] m key Hm).
  rewrite (log_L_rgs_from_best p samfile' [] m' key Hm').
  simpl dict_get. now apply best_None_perm, scores_of_perm.
Qed.

Lemma sam_same_pair_swapped_built :
  log_L_rgs_dict
    [secondary_record "r1" "A" [29; 0; 0; 0; 0; 0; 0; 0; 0; 0; 0]%Z;
     primary_record "r1" "A" [32; 0; 0; 0; 0; 0; 0; 0; 0; 0; 0]%Z] p_match_only
  = Ok [(("r1", "A"), - (29 / 10))].
Proof.
  unfold log_L_rgs_dict, primary_record, secondary_record. simpl.
  erewrite log_L_rgs_step_scored; [| reflexivity | apply score_29_matches].
  simpl.
  erewrite log_L_rgs_step_scored; [| reflexivity | apply score_32_matches].
  simpl. unfold Rltb.
  destruct (Rlt_dec (- (29 / 10)) (- (32 / 10))) as [Hlt | _]; [lra | reflexivity].
Qed.

Lemma matrix_order_independent_witness :
  Permutation sam_same_pair
    [secondary_record "r1" "A" [29; 0; 0; 0; 0; 0; 0; 0; 0; 0; 0]%Z;
     primary_record "r1" "A" [32; 0; 0; 0; 0; 0; 0; 0; 0; 0; 0]%Z] /\
  log_L_rgs_dict sam_same_pair p_match_only = Ok [(("r1", "A"), - (29 / 10))] /\
  log_L_rgs_dict
    [secondary_record "r1" "A" [29; 0; 0; 0; 0; 0; 0; 0; 0; 0; 0]%Z;
     primary_record "r1" "A" [32; 0; 0; 0; 0; 0; 0; 0; 0; 0; 0]%Z] p_match_only
  = Ok [(("r1", "A"), - (29 / 10))] /\
  forall key, dict_get [(("r1", "A"), - (29 / 10))] key
              = dict_get [(("r1", "A"), - (29 / 10))] key.
Proof.
  split; [apply perm_swap |].
  split; [apply sam_same_pair_built |].
  split; [apply sam_same_pair_swapped_built |].
  apply (matrix_order_independent p_match_only sam_same_pair
           [secondary_record "r1" "A" [29; 0; 0; 0; 0; 0; 0; 0; 0; 0; 0]%Z;
            primary_record "r1" "A" [32; 0; 0; 0; 0; 0; 0; 0; 0; 0; 0]%Z]).
  - apply perm_swap.
  - apply sam_same_pair_built.
  - apply sam_same_pair_swapped_built.
Defined.

(** ** The model and the scores of one file *)

Lemma model_probability (samfile : list alignment) (model : dict string R) :
  get_char_align_probabilites samfile = Ok model -> probability_model model.
Proof.
  intros Hmodel.
  destruct (model_inv samfile model Hmodel) as (c & Hc & Hwf & Hpos & ->).
  assert (Hvals : forall v, In v (values c) -> (0 < v)%Z)
    by now apply positive_counts_values.
  intros k p. rewrite probabilities_of_get.
  destruct (dict_get c k) as [v |] eqn:E; simpl; [| discriminate].
  intros [= <-].
  assert (Hin : In v (values c)).
  { apply dict_get_Some_In in E. unfold values.
    change v with (snd (k, v)). now apply in_map. }
  pose proof (Hvals v Hin) as Hv.
  pose proof (py_sumZ_term_le (values c) v Hvals Hin) as Hle.
  assert (Hn : 0 < IZR (py_sumZ (values c))) by (apply IZR_lt; lia).
  apply IZR_lt in Hv. apply IZR_le in Hle.
  split; [now apply Rdiv_lt_0_compat |].
  apply Rmult_le_reg_r with (IZR (py_sumZ (values c))); [assumption |].
  replace (IZR v / IZR (py_sumZ (values c)) * IZR (py_sumZ (values c)))
    with (IZR v) by (field; lra).
  lra.
Qed.

Lemma counter_get_nonneg (st : dict string Z) (k : string) :
  Forall (fun v => (0 <= v)%Z) (values st) -> (0 <= counter_get st k)%Z.
Proof.
  intros Hst. unfold counter_get.
  destruct (dict_get st k) as [n |] eqn:En; [| lia].
  apply dict_get_Some_In in En.
  rewrite Forall_forall in Hst. apply Hst.
  unfold values. change n with (snd (k, n)). now apply in_map.
Qed.

Lemma category_sum_ge (k : string) (samfile : list alignment) (a : alignment) :
  nonneg_tallies samfile -> In a samfile -> is_primary a = true ->
  (counter_get (tally_of a) k <= category_sum k samfile)%Z.
Proof.
  induction samfile as [| b rest IH]; intros Hnn Hin Hprim; [destruct Hin |].
  assert (Hrest : nonneg_tallies rest)
    by (intros x Hx; apply Hnn; now right).
  assert (Hsum : (0 <= category_sum k rest)%Z).
  { clear IH Hin. induction rest as [| x rest IH]; simpl; [lia |].
    assert (Hrest' : nonneg_tallies rest)
      by (intros y Hy; apply Hrest; now right).
    assert (Hnn' : nonneg_tallies (b :: rest)).
    { intros y [<- | Hy]; [apply Hnn; now left | apply Hnn; right; now right]. }
    specialize (IH Hnn' Hrest').
    destruct (is_primary x) eqn:Hx; [| assumption].
    pose proof (counter_get_nonneg (tally_of x) k
                  (Hrest x (or_introl eq_refl) Hx)).
    lia. }
  simpl. destruct Hin as [-> | Hin].
  - rewrite Hprim. lia.
  - specialize (IH Hrest Hin Hprim).
    destruct (is_primary b) eqn:Hb; [| assumption].
    pose proof (counter_get_nonneg (tally_of b) k
                  (Hnn b (or_introl eq_refl) Hb)).
    lia.
Qed.

Lemma score_Some (p : dict string R) (a : alignment) :
  positive_model p -> (11 <= List.length (cigar_stats a))%nat ->
  (forall c, In c scored_chars -> dict_mem p c = false ->
             (counter_get (tally_of a) c <= 0)%Z) ->
  exists v, score p a = Ok (Some v) /\
            v = log_likelihood p (tally_of a) scored_chars.
Proof.
  intros Hpos Hlen Hle.
  destruct (get_align_stats_shape _ Hlen)
    as (m0 & i & d & n & s & h & x0 & e0 & x & b & c & Hst).
  assert (Hkeys : forall ch, In ch scored_chars -> dict_get (tally_of a) ch <> None).
  { intros ch Hch Hn. apply dict_get_None in Hn. apply Hn.
    unfold tally_of. rewrite Hst. unfold scored_chars in Hch. simpl in *. tauto. }
  destruct (compute_log_L_rgs_from_Some p (tally_of a) scored_chars 0 Hpos Hkeys Hle)
    as [v Hv].
  exists v.
  assert (Hs : score p a = Ok (Some v)).
  { unfold score. unfold tally_of in Hv. rewrite Hst in *. exact Hv. }
  split; [exact Hs |].
  apply score_tally in Hs as [_ Hs].
  apply (compute_log_L_rgs_from_Some_inv p _ _ 0 v Hpos) in Hs as [Hval _].
  lra.
Qed.

(** A primary record has no positive count in a category that the model
    of its file lacks. *)
Lemma primary_counts_in_model (samfile : list alignment) (p : dict string R)
    (a : alignment) (ch : string) :
  well_shaped samfile -> nonneg_tallies samfile ->
  get_char_align_probabilites samfile = Ok p ->
  In a samfile -> is_primary a = true -> dict_mem p ch = false ->
  (counter_get (tally_of a) ch <= 0)%Z.
Proof.
  intros Hshape Hnn Hp Ha Hprim Hmem.
  destruct (model_of_nonneg_tallies samfile Hshape Hnn)
    as (c & _ & Hwf & Hpc & Hmodel & Hget & _).
  rewrite Hp in Hmodel. injection Hmodel as ->.
  apply dict_mem_false in Hmem. rewrite probabilities_of_keys in Hmem.
  pose proof (category_sum_ge ch samfile a Hnn Ha Hprim) as Hle.
  rewrite <- Hget in Hle.
  rewrite (counter_get_absent c ch Hmem) in Hle. exact Hle.
Qed.

(** X12. Under the model built from a file whose primary records have 11
    counts or more and non-negative converted counts, every primary record
    of that file has a score, and the score is at most 0: whatever a
    primary record counts, the model holds its category. *)
Theorem primary_scored_by_own_model (samfile : list alignment) (p : dict string R) :
  well_shaped samfile -> nonneg_tallies samfile ->
  get_char_align_probabilites samfile = Ok p ->
  forall a, In a samfile -> is_primary a = true ->
    exists v, score p a = Ok (Some v) /\ v <= 0.
Proof.
  intros Hshape Hnn Hp a Ha Hprim.
  pose proof (model_probability samfile p Hp) as Hprob.
  destruct (score_Some p a) as (v & Hs & Hv).
  - now apply positive_model_of_probability.
  - now apply Hshape.
  - intros ch _ Hmem.
    now apply (primary_counts_in_model samfile p a ch).
  - exists v. split; [exact Hs |].
    rewrite Hv. apply log_likelihood_nonpos; [assumption |].
    now apply Hnn.
Qed.

Lemma sam_one_primary_shape : well_shaped sam_one_primary.
Proof. intros a [<- | []] _. simpl. lia. Qed.

Lemma sam_one_primary_nonneg : nonneg_tallies sam_one_primary.
Proof. intros a [<- | []] _. simpl. repeat constructor; lia. Qed.

Lemma primary_scored_by_own_model_witness :
  exists p,
    well_shaped sam_one_primary /\ nonneg_tallies sam_one_primary /\
    get_char_align_probabilites sam_one_primary = Ok p /\
    forall a, In a sam_one_primary -> is_primary a = true ->
      exists v, score p a = Ok (Some v) /\ v <= 0.
Proof.
  eexists.
  split; [apply sam_one_primary_shape |].
  split; [apply sam_one_primary_nonneg |].
  split; [reflexivity |].
  apply (primary_scored_by_own_model sam_one_primary).
  - apply sam_one_primary_shape.
  - apply sam_one_primary_nonneg.
  - reflexivity.
Defined.

(** ** Further properties of the EM run *)

Lemma log_L_rns_from_skip (m : matrix) (f : abundance)
    (ks : list (string * string)) (acc : matrix) :
  (forall k, In k ks -> dict_get f (snd k) = None) ->
  log_L_rns_from m f ks acc = Ok acc.
Proof.
  induction ks as [| [r s] rest IH]; intros Hnone; simpl; [reflexivity |].
  pose proof (Hnone (r, s) (or_introl eq_refl)) as Hs. simpl in Hs.
  rewrite Hs.
  apply IH. intros k Hk. apply Hnone. now right.
Qed.

Lemma EM_update_no_entry (m : matrix) (f : abundance) :
  (forall kv, In kv m -> dict_get f (ref_of kv) = None) ->
  EM_update m f = Ok ([], 0).
Proof.
  intros Hnone.
  rewrite (EM_update_flat [] dict_wf_nil m f).
  - unfold total_of, f_next. simpl. now rewrite py_sum_nil.
  - apply log_L_rns_from_skip. intros k Hk.
    unfold keys in Hk. apply in_map_iff in Hk as (kv & <- & Hkv).
    now apply Hnone.
Qed.

Lemma EM_no_entry_raises (m : matrix) (db_ids : list string) (fuel : nat) :
  db_ids <> [] -> (forall kv, In kv m -> ~ In (ref_of kv) db_ids) ->
  EM_update m (dict_fromkeys db_ids (1 / INR (List.length db_ids))) = Ok ([], 0) /\
  EM_iterations (S fuel) m db_ids = Raised ValueError_f_sum.
Proof.
  intros Hne Hout.
  assert (Hup : EM_update m (dict_fromkeys db_ids (1 / INR (List.length db_ids)))
                = Ok ([], 0)).
  { apply EM_update_no_entry. intros kv Hkv.
    rewrite dict_fromkeys_get.
    destruct (in_dec string_dec (ref_of kv) db_ids) as [Hin | _];
      [now elim (Hout kv Hkv) | reflexivity]. }
  split; [exact Hup |].
  unfold EM_iterations. rewrite (EM_init_ok db_ids Hne).
  simpl. unfold EM_iteration. simpl st_f. rewrite Hup.
  unfold f_sum_ok. simpl values. rewrite py_sum_nil.
  rewrite Rleb_false by lra. reflexivity.
Qed.

(** X13. With an empty reference universe the run stops with
    ZeroDivisionError before its first iteration; with a non-empty universe
    and a matrix none of whose entries refers to it (the empty matrix in
    particular) the first iteration computes an empty abundance vector and
    stops with the ValueError of the sum check. *)
Theorem EM_degenerate_inputs (m : matrix) (db_ids : list string) (fuel : nat) :
  (db_ids = [] -> EM_iterations fuel m db_ids = Raised ZeroDivisionError) /\
  (db_ids <> [] -> (forall kv, In kv m -> ~ In (ref_of kv) db_ids) ->
   EM_update m (dict_fromkeys db_ids (1 / INR (List.length db_ids))) = Ok ([], 0) /\
   EM_iterations (S fuel) m db_ids = Raised ValueError_f_sum).
Proof.
  split.
  - intros ->. reflexivity.
  - apply EM_no_entry_raises.
Qed.

Lemma EM_degenerate_inputs_witness :
  EM_iterations 5 matrix_one_read [] = Raised ZeroDivisionError /\
  ["B"] <> [] /\ (forall kv, In kv matrix_one_read -> ~ In (ref_of kv) ["B"]) /\
  EM_update matrix_one_read (dict_fromkeys ["B"] (1 / INR (List.length ["B"])))
  = Ok ([], 0) /\
  EM_iterations 1 matrix_one_read ["B"] = Raised ValueError_f_sum.
Proof.
  assert (Hout : forall kv, In kv matrix_one_read -> ~ In (ref_of kv) ["B"])
    by (intros kv [<- | []] [H | []]; discriminate).
  split; [apply (proj1 (EM_degenerate_inputs matrix_one_read [] 5)); reflexivity |].
  split; [discriminate |].
  split; [exact Hout |].
  apply (proj2 (EM_degenerate_inputs matrix_one_read ["B"] 0));
    [discriminate | exact Hout].
Defined.

Lemma dict_wf_filter {K V : Type} `{KeyEq K} (P : K * V -> bool) (d : dict K V) :
  dict_wf d -> dict_wf (filter P d).
Proof.
  unfold dict_wf, keys.
  induction d as [| kv d IH]; simpl; [auto |].
  intros Hnd. inversion Hnd as [| ? ? Hnotin Hnd']; subst.
  destruct (P kv); [| now apply IH].
  simpl. constructor; [| now apply IH].
  intros Hin. apply Hnotin.
  apply in_map_iff in Hin as (x & Hx & Hin).
  apply filter_In in Hin as [Hin _].
  apply in_map_iff. eauto.
Qed.

Lemma filter_idem {X : Type} (P : X -> bool) (l : list X) :
  filter P (filter P l) = filter P l.
Proof.
  induction l as [| x l IH]; simpl; [reflexivity |].
  destruct (P x) eqn:E; simpl; [rewrite E; now f_equal | assumption].
Qed.

Lemma base_idem (m : matrix) (db_ids : list string) :
  base (base m db_ids) db_ids = base m db_ids.
Proof. apply filter_idem. Qed.

Lemma covers_base (m : matrix) (db_ids : list string) (f : abundance) :
  covers m db_ids f -> covers (base m db_ids) db_ids f.
Proof.
  intros (Hpos & Hin & Hall). split; [assumption |]. split; [assumption |].
  intros kv Hkv. apply Hall. unfold base in Hkv.
  now apply filter_In in Hkv as [Hkv _].
Qed.

Lemma EM_iteration_base (m : matrix) (db_ids : list string) (st : EM_state) :
  dict_wf m -> covers m db_ids (st_f st) ->
  EM_iteration m st = EM_iteration (base m db_ids) st.
Proof.
  intros Hwf Hcov.
  pose proof (covers_base m db_ids (st_f st) Hcov) as Hcov'.
  assert (Hwf' : dict_wf (base m db_ids)) by now apply dict_wf_filter.
  rewrite (EM_iteration_positive m st Hwf (proj1 Hcov)).
  rewrite (EM_iteration_positive (base m db_ids) st Hwf' (proj1 Hcov)).
  rewrite (covers_joint m db_ids (st_f st) Hcov).
  rewrite (covers_joint (base m db_ids) db_ids (st_f st) Hcov').
  rewrite base_idem. reflexivity.
Qed.

Lemma EM_loop_base (m : matrix) (db_ids : list string) (fuel : nat) :
  dict_wf m ->
  forall st, covers m db_ids (st_f st) ->
             EM_loop fuel m st = EM_loop fuel (base m db_ids) st.
Proof.
  intros Hwf. induction fuel as [| fuel IH]; intros st Hcov; [reflexivity |].
  simpl. rewrite <- (EM_iteration_base m db_ids st Hwf Hcov).
  destruct (EM_iteration m st) as [st' | f out | e] eqn:Hit; try reflexivity.
  apply IH.
  rewrite (EM_iteration_Continue m st st' Hwf (proj1 Hcov) Hit). simpl.
  now apply covers_next.
Qed.

(** X14. The run depends on the matrix only through the entries whose
    reference belongs to the universe: with a duplicate-free matrix, the
    lookup [s in f] discards every other entry at every iteration. *)
Theorem EM_ignores_outside_universe (m : matrix) (db_ids : list string) (fuel : nat) :
  dict_wf m ->
  EM_iterations fuel m db_ids = EM_iterations fuel (base m db_ids) db_ids.
Proof.
  intros Hwf. unfold EM_iterations.
  destruct (EM_init db_ids) as [st | e] eqn:Hinit; [| reflexivity].
  apply EM_init_inv in Hinit as [Hne ->].
  apply EM_loop_base; [assumption |]. simpl. now apply uniform_covers.
Qed.

Lemma matrix_two_refs_wf : dict_wf matrix_two_refs.
Proof.
  unfold dict_wf, matrix_two_refs. simpl.
  repeat constructor; simpl; intuition discriminate.
Qed.

Lemma EM_ignores_outside_universe_witness :
  dict_wf matrix_two_refs /\
  EM_iterations 3 matrix_two_refs ["A"]
  = EM_iterations 3 (base matrix_two_refs ["A"]) ["A"].
Proof.
  split; [apply matrix_two_refs_wf |].
  apply EM_ignores_outside_universe, matrix_two_refs_wf.
Defined.

(** X15. One pass of the loop body is the EM step of the mixture
    likelihood: for a duplicate-free matrix and positive abundances, with
    B the entries whose reference the abundance vector holds, the total is
    the sum over the reads of the log of the sum over s of L(r|s) f(s), and
    the new abundance of every reference of B is the mean over the reads of
    the posterior P(s|r); the shift by the largest term of each read
    cancels exactly. *)
Theorem EM_update_is_EM_step (m : matrix) (f : abundance) :
  dict_wf m -> positive_abundance f ->
  EM_update m f =
  Ok (map (fun s => (s, em_map (filter (active f) m) (abundance_of f) s))
          (refs (filter (active f) m)),
      objective (filter (active f) m) (abundance_of f)).
Proof.
  intros Hwf Hpos.
  rewrite (EM_update_positive m f Hwf Hpos).
  rewrite (total_of_joint m f Hpos).
  do 2 f_equal.
  unfold f_next. rewrite joint_refs.
  apply map_ext_in. intros s Hs. f_equal.
  pose proof (f_next_joint_get m f Hpos s Hs) as Hget.
  rewrite f_next_get in Hget.
  destruct (in_dec key_eq_dec s (refs (joint m f))) as [_ | Hn];
    [| discriminate].
  now injection Hget.
Qed.

Lemma positive_one : positive_abundance [("A", 1)].
Proof.
  intros s v. simpl.
  destruct (key_eq_dec s "A"); [| discriminate].
  intros [= <-]. lra.
Qed.

Lemma EM_update_is_EM_step_witness :
  dict_wf matrix_two_refs /\ positive_abundance [("A", 1)] /\
  EM_update matrix_two_refs [("A", 1)] =
  Ok (map (fun s => (s, em_map (filter (active [("A", 1)]) matrix_two_refs)
                          (abundance_of [("A", 1)]) s))
          (refs (filter (active [("A", 1)]) matrix_two_refs)),
      objective (filter (active [("A", 1)]) matrix_two_refs)
        (abundance_of [("A", 1)])).
Proof.
  split; [apply matrix_two_refs_wf |].
  split; [apply positive_one |].
  apply EM_update_is_EM_step; [apply matrix_two_refs_wf | apply positive_one].
Defined.

Lemma last_total_snoc (out : list R) (t : R) : last_total (out ++ [t]) = Some t.
Proof.
  induction out as [| x tl IH]; [reflexivity |].
  destruct tl as [| y tl']; [reflexivity |]. exact IH.
Qed.

Lemma last_total_Some (out : list R) (p : R) :
  last_total out = Some p -> exists hist, out = hist ++ [p].
Proof.
  induction out as [| x tl IH]; [discriminate |].
  destruct tl as [| y tl'].
  - intros [= <-]. now exists [].
  - intros Hl. destruct (IH Hl) as [hist Hh]. exists (x :: hist).
    simpl. now rewrite <- Hh.
Qed.

Lemma gains_ge_snoc (c : R) (out : list R) (t : R) :
  gains_ge c out -> (forall p, last_total out = Some p -> c <= t - p) ->
  gains_ge c (out ++ [t]).
Proof.
  induction out as [| x tl IH]; [simpl; auto |].
  destruct tl as [| y tl'].
  - intros _ Hlast. simpl. split; [now apply Hlast | exact I].
  - intros [Hxy Hg] Hlast.
    change (c <= y - x /\ gains_ge c ((y :: tl') ++ [t])).
    split; [assumption |]. apply IH; assumption.
Qed.

(** The log of a loop-head state ends with its total, and each total but
    the first exceeds the one before by the threshold or more. *)
Lemma reach_log (m : matrix) (db_ids : list string) (st : EM_state) :
  EM_reach m db_ids st ->
  st_total st = last_total (st_out st) /\ gains_ge (1 / 100) (st_out st).
Proof.
  induction 1 as [st Hinit | st st' Hreach [IHt IHg] Hstep].
  - apply EM_init_inv in Hinit as [_ ->]. simpl. auto.
  - unfold EM_iteration in Hstep.
    destruct (EM_update m (st_f st)) as [[f t] | e]; [| discriminate].
    destruct (negb _); [discriminate |].
    destruct (diff_lt t (st_total st) 0); [discriminate |].
    destruct (diff_lt t (st_total st) (1 / 100)) eqn:E; [discriminate |].
    injection Hstep as <-. simpl. split.
    + symmetry. apply last_total_snoc.
    + apply gains_ge_snoc; [assumption |].
      intros p Hp. rewrite <- IHt in Hp. rewrite Hp in E. simpl in E.
      unfold Rltb in E. destruct (Rlt_dec (t - p) (1 / 100)); [discriminate | lra].
Qed.

(** X16. The totals logged by a run that returns end with two totals whose
    difference lies in [0, 0.01), and before them every total exceeds the
    preceding one by 0.01 or more: the run returns at the first iteration
    that gains less than 0.01, and never at its first iteration. *)
Theorem EM_stopping_rule (fuel : nat) (m : matrix) (db_ids : list string)
    (f : abundance) (out : list R) :
  EM_iterations fuel m db_ids = Returned f out ->
  exists hist prev t,
    out = hist ++ [prev; t] /\ 0 <= t - prev < 1 / 100 /\
    gains_ge (1 / 100) (hist ++ [prev]).
Proof.
  unfold EM_iterations.
  destruct (EM_init db_ids) as [st0 | e] eqn:Hinit; [| discriminate].
  intros Hloop.
  destruct (loop_returned_reach m db_ids fuel st0 f out
              (reach_init m db_ids st0 Hinit) Hloop) as (st & Hreach & Hret).
  destruct (reach_log m db_ids st Hreach) as [Htot Hg].
  unfold EM_iteration in Hret.
  destruct (EM_update m (st_f st)) as [[f' t] | e]; [| discriminate].
  destruct (negb _); [discriminate |].
  destruct (diff_lt t (st_total st) 0) eqn:E0; [discriminate |].
  destruct (diff_lt t (st_total st) (1 / 100)) eqn:E1; [| discriminate].
  injection Hret as _ <-.
  destruct (st_total st) as [prev |] eqn:Hprev; [| discriminate].
  simpl in E0, E1. symmetry in Htot.
  destruct (last_total_Some _ _ Htot) as [hist Hh].
  exists hist, prev, t. rewrite Hh in *.
  split; [now rewrite <- app_assoc |].
  split; [| assumption].
  apply Rltb_spec in E1. unfold Rltb in E0.
  destruct (Rlt_dec (t - prev) 0); [discriminate | lra].
Qed.

Lemma EM_stopping_rule_witness :
  exists f out,
    EM_iterations 2 matrix_one_read ["A"] = Returned f out /\
    exists hist prev t,
      out = hist ++ [prev; t] /\ 0 <= t - prev < 1 / 100 /\
      gains_ge (1 / 100) (hist ++ [prev]).
Proof.
  pose proof (single_reference_loop_two matrix_one_read ["A"] "A"
                matrix_one_read_wf ltac:(discriminate) matrix_one_read_single
                (or_introl eq_refl) eq_refl) as Hrun.
  eexists. eexists. split; [exact Hrun |].
  exact (EM_stopping_rule 2 matrix_one_read ["A"] _ _ Hrun).
Defined.

Lemma joint_ext (m : matrix) (f f' : abundance) :
  (forall s, dict_get f s = dict_get f' s) -> joint m f = joint m f'.
Proof.
  intros Hget. unfold joint.
  assert (Hact : forall kv, active f kv = active f' kv)
    by (intros kv; unfold active; now rewrite Hget).
  rewrite (filter_ext _ _ Hact).
  apply map_ext. intros kv. unfold abundance_of. now rewrite Hget.
Qed.

(** X18. The order in which the universe lists its references does not
    change a run of one iteration or more on a duplicate-free matrix: the
    initial vector is read only by key, and the later vectors follow the
    order of the matrix. *)
Theorem EM_universe_order (m : matrix) (db_ids db_ids' : list string) (fuel : nat) :
  dict_wf m -> Permutation db_ids db_ids' ->
  EM_iterations (S fuel) m db_ids = EM_iterations (S fuel) m db_ids'.
Proof.
  intros Hwf Hperm.
  destruct db_ids as [| s0 rest] eqn:Edb.
  - apply Permutation_nil in Hperm. now subst db_ids'.
  - rewrite <- Edb in *.
    assert (Hne : db_ids <> []) by (rewrite Edb; discriminate).
    assert (Hne' : db_ids' <> []).
    { intros ->. apply Permutation_sym, Permutation_nil in Hperm. congruence. }
    unfold EM_iterations.
    rewrite (EM_init_ok db_ids Hne), (EM_init_ok db_ids' Hne').
    cbn [EM_loop].
    rewrite (EM_iteration_positive m
               {| st_f := dict_fromkeys db_ids (1 / INR (List.length db_ids));
                  st_total := None; st_out := [] |}
               Hwf (proj1 (uniform_covers m db_ids Hne))).
    rewrite (EM_iteration_positive m
               {| st_f := dict_fromkeys db_ids' (1 / INR (List.length db_ids'));
                  st_total := None; st_out := [] |}
               Hwf (proj1 (uniform_covers m db_ids' Hne'))).
    cbn [st_f st_total st_out].
    rewrite (joint_ext m
               (dict_fromkeys db_ids (1 / INR (List.length db_ids)))
               (dict_fromkeys db_ids' (1 / INR (List.length db_ids')))).
    + reflexivity.
    + intros s. rewrite !dict_fromkeys_get.
      rewrite (Permutation_length Hperm).
      destruct (in_dec string_dec s db_ids) as [Hin | Hn],
               (in_dec string_dec s db_ids') as [Hin' | Hn']; try reflexivity.
      * elim Hn'. now apply (Permutation_in _ Hperm).
      * elim Hn. now apply (Permutation_in _ (Permutation_sym Hperm)).
Qed.

Lemma EM_universe_order_witness :
  dict_wf matrix_two_refs /\ Permutation ["A"; "Z"] ["Z"; "A"] /\
  EM_iterations 3 matrix_two_refs ["A"; "Z"]
  = EM_iterations 3 matrix_two_refs ["Z"; "A"].
Proof.
  split; [apply matrix_two_refs_wf |].
  split; [apply perm_swap |].
  apply EM_universe_order; [apply matrix_two_refs_wf | apply perm_swap].
Defined.

(** ** Further properties of [f_reduce] *)

Lemma kept_total_pos (f : abundance) (threshold : R) :
  0 <= threshold -> kept f threshold <> [] ->
  0 < py_sum (values (kept f threshold)).
Proof.
  intros Hthr Hne. unfold values. apply py_sum_map_pos; [assumption |].
  intros x Hx. unfold kept in Hx. apply filter_In in Hx as [_ Hx].
  apply Rltb_spec in Hx. lra.
Qed.

Lemma f_reduce_nonneg_threshold (f : abundance) (threshold : R) :
  0 <= threshold -> f_reduce f threshold = Ok (renormalized f threshold).
Proof.
  intros Hthr. rewrite f_reduce_unfold. unfold renormalized.
  apply mapM_ok. intros kv Hkv. rewrite float_div_ok; [reflexivity |].
  apply Rgt_not_eq. apply kept_total_pos; [assumption |].
  intros E. rewrite E in Hkv. destruct Hkv.
Qed.

Lemma f_reduce_inv (f : abundance) (threshold : R) (g : abundance) :
  f_reduce f threshold = Ok g ->
  g = renormalized f threshold /\
  (kept f threshold = [] \/ py_sum (values (kept f threshold)) <> 0).
Proof.
  rewrite f_reduce_unfold. unfold renormalized.
  destruct (Req_dec_T (py_sum (values (kept f threshold))) 0) as [Hz | Hnz].
  - rewrite Hz. destruct (kept f threshold) as [| kv l].
    + simpl. intros [= <-]. auto.
    + simpl. rewrite float_div_zero. discriminate.
  - rewrite (mapM_ok _ (fun kv => (fst kv, snd kv / py_sum (values (kept f threshold))))).
    + intros [= <-]. auto.
    + intros kv _. now rewrite float_div_ok.
Qed.

Lemma renormalized_sum (f : abundance) (threshold : R) :
  py_sum (values (kept f threshold)) <> 0 ->
  py_sum (values (renormalized f threshold)) = 1.
Proof.
  intros Hnz. unfold renormalized, values. rewrite map_map. simpl.
  rewrite (py_sum_map_ext _
             (fun kv => snd kv * / py_sum (map snd (kept f threshold))))
    by (intros; reflexivity).
  rewrite py_sum_map_scal. unfold values in Hnz. now field.
Qed.

Lemma filter_all_In {X : Type} (P : X -> bool) (l : list X) :
  (forall x, In x l -> P x = true) -> filter P l = l.
Proof.
  induction l as [| x l IH]; intros Hall; simpl; [reflexivity |].
  rewrite (Hall x (or_introl eq_refl)). f_equal.
  apply IH. intros y Hy. apply Hall. now right.
Qed.

(** X19. Whenever the reduction returns, its result has the keys of the
    retained entries in their order, is empty exactly when no value
    exceeds the threshold, sums to 1 unless it is empty, and has distinct
    keys when the input has. *)
Theorem f_reduce_normalised (f : abundance) (threshold : R) (g : abundance) :
  f_reduce f threshold = Ok g ->
  keys g = keys (kept f threshold) /\
  (g = [] <-> forall kv, In kv f -> snd kv <= threshold) /\
  (g <> [] -> py_sum (values g) = 1) /\
  (dict_wf f -> dict_wf g).
Proof.
  intros Hg. apply f_reduce_inv in Hg as [-> Hk].
  assert (Hkeys : keys (renormalized f threshold) = keys (kept f threshold)).
  { unfold renormalized, keys. rewrite map_map. reflexivity. }
  assert (Hnil : renormalized f threshold = [] <-> kept f threshold = []).
  { unfold renormalized. split; [apply map_eq_nil | intros ->; reflexivity]. }
  split; [exact Hkeys |]. split; [| split].
  - rewrite Hnil. apply kept_nil_iff.
  - intros Hne. destruct Hk as [Hk | Hk]; [now apply Hnil in Hk |].
    now apply renormalized_sum.
  - intros Hwf. unfold dict_wf. rewrite Hkeys.
    unfold kept. now apply dict_wf_filter.
Qed.

Lemma f_reduce_normalised_witness :
  f_reduce f_mixed (1 / 10000) = Ok (renormalized f_mixed (1 / 10000)) /\
  keys (renormalized f_mixed (1 / 10000)) = keys (kept f_mixed (1 / 10000)) /\
  (renormalized f_mixed (1 / 10000) = [] <->
   forall kv, In kv f_mixed -> snd kv <= 1 / 10000) /\
  (renormalized f_mixed (1 / 10000) <> [] ->
   py_sum (values (renormalized f_mixed (1 / 10000))) = 1) /\
  (dict_wf f_mixed -> dict_wf (renormalized f_mixed (1 / 10000))).
Proof.
  assert (Hrun : f_reduce f_mixed (1 / 10000) = Ok (renormalized f_mixed (1 / 10000)))
    by (apply f_reduce_nonneg_threshold; lra).
  split; [exact Hrun |].
  exact (f_reduce_normalised f_mixed (1 / 10000) _ Hrun).
Defined.

(** X20. Reducing twice is reducing once: for a threshold that is not
    negative and retained values of sum at most 1, the result of the
    reduction is returned unchanged by a second reduction with the same
    threshold. *)
Theorem f_reduce_idempotent (f : abundance) (threshold : R) (g : abundance) :
  0 <= threshold -> py_sum (values (kept f threshold)) <= 1 ->
  f_reduce f threshold = Ok g -> f_reduce g threshold = Ok g.
Proof.
  intros Hthr Hle Hg. apply f_reduce_inv in Hg as [-> _].
  destruct (kept f threshold) as [| kv0 l0] eqn:Ek.
  - unfold renormalized. rewrite Ek. reflexivity.
  - assert (Hne : kept f threshold <> []) by (rewrite Ek; discriminate).
    pose proof (kept_total_pos f threshold Hthr Hne) as HT.
    rewrite <- Ek in *. clear Ek kv0 l0.
    assert (Hall : kept (renormalized f threshold) threshold
                   = renormalized f threshold).
    { unfold kept at 1. apply filter_all_In.
      intros [k q] Hin. unfold renormalized in Hin.
      apply in_map_iff in Hin as ([k' v] & [= <- <-] & Hkv).
      unfold kept in Hkv. apply filter_In in Hkv as [_ Hv].
      apply Rltb_spec in Hv. simpl in *. apply Rltb_true.
      apply Rlt_le_trans with v; [assumption |].
      apply Rmult_le_reg_r with (py_sum (values (kept f threshold)));
        [assumption |].
      replace (v / py_sum (values (kept f threshold))
               * py_sum (values (kept f threshold))) with v by (field; lra).
      assert (0 < v) by lra. nra. }
    rewrite f_reduce_unfold, Hall.
    rewrite renormalized_sum by lra.
    rewrite (mapM_ok _ (fun kv => kv)); [now rewrite map_id |].
    intros [k q] _. rewrite float_div_ok by lra. simpl.
    do 2 f_equal. field.
Qed.

Lemma f_reduce_idempotent_witness :
  0 <= 1 / 10000 /\ py_sum (values (kept f_mixed (1 / 10000))) <= 1 /\
  f_reduce f_mixed (1 / 10000) = Ok (renormalized f_mixed (1 / 10000)) /\
  f_reduce (renormalized f_mixed (1 / 10000)) (1 / 10000)
  = Ok (renormalized f_mixed (1 / 10000)).
Proof.
  assert (Hle : py_sum (values (kept f_mixed (1 / 10000))) <= 1).
  { rewrite kept_f_mixed. unfold py_sum. simpl. lra. }
  assert (Hrun : f_reduce f_mixed (1 / 10000) = Ok (renormalized f_mixed (1 / 10000)))
    by (apply f_reduce_nonneg_threshold; lra).
  split; [lra |]. split; [exact Hle |]. split; [exact Hrun |].
  apply (f_reduce_idempotent f_mixed (1 / 10000)); [lra | exact Hle | exact Hrun].
Defined.

(** ** The script of [main] *)

Lemma log_L_rgs_from_shape (p : dict string R) (samfile : list alignment)
    (m0 m : matrix) :
  log_L_rgs_from p samfile m0 = Ok m ->
  forall a ref, In a samfile -> reference_name a = Some ref ->
                (11 <= List.length (cigar_stats a))%nat.
Proof.
  revert m0. induction samfile as [| b rest IH]; intros m0 Hm a ref Ha Href;
    [destruct Ha |].
  simpl in Hm.
  destruct (log_L_rgs_step p m0 b) as [m1 |] eqn:Hstep; simpl in Hm;
    [| discriminate].
  destruct Ha as [-> | Ha]; [| now apply (IH m1 Hm a ref)].
  unfold log_L_rgs_step in Hstep. rewrite Href in Hstep.
  destruct (Nat.le_gt_cases 11 (List.length (cigar_stats a))) as [Hle | Hlt];
    [assumption |].
  rewrite (get_align_stats_short _ Hlt) in Hstep. discriminate.
Qed.

Lemma EM_returned_entry (fuel : nat) (m : matrix) (db_ids : list string)
    (f : abundance) (out : list R) :
  EM_iterations fuel m db_ids = Returned f out -> has_db_entry m db_ids.
Proof.
  intros Hrun.
  destruct (base m db_ids) as [| kv l] eqn:Eb.
  - exfalso.
    assert (Hout : forall kv, In kv m -> ~ In (ref_of kv) db_ids).
    { intros kv Hkv Hdb.
      assert (Hin : In kv (base m db_ids)).
      { unfold base. apply filter_In. split; [assumption |].
        destruct (in_dec string_dec (ref_of kv) db_ids); [reflexivity | contradiction]. }
      rewrite Eb in Hin. destruct Hin. }
    destruct db_ids as [| s0 rest] eqn:Edb; [discriminate |].
    rewrite <- Edb in *.
    assert (Hne : db_ids <> []) by (rewrite Edb; discriminate).
    destruct fuel as [| fuel].
    + unfold EM_iterations in Hrun. rewrite (EM_init_ok db_ids Hne) in Hrun.
      discriminate.
    + destruct (EM_no_entry_raises m db_ids fuel Hne Hout) as [_ Hr]. congruence.
  - assert (Hin : In kv (base m db_ids)) by (rewrite Eb; now left).
    unfold base in Hin. apply filter_In in Hin as [Hkv Hdb].
    exists kv. split; [assumption |].
    destruct (in_dec string_dec (ref_of kv) db_ids); [assumption | discriminate].
Qed.

Lemma EM_returned_inv (fuel : nat) (m : matrix) (db_ids : list string)
    (f : abundance) (out : list R) :
  dict_wf m -> EM_iterations fuel m db_ids = Returned f out ->
  dict_wf f /\ covers m db_ids f /\ py_sum (values f) = 1.
Proof.
  intros Hwf Hrun.
  pose proof (EM_returned_entry fuel m db_ids f out Hrun) as Hentry.
  unfold EM_iterations in Hrun.
  destruct (EM_init db_ids) as [st0 | e] eqn:Hinit; [| discriminate].
  destruct (loop_returned_reach m db_ids fuel st0 f out
              (reach_init m db_ids st0 Hinit) Hrun) as (st & Hreach & Hret).
  pose proof (reach_covers m db_ids st Hwf Hreach) as Hcov.
  destruct (EM_iteration_Return m st f out Hwf (proj1 Hcov) Hret) as (-> & _ & _).
  split; [apply f_next_wf |]. split; [now apply covers_next |].
  apply f_next_sum. now apply (covers_joint_nonempty m db_ids).
Qed.

Lemma matrix_entry_of_record (p : dict string R) (samfile : list alignment)
    (m : matrix) (db_ids : list string) :
  log_L_rgs_dict samfile p = Ok m ->
  has_db_entry m db_ids <->
  exists a ref v, In a samfile /\ reference_name a = Some ref /\
                  score p a = Ok (Some v) /\ In ref db_ids.
Proof.
  intros Hm. split.
  - intros ([[q ref] w] & Hkv & Hdb). unfold ref_of in Hdb. simpl in Hdb.
    assert (Hkey : In (q, ref) (keys m)).
    { unfold keys. change (q, ref) with (fst ((q, ref), w)). now apply in_map. }
    apply (log_L_rgs_dict_keys p samfile m q ref Hm) in Hkey
      as (a & v & Ha & _ & Href & Hs).
    exists a, ref, v. auto.
  - intros (a & ref & v & Ha & Href & Hs & Hdb).
    assert (Hkey : In (query_name a, ref) (keys m)).
    { apply (log_L_rgs_dict_keys p samfile m _ ref Hm). exists a, v. auto. }
    unfold keys in Hkey. apply in_map_iff in Hkey as (kv & Hfst & Hkv).
    exists kv. split; [assumption |].
    unfold ref_of. now rewrite Hfst.
Qed.

(** In the exact arithmetic of the embedding the conditions are also
    sufficient: the estimator then returns. *)
Lemma script_done_of_conditions (samfile : list alignment) (db_ids : list string) :
  script_conditions samfile db_ids ->
  exists fuel f f_dropped, script fuel samfile db_ids = Done f f_dropped.
Proof.
  intros (p & Hmodel & Hshape & Hnot & Hentry).
  pose proof (positive_model_of_probability p (model_probability samfile p Hmodel))
    as Hpos.
  destruct (log_L_rgs_dict_outcome p samfile
              (scores_defined_of_shape p samfile Hpos Hshape))
    as [[_ Hun] | (m & Hm & _)]; [contradiction |].
  pose proof (log_L_rgs_dict_wf p samfile m Hm) as Hwf.
  assert (Hdb : has_db_entry m db_ids)
    by now apply (matrix_entry_of_record p samfile m db_ids Hm).
  destruct (EM_terminates m db_ids Hwf Hdb) as (fuel & f & out & Hrun).
  exists fuel, f, (renormalized f (1 / 10000)).
  unfold script. rewrite Hmodel, Hm, Hrun.
  rewrite f_reduce_nonneg_threshold by lra. reflexivity.
Qed.

Lemma script_done_inv (fuel : nat) (samfile : list alignment) (db_ids : list string)
    (f f_dropped : abundance) :
  script fuel samfile db_ids = Done f f_dropped ->
  exists p m out,
    get_char_align_probabilites samfile = Ok p /\
    log_L_rgs_dict samfile p = Ok m /\
    EM_iterations fuel m db_ids = Returned f out /\
    f_reduce f (1 / 10000) = Ok f_dropped.
Proof.
  unfold script.
  destruct (get_char_align_probabilites samfile) as [p |] eqn:Hp; [| discriminate].
  destruct (log_L_rgs_dict samfile p) as [m |] eqn:Hm; [| discriminate].
  destruct (EM_iterations fuel m db_ids) as [f' out | e | st] eqn:Hrun;
    try discriminate.
  destruct (f_reduce f' (1 / 10000)) as [fd |] eqn:Hred; [| discriminate].
  intros [= <- <-]. exists p, m, out. auto.
Qed.

(** X21. The script of [main] computes its abundance vectors only if the
    model is built, every mapped record has 11 counts or more, no
    unscorable record follows a scorable record of its pair, and some
    scorable record is mapped to a reference of the database; and these
    four conditions hold exactly when the model and the matrix are built
    and the matrix has an entry whose reference is in the database. *)
Theorem script_done_conditions (samfile : list alignment) (db_ids : list string) :
  ((exists fuel f f_dropped, script fuel samfile db_ids = Done f f_dropped) ->
   script_conditions samfile db_ids) /\
  (script_conditions samfile db_ids <->
   exists p m,
     get_char_align_probabilites samfile = Ok p /\
     log_L_rgs_dict samfile p = Ok m /\ has_db_entry m db_ids).
Proof.
  assert (Hbuilt : forall p m,
             get_char_align_probabilites samfile = Ok p ->
             log_L_rgs_dict samfile p = Ok m -> has_db_entry m db_ids ->
             script_conditions samfile db_ids).
  { intros p m Hmodel Hm Hentry.
    pose proof (positive_model_of_probability p (model_probability samfile p Hmodel))
      as Hpos.
    pose proof (log_L_rgs_from_shape p samfile [] m Hm) as Hshape.
    exists p. split; [assumption |]. split; [assumption |]. split.
    - destruct (log_L_rgs_dict_outcome p samfile
                  (scores_defined_of_shape p samfile Hpos Hshape))
        as [[Herr _] | (_ & _ & Hnot)]; [congruence | assumption].
    - now apply (matrix_entry_of_record p samfile m db_ids Hm). }
  split; [| split].
  - intros (fuel & f & fd & Hdone).
    apply script_done_inv in Hdone as (p & m & out & Hmodel & Hm & Hrun & _).
    apply (Hbuilt p m Hmodel Hm).
    now apply (EM_returned_entry fuel m db_ids f out).
  - intros (p & Hmodel & Hshape & Hnot & Hentry).
    pose proof (positive_model_of_probability p (model_probability samfile p Hmodel))
      as Hpos.
    destruct (log_L_rgs_dict_outcome p samfile
                (scores_defined_of_shape p samfile Hpos Hshape))
      as [[_ Hun] | (m & Hm & _)]; [contradiction |].
    exists p, m. split; [assumption |]. split; [assumption |].
    now apply (matrix_entry_of_record p samfile m db_ids Hm).
  - intros (p & m & Hmodel & Hm & Hentry). now apply (Hbuilt p m).
Qed.

Lemma sam_one_primary_conditions : script_conditions sam_one_primary ["A"].
Proof.
  destruct (model_of_nonneg_tallies sam_one_primary sam_one_primary_shape
              sam_one_primary_nonneg) as (c & _ & _ & _ & Hmodel & _).
  exists (probabilities_of c). split; [exact Hmodel |]. split; [| split].
  - intros a ref [<- | []] _. simpl. lia.
  - intros (before & a & after & ref & Heq & _ & _ & Hne).
    destruct before as [| b before]; [now elim Hne |].
    unfold sam_one_primary in Heq. injection Heq as _ Heq.
    destruct before; discriminate.
  - destruct (score_Some (probabilities_of c)
                (primary_record "r1" "A" [90; 2; 1; 0; 5; 0; 0; 0; 0; 0; 5]%Z))
      as (v & Hs & _).
    + apply positive_model_of_probability.
      now apply (model_probability sam_one_primary).
    + simpl. lia.
    + intros ch _ Hmem.
      apply (primary_counts_in_model sam_one_primary (probabilities_of c));
        [apply sam_one_primary_shape | apply sam_one_primary_nonneg
        | exact Hmodel | now left | reflexivity | exact Hmem].
    + eexists. exists "A", v. split; [now left |]. split; [reflexivity |].
      split; [exact Hs | now left].
Qed.

Lemma script_done_conditions_witness :
  script_conditions sam_one_primary ["A"] /\
  exists p m,
    get_char_align_probabilites sam_one_primary = Ok p /\
    log_L_rgs_dict sam_one_primary p = Ok m /\ has_db_entry m ["A"].
Proof.
  split; [apply sam_one_primary_conditions |].
  apply (proj1 (proj2 (script_done_conditions sam_one_primary ["A"]))).
  apply sam_one_primary_conditions.
Defined.

(** X22. When the script of [main] has computed its two vectors: the
    keys of the full vector are distinct references of the database and
    its values sum to a number in [0.999, 1.0001]; the reduced vector is
    the full one restricted to the abundances above 0.0001, each divided
    by their sum, so that its keys are keys of the full vector; it is not
    empty when the full vector has fewer than 9990 entries; and more
    iterations give the same two vectors. *)
Theorem script_result (fuel : nat) (samfile : list alignment) (db_ids : list string)
    (f f_dropped : abundance) :
  script fuel samfile db_ids = Done f f_dropped ->
  dict_wf f /\
  (forall s, In s (keys f) -> In s db_ids) /\
  999 / 1000 <= py_sum (values f) <= 10001 / 10000 /\
  f_dropped = renormalized f (1 / 10000) /\
  (forall s, In s (keys f_dropped) -> In s (keys f)) /\
  (INR (List.length f) < 9990 -> f_dropped <> []) /\
  (forall k, script (fuel + k) samfile db_ids = Done f f_dropped).
Proof.
  intros Hdone.
  destruct (script_done_inv fuel samfile db_ids f f_dropped Hdone)
    as (p & m & out & Hmodel & Hm & Hrun & Hred).
  pose proof (log_L_rgs_dict_wf p samfile m Hm) as Hwf.
  destruct (EM_returned_inv fuel m db_ids f out Hwf Hrun)
    as (Hfwf & (_ & Hdb & _) & Hsum).
  destruct (f_reduce_inv f (1 / 10000) f_dropped Hred) as [Hfd _].
  split; [assumption |]. split; [assumption |]. split; [lra |].
  split; [assumption |]. split; [| split].
  - intros s0. rewrite Hfd. unfold renormalized, keys. rewrite map_map. simpl.
    intros Hin. apply in_map_iff in Hin as (kv & <- & Hkv).
    unfold kept in Hkv. apply filter_In in Hkv as [Hkv _]. now apply in_map.
  - intros Hlen Hempty.
    assert (Hkept : kept f (1 / 10000) = []).
    { rewrite Hfd in Hempty. unfold renormalized in Hempty.
      now apply map_eq_nil in Hempty. }
    pose proof (proj1 (kept_nil_iff f (1 / 10000)) Hkept) as Hsmall.
    assert (Hle : py_sum (values f) <= INR (List.length f) * (1 / 10000)).
    { rewrite <- py_sum_map_const. unfold values. now apply py_sum_map_le. }
    lra.
  - intros k. unfold script. rewrite Hmodel, Hm.
    rewrite (EM_iterations_more_fuel m db_ids fuel k f out Hrun).
    now rewrite Hred.
Qed.

Lemma script_result_witness :
  exists fuel f f_dropped,
    script fuel sam_one_primary ["A"] = Done f f_dropped /\
    dict_wf f /\
    (forall s, In s (keys f) -> In s ["A"]) /\
    999 / 1000 <= py_sum (values f) <= 10001 / 10000 /\
    f_dropped = renormalized f (1 / 10000) /\
    (forall s, In s (keys f_dropped) -> In s (keys f)) /\
    (INR (List.length f) < 9990 -> f_dropped <> []) /\
    (forall k, script (fuel + k) sam_one_primary ["A"] = Done f f_dropped).
Proof.
  destruct (script_done_of_conditions sam_one_primary ["A"]
              sam_one_primary_conditions) as (fuel & f & fd & Hdone).
  exists fuel, f, fd. split; [exact Hdone |].
  exact (script_result fuel sam_one_primary ["A"] f fd Hdone).
Defined.

Lemma positive_model_nil : positive_model [].
Proof. intros k p. discriminate. Qed.

Lemma has_scored_base_unscorable (a : alignment) :
  has_scored_base a -> unscorable [] a.
Proof. intros (c & Hc & Hpos). exists c. auto. Qed.

Lemma log_L_rgs_from_empty_model (samfile : list alignment) :
  (forall a ref, In a samfile -> reference_name a = Some ref ->
                 (11 <= List.length (cigar_stats a))%nat /\ has_scored_base a) ->
  log_L_rgs_from [] samfile [] = Ok [].
Proof.
  induction samfile as [| a rest IH]; intros Hall; [reflexivity |].
  simpl.
  assert (Hstep : log_L_rgs_step [] [] a = Ok []).
  { destruct (reference_name a) as [ref |] eqn:Href.
    - destruct (Hall a ref (or_introl eq_refl) Href) as [Hlen Hbase].
      rewrite (log_L_rgs_step_unscored [] [] a ref Href); [reflexivity |].
      apply unscorable_score;
        [apply positive_model_nil | assumption |
         now apply has_scored_base_unscorable].
    - now apply log_L_rgs_step_unmapped. }
  rewrite Hstep. simpl. apply IH. intros b ref Hb. apply Hall. now right.
Qed.

(** X23. On a file without any primary alignment, whose mapped records
    have 11 counts or more and count at least one base in a scored
    category, the script of [main] fails: the model and the matrix are
    empty, and the estimator stops with ZeroDivisionError when the database
    is empty and with the ValueError of its sum check otherwise. *)
Theorem script_without_primary (samfile : list alignment) (db_ids : list string)
    (fuel : nat) :
  (forall a, In a samfile -> is_primary a = false) ->
  (forall a ref, In a samfile -> reference_name a = Some ref ->
                 (11 <= List.length (cigar_stats a))%nat /\ has_scored_base a) ->
  get_char_align_probabilites samfile = Ok [] /\
  log_L_rgs_dict samfile [] = Ok [] /\
  (db_ids = [] -> script fuel samfile db_ids = Failed ZeroDivisionError) /\
  (db_ids <> [] -> script (S fuel) samfile db_ids = Failed ValueError_f_sum).
Proof.
  intros Hnone Hall.
  assert (Hmodel : get_char_align_probabilites samfile = Ok []).
  { unfold get_char_align_probabilites.
    now rewrite (char_align_stats_primary_no_primary samfile [] Hnone). }
  assert (Hm : log_L_rgs_dict samfile [] = Ok [])
    by now apply log_L_rgs_from_empty_model.
  split; [assumption |]. split; [assumption |]. split.
  - intros ->. unfold script. rewrite Hmodel, Hm. reflexivity.
  - intros Hne. unfold script. rewrite Hmodel, Hm.
    destruct (EM_no_entry_raises [] db_ids fuel Hne) as [_ Hr];
      [intros kv [] |].
    now rewrite Hr.
Qed.

Lemma script_without_primary_witness :
  (forall a, In a sam_no_primary -> is_primary a = false) /\
  (forall a ref, In a sam_no_primary -> reference_name a = Some ref ->
                 (11 <= List.length (cigar_stats a))%nat /\ has_scored_base a) /\
  get_char_align_probabilites sam_no_primary = Ok [] /\
  log_L_rgs_dict sam_no_primary [] = Ok [] /\
  script 0 sam_no_primary [] = Failed ZeroDivisionError /\
  script 1 sam_no_primary ["A"] = Failed ValueError_f_sum.
Proof.
  assert (Hnone : forall a, In a sam_no_primary -> is_primary a = false)
    by (intros a [<- | []]; reflexivity).
  assert (Hall : forall a ref, In a sam_no_primary -> reference_name a = Some ref ->
                   (11 <= List.length (cigar_stats a))%nat /\ has_scored_base a).
  { intros a ref [<- | []] _. split; [simpl; lia |].
    exists "M". split; [simpl; tauto | reflexivity]. }
  split; [exact Hnone |]. split; [exact Hall |].
  destruct (script_without_primary sam_no_primary [] 0 Hnone Hall)
    as (Hmodel & Hm & Hzero & _).
  destruct (script_without_primary sam_no_primary ["A"] 0 Hnone Hall)
    as (_ & _ & _ & Hsum).
  split; [exact Hmodel |]. split; [exact Hm |].
  split; [now apply Hzero | apply Hsum; discriminate].
Defined.

(** ** The abundance per taxonomic identifier *)

Section FromKeys.
Context {K V : Type} `{KeyEq K}.

Lemma fromkeys_fold_spec (v : V) (ks : list K) (d0 : dict K V) :
  dict_wf d0 ->
  dict_wf (fold_left (fun d k => dict_set d k v) ks d0) /\
  (forall k, In k (keys (fold_left (fun d k => dict_set d k v) ks d0)) <->
             In k (keys d0) \/ In k ks) /\
  (forall k x, dict_get (fold_left (fun d k => dict_set d k v) ks d0) k = Some x ->
               x = v \/ dict_get d0 k = Some x).
Proof.
  revert d0. induction ks as [| k0 ks IH]; intros d0 Hwf; simpl.
  - split; [assumption |]. split; [tauto | auto].
  - destruct (IH (dict_set d0 k0 v) (dict_wf_set d0 k0 v Hwf)) as (Hw & Hk & Hg).
    split; [assumption |]. split.
    + intros k. rewrite Hk, in_keys_dict_set. split.
      * intros [[-> | Hin] | Hin]; auto.
      * intros [Hin | [<- | Hin]]; auto.
    + intros k x Hx. destruct (Hg k x Hx) as [-> | Hset]; [now left |].
      destruct (key_eq_dec k0 k) as [<- | Hne].
      * rewrite dict_get_set_same in Hset. left. congruence.
      * rewrite dict_get_set_other in Hset by assumption. now right.
Qed.

Lemma fromkeys_spec (v : V) (ks : list K) :
  dict_wf (dict_fromkeys ks v) /\
  (forall k, In k (keys (dict_fromkeys ks v)) <-> In k ks) /\
  (forall kx, In kx (dict_fromkeys ks v) -> snd kx = v).
Proof.
  destruct (fromkeys_fold_spec v ks [] dict_wf_nil) as (Hw & Hk & Hg).
  split; [exact Hw |]. split.
  - intros k. rewrite (Hk k). simpl. tauto.
  - intros [k x] Hin. simpl.
    apply (dict_get_In _ _ _ Hw) in Hin.
    destruct (Hg k x Hin) as [-> | Hn]; [reflexivity | discriminate].
Qed.
End FromKeys.

Lemma py_sum_dict_set {K : Type} `{KeyEq K} (d : dict K R) (t : K) (cur v : R) :
  dict_get d t = Some cur ->
  py_sum (values (dict_set d t (cur + v))) = py_sum (values d) + v.
Proof.
  induction d as [| [k' v'] d IH]; simpl; [discriminate |].
  destruct (key_eq_dec t k') as [-> | Hne].
  - intros [= ->]. simpl. rewrite !py_sum_cons. lra.
  - intros Hget. simpl. rewrite !py_sum_cons, (IH Hget). lra.
Qed.

Lemma tax_abundance_cons (s : dict string Z) (seqid : string) (v : R)
    (rest : abundance) (t : Z) :
  tax_abundance s ((seqid, v) :: rest) t =
  (if Z.eqb (taxid_of s seqid) t then v else 0) + tax_abundance s rest t.
Proof.
  unfold tax_abundance. simpl.
  destruct (Z.eqb (taxid_of s seqid) t); simpl; [now rewrite py_sum_cons | lra].
Qed.

(** The loop adds to every identifier the abundances of its sequences. *)
Lemma f_tax_add_spec (s : dict string Z) (items : abundance) :
  forall ft0 : dict Z R,
  dict_wf ft0 ->
  (forall kv, In kv items ->
     exists t, dict_get s (fst kv) = Some t /\ In t (keys ft0)) ->
  exists ft,
    f_tax_add s items ft0 = Ok ft /\ keys ft = keys ft0 /\
    (forall t x0, dict_get ft0 t = Some x0 ->
                  dict_get ft t = Some (x0 + tax_abundance s items t)) /\
    py_sum (values ft) = py_sum (values ft0) + py_sum (values items).
Proof.
  induction items as [| [seqid v] rest IH]; intros ft0 Hwf Hall.
  - exists ft0. split; [reflexivity |]. split; [reflexivity |]. split.
    + intros t x0 Hx. rewrite Hx. f_equal.
      unfold tax_abundance. simpl. rewrite py_sum_nil. lra.
    + simpl. rewrite py_sum_nil. lra.
  - destruct (Hall (seqid, v) (or_introl eq_refl)) as (t & Ht & Hin). simpl in Ht.
    assert (Hcur : exists cur, dict_get ft0 t = Some cur).
    { destruct (dict_get ft0 t) as [cur |] eqn:E; [eauto |].
      apply dict_get_None in E. contradiction. }
    destruct Hcur as [cur Hcur].
    destruct (IH (dict_set ft0 t (cur + v))) as (ft & Hrun & Hkeys & Hget & Hsum).
    + now apply dict_wf_set.
    + intros kv Hkv. destruct (Hall kv (or_intror Hkv)) as (t' & Ht' & Hin').
      exists t'. split; [assumption |].
      now rewrite (keys_dict_set_present ft0 t (cur + v) Hin).
    + exists ft. split; [| split; [| split]].
      * simpl. unfold getitem. rewrite Ht. simpl. rewrite Hcur. simpl. exact Hrun.
      * rewrite Hkeys. now apply keys_dict_set_present.
      * intros t' x0 Hx0. rewrite tax_abundance_cons.
        unfold taxid_of. rewrite Ht.
        destruct (Z.eqb_spec t t') as [<- | Hne].
        -- rewrite (Hget t (cur + v)) by apply dict_get_set_same.
           f_equal. assert (x0 = cur) by congruence. subst. lra.
        -- rewrite (Hget t' x0)
             by (rewrite dict_get_set_other by assumption; exact Hx0).
           f_equal. lra.
      * rewrite Hsum, (py_sum_dict_set ft0 t cur v Hcur).
        simpl. rewrite py_sum_cons. lra.
Qed.

Lemma mapM_getitem_cases (s : dict string Z) (ks : list string) :
  (mapM (getitem s) ks = Ok (map (taxid_of s) ks) /\
   forall k, In k ks -> In k (keys s)) \/
  (mapM (getitem s) ks = Err KeyError /\
   exists k, In k ks /\ ~ In k (keys s)).
Proof.
  induction ks as [| k ks IH]; simpl.
  - left. split; [reflexivity | intros k []].
  - destruct (dict_get s k) as [t |] eqn:Hk.
    + assert (Hg : getitem s k = Ok t) by (unfold getitem; now rewrite Hk).
      assert (Ht : taxid_of s k = t) by (unfold taxid_of; now rewrite Hk).
      assert (Hin : In k (keys s)).
      { destruct (in_dec string_dec k (keys s)) as [Hin | Hn]; [assumption |].
        apply dict_get_None in Hn. congruence. }
      rewrite Hg, Ht.
      destruct IH as [[-> Hall] | [-> (k' & Hk' & Hn)]]; simpl.
      * left. split; [reflexivity |]. intros k' [<- | Hk']; auto.
      * right. split; [reflexivity |]. exists k'. auto.
    + assert (Hg : getitem s k = Err KeyError) by (unfold getitem; now rewrite Hk).
      rewrite Hg. right. split; [reflexivity |]. exists k. split; [now left |].
      now apply dict_get_None.
Qed.

Lemma py_sum_all_zero (l : list R) : (forall x, In x l -> x = 0) -> py_sum l = 0.
Proof.
  induction l as [| x l IH]; intros Hall; [apply py_sum_nil |].
  rewrite py_sum_cons, (Hall x (or_introl eq_refl)), IH; [lra |].
  intros y Hy. apply Hall. now right.
Qed.

Lemma f_tax_of_present (s : dict string Z) (f : abundance) :
  (forall k, In k (keys f) -> In k (keys s)) ->
  exists ft,
    f_tax_of s f = Ok ft /\ dict_wf ft /\
    (forall t, In t (keys ft) <-> In t (map (taxid_of s) (keys f))) /\
    (forall t, In t (keys ft) -> dict_get ft t = Some (tax_abundance s f t)) /\
    py_sum (values ft) = py_sum (values f).
Proof.
  intros Hall.
  destruct (mapM_getitem_cases s (keys f)) as [[Hmap _] | [_ (k & Hk & Hn)]];
    [| elim Hn; now apply Hall].
  destruct (fromkeys_spec (0 : R) (map (taxid_of s) (keys f))) as (Hwf & Hkeys & Hzero).
  destruct (f_tax_add_spec s f (dict_fromkeys (map (taxid_of s) (keys f)) 0) Hwf)
    as (ft & Hrun & Hk & Hget & Hsum).
  { intros kv Hkv.
    assert (Hin : In (fst kv) (keys f)) by (unfold keys; now apply in_map).
    pose proof (Hall _ Hin) as Hs.
    destruct (dict_get s (fst kv)) as [t |] eqn:Et;
      [| apply dict_get_None in Et; contradiction].
    exists t. split; [reflexivity |]. apply Hkeys.
    apply in_map_iff. exists (fst kv). split; [| assumption].
    unfold taxid_of. now rewrite Et. }
  exists ft. split; [| split; [| split; [| split]]].
  - unfold f_tax_of. rewrite Hmap. exact Hrun.
  - unfold dict_wf. now rewrite Hk.
  - intros t. rewrite Hk. apply Hkeys.
  - intros t Ht. rewrite Hk in Ht.
    destruct (dict_get (dict_fromkeys (map (taxid_of s) (keys f)) 0) t)
      as [x0 |] eqn:E0; [| apply dict_get_None in E0; contradiction].
    rewrite (Hget t x0 E0). f_equal.
    pose proof (Hzero (t, x0) (dict_get_Some_In _ _ _ E0)) as Hx. simpl in Hx. lra.
  - rewrite Hsum, py_sum_all_zero; [lra |].
    intros x Hx. unfold values in Hx. apply in_map_iff in Hx as (kx & <- & Hin).
    now apply Hzero.
Qed.

(** X24. The aggregation of [f_to_lineage_df] conserves the mass: when it
    completes, the abundances per taxonomic identifier have distinct keys,
    one for each identifier that a sequence of the vector maps to; each
    holds the sum of the abundances of its sequences; and their total is
    the total of the vector. *)
Theorem f_tax_conserves (seq2taxid : dict string Z) (f : abundance) (f_tax : dict Z R) :
  f_tax_of seq2taxid f = Ok f_tax ->
  dict_wf f_tax /\
  (forall t, In t (keys f_tax) <->
             exists seqid, In seqid (keys f) /\ dict_get seq2taxid seqid = Some t) /\
  (forall t, In t (keys f_tax) ->
             dict_get f_tax t = Some (tax_abundance seq2taxid f t)) /\
  py_sum (values f_tax) = py_sum (values f).
Proof.
  intros Hrun.
  destruct (mapM_getitem_cases seq2taxid (keys f)) as [[_ Hall] | [Herr _]].
  - destruct (f_tax_of_present seq2taxid f Hall)
      as (ft & Hft & Hwf & Hkeys & Hget & Hsum).
    assert (ft = f_tax) by congruence. subst ft.
    split; [assumption |]. split; [| split; assumption].
    intros t. rewrite Hkeys, in_map_iff. split.
    + intros (seqid & <- & Hin). exists seqid. split; [assumption |].
      unfold taxid_of. pose proof (Hall seqid Hin) as Hs.
      destruct (dict_get seq2taxid seqid) eqn:E; [reflexivity |].
      apply dict_get_None in E. contradiction.
    + intros (seqid & Hin & Hs). exists seqid. split; [| assumption].
      unfold taxid_of. now rewrite Hs.
  - unfold f_tax_of in Hrun. rewrite Herr in Hrun. discriminate.
Qed.

(** X25. The aggregation of [f_to_lineage_df] raises KeyError exactly
    when a sequence of the vector has no taxonomic identifier, and
    completes exactly when every sequence has one. *)
Theorem f_tax_outcome (seq2taxid : dict string Z) (f : abundance) :
  (f_tax_of seq2taxid f = Err KeyError <->
   exists seqid, In seqid (keys f) /\ ~ In seqid (keys seq2taxid)) /\
  ((exists f_tax, f_tax_of seq2taxid f = Ok f_tax) <->
   forall seqid, In seqid (keys f) -> In seqid (keys seq2taxid)).
Proof.
  destruct (mapM_getitem_cases seq2taxid (keys f))
    as [[_ Hall] | [Herr (k & Hk & Hn)]].
  - destruct (f_tax_of_present seq2taxid f Hall) as (ft & Hft & _).
    split; split.
    + rewrite Hft. discriminate.
    + intros (k & Hk & Hn). elim Hn. now apply Hall.
    + intros _. exact Hall.
    + intros _. eauto.
  - assert (Hrun : f_tax_of seq2taxid f = Err KeyError)
      by (unfold f_tax_of; now rewrite Herr).
    split; split.
    + intros _. eauto.
    + intros _. exact Hrun.
    + intros [ft Hft]. congruence.
    + intros Hall. elim Hn. now apply Hall.
Qed.

Lemma f_mixed_has_taxids :
  forall k, In k (keys f_mixed) -> In k (keys seq2taxid_sample).
Proof. intros k Hk. simpl in *. tauto. Qed.

Lemma f_tax_conserves_witness :
  exists f_tax,
    f_tax_of seq2taxid_sample f_mixed = Ok f_tax /\
    dict_wf f_tax /\
    (forall t, In t (keys f_tax) <->
               exists seqid, In seqid (keys f_mixed) /\
                             dict_get seq2taxid_sample seqid = Some t) /\
    (forall t, In t (keys f_tax) ->
               dict_get f_tax t = Some (tax_abundance seq2taxid_sample f_mixed t)) /\
    py_sum (values f_tax) = py_sum (values f_mixed).
Proof.
  destruct (f_tax_of_present seq2taxid_sample f_mixed f_mixed_has_taxids)
    as (ft & Hft & _).
  exists ft. split; [exact Hft |].
  exact (f_tax_conserves seq2taxid_sample f_mixed ft Hft).
Defined.

Lemma f_tax_outcome_witness :
  (forall seqid, In seqid (keys f_mixed) -> In seqid (keys seq2taxid_sample)) /\
  (exists f_tax, f_tax_of seq2taxid_sample f_mixed = Ok f_tax) /\
  (exists seqid, In seqid (keys f_mixed) /\ ~ In seqid (keys (@nil (string * Z)))) /\
  f_tax_of [] f_mixed = Err KeyError.
Proof.
  assert (Hmiss : exists seqid, In seqid (keys f_mixed) /\
                                ~ In seqid (keys (@nil (string * Z))))
    by (exists "A"; simpl; tauto).
  split; [apply f_mixed_has_taxids |].
  split; [apply (proj2 (proj2 (f_tax_outcome seq2taxid_sample f_mixed)));
          apply f_mixed_has_taxids |].
  split; [exact Hmiss |].
  apply (proj2 (proj1 (f_tax_outcome [] f_mixed))). exact Hmiss.
Defined.

(** ** The lineage of a taxonomic identifier *)

Lemma lineage_loop_raised (nodes : nodes_df) (names : names_df) (fuel : nat) :
  forall tid rank d e,
    lineage_loop fuel nodes names tid rank d = LineageRaised e -> e = KeyError.
Proof.
  induction fuel as [| fuel IH]; intros tid rank d e; simpl.
  - destruct (match rank with
              | Some r => if string_dec r "superkingdom" then true else false
              | None => false
              end); discriminate.
  - destruct (match rank with
              | Some r => if string_dec r "superkingdom" then true else false
              | None => false
              end); [discriminate |].
    unfold getitem.
    destruct (dict_get nodes tid) as [row |]; [| now intros [= <-]].
    destruct (dict_get names tid) as [name_txt |]; [| now intros [= <-]].
    apply IH.
Qed.

Lemma lineage_loop_continue (nodes : nodes_df) (names : names_df) (fuel : nat)
    (tid : string) (rank : option string) (d : dict string string)
    (parent r name_txt : string) :
  rank <> Some "superkingdom" ->
  dict_get nodes tid = Some (parent, r) -> dict_get names tid = Some name_txt ->
  lineage_loop (S fuel) nodes names tid rank d =
  lineage_loop fuel nodes names parent (Some r) (dict_set d r name_txt).
Proof.
  intros Hrank Hnode Hname. simpl.
  assert (Htest : match rank with
                  | Some r0 => if string_dec r0 "superkingdom" then true else false
                  | None => false
                  end = false).
  { destruct rank as [r0 |]; [| reflexivity].
    destruct (string_dec r0 "superkingdom"); [congruence | reflexivity]. }
  rewrite Htest. unfold getitem. now rewrite Hnode, Hname.
Qed.

Lemma lineage_loop_stop (nodes : nodes_df) (names : names_df) (fuel : nat)
    (tid : string) (d : dict string string) :
  lineage_loop fuel nodes names tid (Some "superkingdom") d = LineageReturned d.
Proof. destruct fuel; reflexivity. Qed.

(** X26. The walk up the taxonomy raises nothing but KeyError, and raises
    it at once when the identifier it starts from is missing from the
    nodes, or is among the nodes and missing from the scientific names. *)
Theorem lineage_KeyError (fuel : nat) (tid : string) (nodes : nodes_df)
    (names : names_df) :
  (forall e k, lineage_dict_from_tid k tid nodes names = LineageRaised e ->
               e = KeyError) /\
  (~ In tid (keys nodes) ->
   lineage_dict_from_tid (S fuel) tid nodes names = LineageRaised KeyError) /\
  (In tid (keys nodes) -> ~ In tid (keys names) ->
   lineage_dict_from_tid (S fuel) tid nodes names = LineageRaised KeyError).
Proof.
  split; [| split].
  - intros e k. apply lineage_loop_raised.
  - intros Hn. apply dict_get_None in Hn.
    unfold lineage_dict_from_tid. simpl. unfold getitem. now rewrite Hn.
  - intros Hin Hn. apply dict_get_None in Hn.
    unfold lineage_dict_from_tid. simpl. unfold getitem.
    destruct (dict_get nodes tid) as [row |] eqn:E;
      [| apply dict_get_None in E; contradiction].
    now rewrite Hn.
Qed.

Lemma lineage_KeyError_witness :
  ~ In "9" (keys nodes_sample) /\
  lineage_dict_from_tid 1 "9" nodes_sample names_sample = LineageRaised KeyError /\
  In "562" (keys nodes_sample) /\ ~ In "562" (keys (@nil (string * string))) /\
  lineage_dict_from_tid 1 "562" nodes_sample [] = LineageRaised KeyError.
Proof.
  assert (H9 : ~ In "9" (keys nodes_sample))
    by (simpl; intuition discriminate).
  assert (H562 : In "562" (keys nodes_sample)) by (simpl; tauto).
  split; [exact H9 |].
  split; [apply (proj1 (proj2 (lineage_KeyError 0 "9" nodes_sample names_sample)));
          exact H9 |].
  split; [exact H562 |]. split; [intros [] |].
  apply (proj2 (proj2 (lineage_KeyError 0 "562" nodes_sample [])));
    [exact H562 | intros []].
Defined.

Lemma lineage_loop_running (nodes : nodes_df) (names : names_df)
    (P : string -> Prop) :
  (forall t, P t ->
     exists parent rank name_txt,
       dict_get nodes t = Some (parent, rank) /\ rank <> "superkingdom" /\
       dict_get names t = Some name_txt /\ P parent) ->
  forall fuel tid rank d,
    P tid -> rank <> Some "superkingdom" ->
    lineage_loop fuel nodes names tid rank d = LineageRunning.
Proof.
  intros Hclosed. induction fuel as [| fuel IH]; intros tid rank d Htid Hrank.
  - simpl. destruct rank as [r0 |]; [| reflexivity].
    destruct (string_dec r0 "superkingdom"); [congruence | reflexivity].
  - destruct (Hclosed tid Htid) as (parent & r & name_txt & Hnode & Hr & Hname & Hp).
    rewrite (lineage_loop_continue nodes names fuel tid rank d parent r name_txt
               Hrank Hnode Hname).
    apply IH; [assumption | congruence].
Qed.

(** X27. The walk up the taxonomy never returns from an identifier whose
    ancestors, all present in both data frames, never have the rank
    superkingdom: on a set of identifiers closed under the parent link and
    free of that rank (the root, which is its own parent, is one) the loop
    is still running after any number of iterations. *)
Theorem lineage_never_returns (nodes : nodes_df) (names : names_df)
    (P : string -> Prop) (tid : string) (fuel : nat) :
  (forall t, P t ->
     exists parent rank name_txt,
       dict_get nodes t = Some (parent, rank) /\ rank <> "superkingdom" /\
       dict_get names t = Some name_txt /\ P parent) ->
  P tid ->
  lineage_dict_from_tid fuel tid nodes names = LineageRunning.
Proof.
  intros Hclosed Htid. unfold lineage_dict_from_tid.
  apply (lineage_loop_running nodes names P Hclosed); [assumption | discriminate].
Qed.

Lemma root_closed :
  forall t, t = "1" ->
    exists parent rank name_txt,
      dict_get nodes_sample t = Some (parent, rank) /\ rank <> "superkingdom" /\
      dict_get names_sample t = Some name_txt /\ parent = "1".
Proof.
  intros t ->. exists "1", "no rank", "root".
  split; [reflexivity |]. split; [discriminate |]. split; reflexivity.
Qed.

Lemma lineage_never_returns_witness :
  (forall t, t = "1" ->
     exists parent rank name_txt,
       dict_get nodes_sample t = Some (parent, rank) /\ rank <> "superkingdom" /\
       dict_get names_sample t = Some name_txt /\ parent = "1") /\
  lineage_dict_from_tid 50 "1" nodes_sample names_sample = LineageRunning.
Proof.
  split; [exact root_closed |].
  apply (lineage_never_returns nodes_sample names_sample (fun t => t = "1") "1" 50);
    [exact root_closed | reflexivity].
Defined.

Lemma dict_get_app {K V : Type} `{KeyEq K} (d1 d2 : dict K V) (k : K) :
  dict_get (d1 ++ d2) k =
  match dict_get d1 k with Some x => Some x | None => dict_get d2 k end.
Proof.
  induction d1 as [| [k' v'] d1 IH]; simpl; [reflexivity |].
  destruct (key_eq_dec k k'); [reflexivity | exact IH].
Qed.

Lemma dict_get_fold_set {K V : Type} `{KeyEq K} (l : list (K * V)) :
  forall (d0 : dict K V) (k : K),
    dict_get (fold_left (fun d kv => dict_set d (fst kv) (snd kv)) l d0) k =
    match dict_get (rev l) k with Some x => Some x | None => dict_get d0 k end.
Proof.
  induction l as [| [k' v'] l IH]; intros d0 k; simpl; [reflexivity |].
  rewrite IH, dict_get_app. simpl.
  destruct (dict_get (rev l) k); [reflexivity |].
  destruct (key_eq_dec k k') as [-> | Hne].
  - apply dict_get_set_same.
  - apply dict_get_set_other. congruence.
Qed.

Lemma lineage_loop_path (nodes : nodes_df) (names : names_df) (tid : string)
    (visited : list (string * string)) :
  lineage_path nodes names tid visited ->
  forall fuel rank d,
    rank <> Some "superkingdom" -> (List.length visited <= fuel)%nat ->
    lineage_loop fuel nodes names tid rank d =
    LineageReturned (fold_left (fun d rn => dict_set d (fst rn) (snd rn)) visited d).
Proof.
  induction 1 as [tid parent name_txt Hnode Hname
                 | tid parent r name_txt above Hnode Hr Hname Hpath IH];
    intros fuel rank d Hrank Hfuel.
  - destruct fuel as [| fuel]; [simpl in Hfuel; lia |].
    rewrite (lineage_loop_continue nodes names fuel tid rank d parent
               "superkingdom" name_txt Hrank Hnode Hname).
    apply lineage_loop_stop.
  - destruct fuel as [| fuel]; [simpl in Hfuel; lia |].
    rewrite (lineage_loop_continue nodes names fuel tid rank d parent r name_txt
               Hrank Hnode Hname).
    simpl. apply IH; [congruence | simpl in Hfuel; lia].
Qed.

(** X28. From an identifier whose ancestors lead, within both data
    frames, to a node of rank superkingdom, the walk returns after as many
    iterations as there are nodes on the way; the returned dictionary maps
    each rank met to the name of the highest node of that rank (a later
    node overwrites an earlier one of the same rank), and holds the
    superkingdom. *)
Theorem lineage_returns (nodes : nodes_df) (names : names_df) (tid : string)
    (visited : list (string * string)) (fuel : nat) :
  lineage_path nodes names tid visited -> (List.length visited <= fuel)%nat ->
  exists lineage_dict,
    lineage_dict_from_tid fuel tid nodes names = LineageReturned lineage_dict /\
    (forall rank, dict_get lineage_dict rank = dict_get (rev visited) rank) /\
    dict_get lineage_dict "superkingdom" <> None.
Proof.
  intros Hpath Hfuel.
  exists (fold_left (fun d rn => dict_set d (fst rn) (snd rn)) visited []).
  assert (Hget : forall rank,
             dict_get (fold_left (fun d rn => dict_set d (fst rn) (snd rn)) visited [])
               rank = dict_get (rev visited) rank).
  { intros rank. rewrite dict_get_fold_set. simpl.
    now destruct (dict_get (rev visited) rank). }
  split; [| split].
  - unfold lineage_dict_from_tid.
    apply lineage_loop_path; [assumption | discriminate | assumption].
  - exact Hget.
  - rewrite Hget. clear Hget Hfuel.
    induction Hpath as [tid parent name_txt _ _
                       | tid parent r name_txt above _ Hr _ _ IH].
    + simpl. discriminate.
    + simpl. rewrite dict_get_app.
      destruct (dict_get (rev above) "superkingdom"); [discriminate | congruence].
Qed.

Lemma lineage_path_sample :
  lineage_path nodes_sample names_sample "562"
    [("species", "Escherichia coli"); ("genus", "Escherichia");
     ("superkingdom", "Bacteria")].
Proof.
  apply path_up with (parent := "561");
    [reflexivity | discriminate | reflexivity |].
  apply path_up with (parent := "2");
    [reflexivity | discriminate | reflexivity |].
  apply path_top with (parent := "131567"); reflexivity.
Qed.

Lemma lineage_returns_witness :
  lineage_path nodes_sample names_sample "562"
    [("species", "Escherichia coli"); ("genus", "Escherichia");
     ("superkingdom", "Bacteria")] /\
  (3 <= 3)%nat /\
  exists lineage_dict,
    lineage_dict_from_tid 3 "562" nodes_sample names_sample
    = LineageReturned lineage_dict /\
    (forall rank,
        dict_get lineage_dict rank =
        dict_get (rev [("species", "Escherichia coli"); ("genus", "Escherichia");
                       ("superkingdom", "Bacteria")]) rank) /\
    dict_get lineage_dict "superkingdom" <> None.
Proof.
  split; [apply lineage_path_sample |]. split; [lia |].
  apply (lineage_returns nodes_sample names_sample "562" _ 3);
    [apply lineage_path_sample | simpl; lia].
Defined.
